(** * DeepCite: the client-side chat store, the PDF byte assembler, citation
      binding and the BibTeX parser/formatter, embedded from the TypeScript
      sources and checked against the specification's claims.

    Sources embedded here:
    - [frontend/src/features/chat/stores/chatStore.ts]   (module [ChatStore])
    - [frontend/src/features/chat/components/ChatPane.vue] (module [ChatPane])
    - [docs/src/components/Citation/BibParser.ts] and
      [docs/src/pages/papers.tsx]                          (module [Bib])

    Conventions.  JavaScript strings are modelled as [string] (sequences of
    8-bit code units), numbers that the code only uses as integers as [Z],
    [undefined]/[null] as [None].  [Date.now()], [new Date()] and
    [Math.random()] are inputs of the operation that reads them.  Objects that
    the code mutates through several references (conversations, abort
    controllers) live in an explicit heap and are named by their position. *)

From Stdlib Require Import ZArith Lia ZifyNat String Ascii List DecimalString Permutation.
From stdpp Require Import base option gmap sets list strings.

(* ===================================================================== *)
(** * JavaScript helpers *)
(* ===================================================================== *)

Module Js.

(** [`${n}`] for an integral number. *)
Definition num_to_string (z : Z) : string :=
  NilZero.string_of_int (Z.to_int z).

(** Truthiness of a string: only the empty string is falsy. *)
Definition truthy (s : string) : bool := negb (String.eqb s "").

(** [o || d] for an optional string [o]. *)
Definition or_else (o : option string) (d : string) : string :=
  match o with
  | Some s => if truthy s then s else d
  | None => d
  end.

(** [!o] for an optional string. *)
Definition falsy_opt (o : option string) : bool :=
  match o with
  | Some s => negb (truthy s)
  | None => true
  end.

(** [Array.prototype.findIndex]; [None] stands for [-1]. *)
Fixpoint findIndex {A} (p : A -> bool) (l : list A) : option nat :=
  match l with
  | [] => None
  | x :: l' => if p x then Some 0%nat else S <$> findIndex p l'
  end.

(** [Array.prototype.find]. *)
Fixpoint find {A} (p : A -> bool) (l : list A) : option A :=
  match l with
  | [] => None
  | x :: l' => if p x then Some x else find p l'
  end.

(** [s.endsWith(suf)], on the reversed character lists. *)
Fixpoint starts_with (p s : list ascii) : bool :=
  match p, s with
  | [], _ => true
  | a :: p', b :: s' => Ascii.eqb a b && starts_with p' s'
  | _ :: _, [] => false
  end.

Definition ends_with (suf s : string) : bool :=
  starts_with (rev (list_ascii_of_string suf)) (rev (list_ascii_of_string s)).

End Js.

(* ===================================================================== *)
(** * Data model shared by the store and the chat pane *)
(* ===================================================================== *)

Inductive Role := user | assistant.

Inductive ChatMode := normal | workspaces | internet.

Definition Role_eqb (a b : Role) : bool :=
  match a, b with
  | user, user | assistant, assistant => true
  | _, _ => false
  end.

(** [searchResults[].document] *)
Record DocumentRef := mkDocumentRef {
  doc_id : string;
  doc_title : string;
  doc_filename : string;
  doc_authors : option (list string);
  doc_year : option Z
}.

(** An element of [ChatMessage.searchResults].  The floating-point [score]
    is carried by the backend payload and read by none of the operations
    below; it is left out. *)
Record SearchResult := mkSearchResult {
  sr_paragraph_id : string;
  sr_text : string;
  sr_page : option Z;
  sr_section_path : option string;
  sr_document : DocumentRef
}.

Record FormattedCitation := mkFormattedCitation {
  fc_index : Z;
  fc_title : string;
  fc_url : string;
  fc_date : string;
  fc_snippet : string;
  fc_last_updated : string
}.

Record ChatMessage := mkChatMessage {
  msg_id : string;
  msg_role : Role;
  msg_content : string;
  msg_htmlContent : option string;
  msg_timestamp : Z;
  msg_model : option string;
  msg_searchResults : option (list SearchResult);
  msg_formattedCitations : option (list FormattedCitation);
  msg_citations : option (list string);
  msg_contextUsed : option bool
}.

(** [isTemporary] and [chatModeLocked] are optional booleans that the code
    only tests for truthiness; [undefined] is identified with [false]. *)
Record ChatConversation := mkChatConversation {
  conv_id : string;
  conv_title : string;
  conv_messages : list ChatMessage;
  conv_modelId : string;
  conv_createdAt : Z;
  conv_updatedAt : Z;
  conv_selectedWorkspaces : option (list string);
  conv_selectedDocuments : option (list (string * list string));
  conv_chatMode : option ChatMode;
  conv_chatModeLocked : bool;
  conv_selectedDomains : option (list string);
  conv_isTemporary : bool
}.

(* ===================================================================== *)
(** * The conversation store (chatStore.ts) *)
(* ===================================================================== *)

Module ChatStore.

(** ** State

    [heap] holds every conversation object ever created; the reactive
    array [conversations.value] is the list [conversations] of references
    into it.  A [sendMessage] call keeps its captured [conversation]
    reference across the [await], also after the conversation has been
    removed from the array.  [controllers] holds the [aborted] flag of
    every [AbortController] created so far.  [availableModels] and the
    writes to [localStorage] are not part of the state modelled here. *)
Record Store := mkStore {
  heap : list ChatConversation;
  conversations : list nat;
  currentConversationId : option string;
  selectedModelId : string;
  isLoading : bool;
  error : option string;
  chatMode : option ChatMode;
  selectedDomains : list string;
  activeRequests : gset string;
  requestQueue : gmap string nat;
  controllers : list bool
}.

(** The store as [defineStore] initialises it. *)
Definition initial : Store :=
  {| heap := []; conversations := []; currentConversationId := None;
     selectedModelId := "gpt-5"; isLoading := false; error := None;
     chatMode := Some normal; selectedDomains := [];
     activeRequests := ∅; requestQueue := ∅; controllers := [] |}.

Definition set_heap (h : list ChatConversation) (s : Store) : Store :=
  {| heap := h; conversations := conversations s;
     currentConversationId := currentConversationId s;
     selectedModelId := selectedModelId s; isLoading := isLoading s;
     error := error s; chatMode := chatMode s;
     selectedDomains := selectedDomains s;
     activeRequests := activeRequests s; requestQueue := requestQueue s;
     controllers := controllers s |}.

Definition set_conversations (l : list nat) (s : Store) : Store :=
  {| heap := heap s; conversations := l;
     currentConversationId := currentConversationId s;
     selectedModelId := selectedModelId s; isLoading := isLoading s;
     error := error s; chatMode := chatMode s;
     selectedDomains := selectedDomains s;
     activeRequests := activeRequests s; requestQueue := requestQueue s;
     controllers := controllers s |}.

Definition set_current (c : option string) (s : Store) : Store :=
  {| heap := heap s; conversations := conversations s;
     currentConversationId := c;
     selectedModelId := selectedModelId s; isLoading := isLoading s;
     error := error s; chatMode := chatMode s;
     selectedDomains := selectedDomains s;
     activeRequests := activeRequests s; requestQueue := requestQueue s;
     controllers := controllers s |}.

Definition set_selection (m : string) (d : list string) (s : Store) : Store :=
  {| heap := heap s; conversations := conversations s;
     currentConversationId := currentConversationId s;
     selectedModelId := m; isLoading := isLoading s;
     error := error s; chatMode := chatMode s;
     selectedDomains := d;
     activeRequests := activeRequests s; requestQueue := requestQueue s;
     controllers := controllers s |}.

Definition set_isLoading (b : bool) (s : Store) : Store :=
  {| heap := heap s; conversations := conversations s;
     currentConversationId := currentConversationId s;
     selectedModelId := selectedModelId s; isLoading := b;
     error := error s; chatMode := chatMode s;
     selectedDomains := selectedDomains s;
     activeRequests := activeRequests s; requestQueue := requestQueue s;
     controllers := controllers s |}.

Definition set_error (e : option string) (s : Store) : Store :=
  {| heap := heap s; conversations := conversations s;
     currentConversationId := currentConversationId s;
     selectedModelId := selectedModelId s; isLoading := isLoading s;
     error := e; chatMode := chatMode s;
     selectedDomains := selectedDomains s;
     activeRequests := activeRequests s; requestQueue := requestQueue s;
     controllers := controllers s |}.

Definition set_requests (a : gset string) (q : gmap string nat)
    (c : list bool) (s : Store) : Store :=
  {| heap := heap s; conversations := conversations s;
     currentConversationId := currentConversationId s;
     selectedModelId := selectedModelId s; isLoading := isLoading s;
     error := error s; chatMode := chatMode s;
     selectedDomains := selectedDomains s;
     activeRequests := a; requestQueue := q; controllers := c |}.

Definition set_messages (l : list ChatMessage) (c : ChatConversation)
    : ChatConversation :=
  {| conv_id := conv_id c; conv_title := conv_title c; conv_messages := l;
     conv_modelId := conv_modelId c; conv_createdAt := conv_createdAt c;
     conv_updatedAt := conv_updatedAt c;
     conv_selectedWorkspaces := conv_selectedWorkspaces c;
     conv_selectedDocuments := conv_selectedDocuments c;
     conv_chatMode := conv_chatMode c;
     conv_chatModeLocked := conv_chatModeLocked c;
     conv_selectedDomains := conv_selectedDomains c;
     conv_isTemporary := conv_isTemporary c |}.

Definition set_updatedAt (t : Z) (c : ChatConversation) : ChatConversation :=
  {| conv_id := conv_id c; conv_title := conv_title c;
     conv_messages := conv_messages c;
     conv_modelId := conv_modelId c; conv_createdAt := conv_createdAt c;
     conv_updatedAt := t;
     conv_selectedWorkspaces := conv_selectedWorkspaces c;
     conv_selectedDocuments := conv_selectedDocuments c;
     conv_chatMode := conv_chatMode c;
     conv_chatModeLocked := conv_chatModeLocked c;
     conv_selectedDomains := conv_selectedDomains c;
     conv_isTemporary := conv_isTemporary c |}.

(** The first-message update of [sendMessage]: title, frozen mode, lock,
    and the conversion of a temporary conversation into a permanent one. *)
Definition set_first_message (title : string) (mode : option ChatMode)
    (c : ChatConversation) : ChatConversation :=
  {| conv_id := conv_id c; conv_title := title;
     conv_messages := conv_messages c;
     conv_modelId := conv_modelId c; conv_createdAt := conv_createdAt c;
     conv_updatedAt := conv_updatedAt c;
     conv_selectedWorkspaces := conv_selectedWorkspaces c;
     conv_selectedDocuments := conv_selectedDocuments c;
     conv_chatMode := mode;
     conv_chatModeLocked := true;
     conv_selectedDomains := conv_selectedDomains c;
     conv_isTemporary := false |}.

(** ** Computed properties *)

(** The conversation objects of [conversations.value], in array order,
    each with its reference. *)
Definition listed (s : Store) : list (nat * ChatConversation) :=
  omap (fun r => (fun c => (r, c)) <$> heap s !! r) (conversations s).

Definition has_id (i : string) (rc : nat * ChatConversation) : bool :=
  String.eqb (conv_id (snd rc)) i.

(** [conversations.value.find(c => c.id === id)] *)
Definition find_conversation (i : string) (s : Store)
    : option (nat * ChatConversation) :=
  Js.find (has_id i) (listed s).

(** [currentConversation] *)
Definition currentConversation (s : Store) : option (nat * ChatConversation) :=
  if Js.falsy_opt (currentConversationId s) then None
  else match currentConversationId s with
       | Some i => find_conversation i s
       | None => None
       end.

(** Stable insertion of [x] into a list ordered by [before]; the array
    sort of the engine is stable. *)
Fixpoint insert_sorted {A} (before : A -> A -> bool) (x : A) (l : list A)
    : list A :=
  match l with
  | [] => [x]
  | y :: l' => if before x y then x :: y :: l'
               else y :: insert_sorted before x l'
  end.

Definition stable_sort {A} (before : A -> A -> bool) (l : list A) : list A :=
  foldr (insert_sorted before) [] l.

(** [sortedConversations]: the comparator is
    [b.updatedAt - a.updatedAt], so [a] stays before [b] when
    [b.updatedAt <= a.updatedAt]. *)
Definition sortedConversations (s : Store) : list ChatConversation :=
  stable_sort (fun a b => (conv_updatedAt b <=? conv_updatedAt a)%Z)
              (snd <$> listed s).

(** ** Actions *)

(** The clock and random reads of [createNewConversation]:
    [Date.now()], [Math.random().toString(36).substr(2, 9)] and the two
    [new Date()]. *)
Record CreateEnv := mkCreateEnv {
  ce_now : Z;
  ce_random : string;
  ce_createdAt : Z;
  ce_updatedAt : Z
}.

Definition conversation_id (e : CreateEnv) : string :=
  "chat-" +:+ Js.num_to_string (ce_now e) +:+ "-" +:+ ce_random e.

(** The filter of the clean-up in [createNewConversation]:
    [!conv.isTemporary || conv.messages.length > 0 ||
     conv.id === currentConversationId.value]. *)
Definition keep_on_cleanup (cur : option string) (c : ChatConversation)
    : bool :=
  negb (conv_isTemporary c)
  || (0 <? length (conv_messages c))%nat
  || match cur with
     | Some i => String.eqb (conv_id c) i
     | None => false
     end.

Definition cleanup (s : Store) : list nat :=
  fst <$> filter (fun rc => keep_on_cleanup (currentConversationId s) (snd rc) = true)
                 (listed s).

(** [createNewConversation(title?, isTemporary = false)]; returns the
    new store and the new id.  [new_conversation] is its object literal. *)
Definition new_conversation (title : option string) (isTemporary : bool)
    (e : CreateEnv) (s : Store) : ChatConversation :=
  {| conv_id := conversation_id e;
     conv_title := Js.or_else title "New Chat";
     conv_messages := [];
     conv_modelId := selectedModelId s;
     conv_createdAt := ce_createdAt e;
     conv_updatedAt := ce_updatedAt e;
     conv_selectedWorkspaces := None;
     conv_selectedDocuments := None;
     conv_chatMode := None;
     conv_chatModeLocked := false;
     conv_selectedDomains := Some (selectedDomains s);
     conv_isTemporary := isTemporary |}.

Definition createNewConversation (title : option string) (isTemporary : bool)
    (e : CreateEnv) (s : Store) : Store * string :=
  let conversation := new_conversation title isTemporary e s in
  let kept := if isTemporary then cleanup s else conversations s in
  let r := length (heap s) in
  (set_current (Some (conv_id conversation))
     (set_conversations (kept ++ [r])
        (set_heap (heap s ++ [conversation]) s)), conv_id conversation).

(** [selectConversation(id)] *)
Definition selectConversation (i : string) (s : Store) : Store :=
  match find_conversation i s with
  | Some (_, conversation) =>
      set_selection (conv_modelId conversation)
                    (default [] (conv_selectedDomains conversation))
                    (set_current (Some i) s)
  | None => s
  end.

(** [deleteConversation(id)] *)
Definition deleteConversation (i : string) (s : Store) : Store :=
  match Js.findIndex (has_id i) (listed s) with
  | Some index =>
      let remaining := delete index (listed s) in
      let s' := set_conversations (fst <$> remaining) s in
      if match currentConversationId s with
         | Some cur => String.eqb cur i
         | None => false
         end
      then set_current (match remaining with
                        | rc :: _ => Some (conv_id (snd rc))
                        | [] => None
                        end) s'
      else s'
  | None => s
  end.

(** [cancelActiveRequests()] *)
Definition abort (c : nat) (ctl : list bool) : list bool := <[c := true]> ctl.

Definition cancelActiveRequests (s : Store) : Store :=
  set_isLoading false
    (set_requests ∅ ∅
       (foldr abort (controllers s) (snd <$> map_to_list (requestQueue s)))
       s).

(** [clearError()] *)
Definition clearError (s : Store) : Store := set_error None s.

(** ** [sendMessage]

    The asynchronous function is split at its single [await]:
    [sendMessage_start] is the synchronous part up to and including the
    call of [api.post], [sendMessage_resume] is the continuation that
    runs once the request is settled (the rest of the [try], the [catch]
    and the [finally]).  A [Call] is what the suspended function keeps:
    its captured locals. *)

Record SendEnv := mkSendEnv {
  se_create : CreateEnv;          (* read only when no conversation is current *)
  se_requestNow : Z;
  se_requestRandom : string;
  se_userNow : Z;
  se_userTimestamp : Z;
  se_userUpdatedAt : Z;
  se_placeholderNow : Z;
  se_placeholderTimestamp : Z
}.

(** Body and options of [api.post('/chat/send', ...)]. *)
Record ChatRequest := mkChatRequest {
  req_message : string;
  req_model_id : string;
  req_request_id : string;
  req_conversation_history : list (Role * string);
  req_chat_mode : option ChatMode;
  req_selected_workspaces : list string;
  req_selected_documents : list (string * list string);
  req_selected_domains : list string;
  req_signal : nat;
  req_timeout : Z
}.

Record Call := mkCall {
  call_conversation : nat;
  call_requestId : string;
  call_controller : nat;
  call_placeholderId : string;
  call_request : ChatRequest
}.

Definition request_id (e : SendEnv) : string :=
  "req-" +:+ Js.num_to_string (se_requestNow e) +:+ "-" +:+ se_requestRandom e.

Definition userMessage (content : string) (e : SendEnv) : ChatMessage :=
  {| msg_id := "msg-" +:+ Js.num_to_string (se_userNow e) +:+ "-user";
     msg_role := user;
     msg_content := content;
     msg_htmlContent := None;
     msg_timestamp := se_userTimestamp e;
     msg_model := None;
     msg_searchResults := None;
     msg_formattedCitations := None;
     msg_citations := None;
     msg_contextUsed := None |}.

Definition placeholderMessage (e : SendEnv) : ChatMessage :=
  {| msg_id := "msg-" +:+ Js.num_to_string (se_placeholderNow e)
               +:+ "-assistant-placeholder";
     msg_role := assistant;
     msg_content := "...";
     msg_htmlContent := None;
     msg_timestamp := se_placeholderTimestamp e;
     msg_model := None;
     msg_searchResults := None;
     msg_formattedCitations := None;
     msg_citations := None;
     msg_contextUsed := None |}.

(** [content.length > 50 ? content.slice(0, 50) + '...' : content] *)
Definition first_title (content : string) : string :=
  if (50 <? String.length content)%nat
  then substring 0 50 content +:+ "..."
  else content.

Definition sendMessage_start (content : string) (e : SendEnv) (s : Store)
    : Store * option Call :=
  let s0 := if Js.falsy_opt (currentConversationId s)
            then fst (createNewConversation None false (se_create e) s)
            else s in
  match currentConversation s0 with
  | None => (s0, None)
  | Some (r, conversation) =>
      let requestId := request_id e in
      let cid := conv_id conversation in
      (* cancel any existing request for this conversation *)
      let ctl1 := match requestQueue s0 !! cid with
                  | Some existingController =>
                      abort existingController (controllers s0)
                  | None => controllers s0
                  end in
      let q1 := delete cid (requestQueue s0) in
      (* new abort controller *)
      let abortController := length ctl1 in
      let ctl2 := ctl1 ++ [false] in
      let q2 := <[cid := abortController]> q1 in
      let act := {[requestId]} ∪ activeRequests s0 in
      (* user message *)
      let c1 := set_updatedAt (se_userUpdatedAt e)
                  (set_messages (conv_messages conversation
                                 ++ [userMessage content e]) conversation) in
      let c2 := if (length (conv_messages c1) =? 1)%nat
                then set_first_message (first_title content) (chatMode s0) c1
                else c1 in
      (* placeholder *)
      let c3 := set_messages (conv_messages c2 ++ [placeholderMessage e]) c2 in
      let s1 := set_error None
                  (set_isLoading true
                     (set_requests act q2 ctl2
                        (set_heap (<[r := c3]> (heap s0)) s0))) in
      let request :=
        {| req_message := content;
           req_model_id := selectedModelId s1;
           req_request_id := requestId;
           req_conversation_history :=
             (fun m => (msg_role m, msg_content m))
               <$> take (length (conv_messages c3) - 2) (conv_messages c3);
           req_chat_mode := chatMode s1;
           req_selected_workspaces := default [] (conv_selectedWorkspaces c3);
           req_selected_documents := default [] (conv_selectedDocuments c3);
           req_selected_domains := selectedDomains s1;
           req_signal := abortController;
           req_timeout := 120000 |} in
      (s1, Some {| call_conversation := r;
                   call_requestId := requestId;
                   call_controller := abortController;
                   call_placeholderId := msg_id (placeholderMessage e);
                   call_request := request |})
  end.

(** [response.data.response] *)
Record ResponseBody := mkResponseBody {
  rb_content : string;
  rb_html_content : option string;
  rb_timestamp : Z;
  rb_model : option string;
  rb_search_results : option (list SearchResult);
  rb_formatted_citations : option (list FormattedCitation);
  rb_citations : option (list string);
  rb_context_used : option bool
}.

(** [response.data], in the two shapes of the REST contract:
    [{success: true, response}] and [{success: false, error}]. *)
Inductive ResponseData :=
| Success (response : ResponseBody)
| Failure (error : option string).

(** What the [catch] clause reads of the value it catches:
    [e.name], [e.code], [e.message] and [e.response?.data?.error]. *)
Record JsError := mkJsError {
  err_name : string;
  err_code : option string;
  err_message : string;
  err_response_error : option string
}.

(** How the awaited request ends. *)
Inductive Outcome :=
| Resolved (data : ResponseData)
| Rejected (e : JsError).

(** [new Error(message)] *)
Definition new_Error (message : string) : JsError :=
  {| err_name := "Error"; err_code := None; err_message := message;
     err_response_error := None |}.

Record ResumeEnv := mkResumeEnv {
  re_now : Z;
  re_updatedAt : Z
}.

Definition has_msg_id (i : string) (m : ChatMessage) : bool :=
  String.eqb (msg_id m) i.

(** [findIndex(msg => msg.id === placeholderMessage.id)] followed by
    [splice(placeholderIndex, 1)] when the index is not [-1]. *)
Definition remove_placeholder (pid : string) (msgs : list ChatMessage)
    : list ChatMessage :=
  match Js.findIndex (has_msg_id pid) msgs with
  | Some placeholderIndex => delete placeholderIndex msgs
  | None => msgs
  end.

Definition assistantMessage (b : ResponseBody) (e : ResumeEnv) : ChatMessage :=
  {| msg_id := "msg-" +:+ Js.num_to_string (re_now e) +:+ "-assistant";
     msg_role := assistant;
     msg_content := rb_content b;
     msg_htmlContent := rb_html_content b;
     msg_timestamp := rb_timestamp b;
     msg_model := rb_model b;
     msg_searchResults := Some (default [] (rb_search_results b));
     msg_formattedCitations := Some (default [] (rb_formatted_citations b));
     msg_citations := Some (default [] (rb_citations b));
     msg_contextUsed := Some (default false (rb_context_used b)) |}.

(** Mutation of the captured conversation object. *)
Definition update_conversation (r : nat)
    (f : ChatConversation -> ChatConversation) (s : Store) : Store :=
  set_heap (alter f r (heap s)) s.

(** The [finally] block. *)
Definition finally_block (k : Call) (s : Store) : Store :=
  let q := match heap s !! call_conversation k with
           | Some conversation => delete (conv_id conversation) (requestQueue s)
           | None => requestQueue s
           end in
  set_isLoading false
    (set_requests (activeRequests s ∖ {[call_requestId k]}) q
                  (controllers s) s).

(** [e.name === 'AbortError' || e.code === 'ECONNABORTED'] *)
Definition is_cancellation (e : JsError) : bool :=
  String.eqb (err_name e) "AbortError"
  || match err_code e with
     | Some c => String.eqb c "ECONNABORTED"
     | None => false
     end.

(** [e.response?.data?.error || e.message || 'Failed to send message'] *)
Definition error_text (e : JsError) : string :=
  Js.or_else (err_response_error e)
    (Js.or_else (Some (err_message e)) "Failed to send message").

(** The [catch] clause, followed by [finally]. *)
Definition catch_block (k : Call) (e : JsError) (s : Store) : Store :=
  let s1 := update_conversation (call_conversation k)
              (fun c => set_messages
                          (remove_placeholder (call_placeholderId k)
                                              (conv_messages c)) c) s in
  if is_cancellation e then finally_block k s1
  else finally_block k (set_error (Some (error_text e)) s1).

(** The rejection with which the HTTP client behind [api] (axios)
    settles a request whose [timeout] option has elapsed: an error with
    code [ECONNABORTED], carrying no response. *)
Definition timeout_rejection (ms : Z) : JsError :=
  {| err_name := "AxiosError";
     err_code := Some "ECONNABORTED";
     err_message := "timeout of " +:+ Js.num_to_string ms +:+ "ms exceeded";
     err_response_error := None |}.

Definition sendMessage_resume (k : Call) (o : Outcome) (e : ResumeEnv)
    (s : Store) : Store :=
  match o with
  | Resolved data =>
      if negb (bool_decide (call_requestId k ∈ activeRequests s))
      then finally_block k s            (* return: request was cancelled *)
      else match data with
           | Success body =>
               finally_block k
                 (update_conversation (call_conversation k)
                    (fun c =>
                       set_updatedAt (re_updatedAt e)
                         (set_messages
                            (remove_placeholder (call_placeholderId k)
                                                (conv_messages c)
                             ++ [assistantMessage body e]) c)) s)
           | Failure err =>
               catch_block k
                 (new_Error (Js.or_else err "Failed to send message")) s
           end
  | Rejected err => catch_block k err s
  end.

(** ** The store in its environment

    A [World] is the store together with the [sendMessage] calls that are
    suspended at their [await].  The page and the network drive it with
    [Event]s.  The one assumption made on the HTTP client is the contract
    of its [signal] option: a request whose controller has been aborted
    is never fulfilled, it can only be rejected. *)

Record World := mkWorld {
  store : Store;
  inflight : list Call
}.

Inductive Event :=
| Send (content : string) (e : SendEnv)
| Settle (i : nat) (o : Outcome) (e : ResumeEnv)
| CancelAll
| Create (title : option string) (isTemporary : bool) (e : CreateEnv)
| Select (i : string)
| Delete (i : string)
| ClearError.

Definition aborted (s : Store) (c : nat) : bool :=
  default false (controllers s !! c).

Definition deliverable (s : Store) (k : Call) (o : Outcome) : bool :=
  match o with
  | Resolved _ => negb (aborted s (call_controller k))
  | Rejected _ => true
  end.

(** The effect of one event; [None] when the event cannot happen in [w]. *)
Definition fire (ev : Event) (w : World) : option World :=
  match ev with
  | Send content e =>
      let '(s, k) := sendMessage_start content e (store w) in
      Some {| store := s;
              inflight := inflight w ++ match k with
                                        | Some c => [c]
                                        | None => []
                                        end |}
  | Settle i o e =>
      match inflight w !! i with
      | Some k =>
          if deliverable (store w) k o
          then Some {| store := sendMessage_resume k o e (store w);
                       inflight := delete i (inflight w) |}
          else None
      | None => None
      end
  | CancelAll =>
      Some {| store := cancelActiveRequests (store w); inflight := inflight w |}
  | Create title isTemporary e =>
      Some {| store := fst (createNewConversation title isTemporary e (store w));
              inflight := inflight w |}
  | Select i =>
      Some {| store := selectConversation i (store w); inflight := inflight w |}
  | Delete i =>
      Some {| store := deleteConversation i (store w); inflight := inflight w |}
  | ClearError =>
      Some {| store := clearError (store w); inflight := inflight w |}
  end.

Fixpoint run (evs : list Event) (w : World) : option World :=
  match evs with
  | [] => Some w
  | ev :: evs' => match fire ev w with
                  | Some w' => run evs' w'
                  | None => None
                  end
  end.

Definition start : World := {| store := initial; inflight := [] |}.

(** A reply that reaches a call after its request id has left
    [activeRequests]: the call leaves through the early [return]. *)
Definition stale_exit (ev : Event) (w : World) : bool :=
  match ev with
  | Settle i (Resolved _) _ =>
      match inflight w !! i with
      | Some k => negb (bool_decide (call_requestId k ∈ activeRequests (store w)))
      | None => false
      end
  | _ => false
  end.

(** ** Observations *)

(** The placeholder as the chat pane recognises it: an assistant message
    whose content is the ellipsis sentinel. *)
Definition is_placeholder (m : ChatMessage) : bool :=
  Role_eqb (msg_role m) assistant && String.eqb (msg_content m) "...".

(** The ids that [sendMessage] gives to its placeholders. *)
Definition is_placeholder_id (i : string) : bool :=
  Js.ends_with "-assistant-placeholder" i.

Definition placeholder_ids (msgs : list ChatMessage) : list string :=
  filter (fun i => is_placeholder_id i = true) (msg_id <$> msgs).

Definition count_placeholders (msgs : list ChatMessage) : nat :=
  length (filter (fun m => is_placeholder m = true) msgs).

(** The calls still suspended on conversation object [r]. *)
Definition calls_on (r : nat) (ks : list Call) : list Call :=
  filter (fun k => call_conversation k = r) ks.

(** Messages of conversation object [r]. *)
Definition messages_of (r : nat) (s : Store) : list ChatMessage :=
  match heap s !! r with
  | Some c => conv_messages c
  | None => []
  end.

(** Requests that are in flight and whose controller has not been aborted. *)
Definition live_calls_on (r : nat) (w : World) : list Call :=
  filter (fun k => aborted (store w) (call_controller k) = false)
         (calls_on r (inflight w)).

Definition temporary_conversations (s : Store) : list ChatConversation :=
  filter (fun c => conv_isTemporary c = true) (snd <$> listed s).

(** The messages a settled call leaves in its conversation, whose
    messages were [msgs]. *)
Definition settled_messages (k : Call) (o : Outcome) (e : ResumeEnv)
    (s : Store) (msgs : list ChatMessage) : list ChatMessage :=
  match o with
  | Resolved data =>
      if negb (bool_decide (call_requestId k ∈ activeRequests s)) then msgs
      else match data with
           | Success body =>
               remove_placeholder (call_placeholderId k) msgs
               ++ [assistantMessage body e]
           | Failure _ => remove_placeholder (call_placeholderId k) msgs
           end
  | Rejected _ => remove_placeholder (call_placeholderId k) msgs
  end.

(** An execution in which no call leaves through the stale-request
    exit. *)
Fixpoint run_clean (evs : list Event) (w : World) : option World :=
  match evs with
  | [] => Some w
  | ev :: evs' =>
      if stale_exit ev w then None
      else match fire ev w with
           | Some w' => run_clean evs' w'
           | None => None
           end
  end.

(** The suspended calls carry placeholder ids. *)
Definition calls_hold_placeholders (ks : list Call) : Prop :=
  Forall (fun k => is_placeholder_id (call_placeholderId k) = true) ks.

(** The placeholders of every conversation object are those of the calls
    suspended on it, and each of them is an assistant message with the
    sentinel content. *)
Definition tracks (w : World) : Prop :=
  forall r,
    placeholder_ids (messages_of r (store w))
      ≡ₚ (call_placeholderId <$> calls_on r (inflight w))
    /\ Forall (fun m => is_placeholder_id (msg_id m) = true ->
                        is_placeholder m = true)
              (messages_of r (store w)).

(** The rejection of an aborted request, under the name the [catch]
    clause looks for. *)
Definition abort_rejection : JsError :=
  {| err_name := "AbortError"; err_code := None;
     err_message := "The operation was aborted";
     err_response_error := None |}.

(** ** Scenarios *)

Definition create_env (t : Z) (rnd : string) : CreateEnv :=
  mkCreateEnv t rnd t t.

Definition send_env (t : Z) (rnd : string) : SendEnv :=
  mkSendEnv (create_env t rnd) t rnd t t t t t.

Definition reply (content : string) : ResponseBody :=
  {| rb_content := content; rb_html_content := None; rb_timestamp := 0;
     rb_model := None; rb_search_results := None;
     rb_formatted_citations := None; rb_citations := None;
     rb_context_used := None |}.

(** Three conversations created one after the other; the last one is
    current. *)
Definition three_conversations : Store :=
  fst (createNewConversation (Some "third") false (create_env 3000 "ccccccccc")
    (fst (createNewConversation (Some "second") false (create_env 2000 "bbbbbbbbb")
       (fst (createNewConversation (Some "first") false (create_env 1000 "aaaaaaaaa")
          initial))))).

(** A second message sent before the first request is settled. *)
Definition two_sends : list Event :=
  [ Send "a" (send_env 1000 "aaaaaaaaa"); Send "b" (send_env 2000 "bbbbbbbbb") ].

(** ... then the first, aborted request is rejected and a third message
    is sent while the second request is still in flight. *)
Definition three_sends : list Event :=
  two_sends
  ++ [ Settle 0 (Rejected abort_rejection) (mkResumeEnv 2500 2500);
       Send "c" (send_env 3000 "ccccccccc") ].

(** ... then both remaining requests are answered. *)
Definition three_sends_answered : list Event :=
  three_sends
  ++ [ Settle 0 (Resolved (Success (reply "B"))) (mkResumeEnv 4000 4000);
       Settle 0 (Resolved (Success (reply "C"))) (mkResumeEnv 5000 5000) ].

(** ** The remaining computed properties *)

#[global] Instance ChatMode_eq_dec : EqDecision ChatMode.
Proof. solve_decision. Defined.

(** [displayConversations]: [sortedConversations] without the temporary
    conversations. *)
Definition displayConversations (s : Store) : list ChatConversation :=
  filter (fun conv => conv_isTemporary conv = false) (sortedConversations s).

(** The object [byMode]; the key [unassigned] is [None]. *)
Record ByMode := mkByMode {
  by_normal : list ChatConversation;
  by_workspaces : list ChatConversation;
  by_internet : list ChatConversation;
  by_unassigned : list ChatConversation
}.

(** [byMode[mode]] *)
Definition bucket (mode : option ChatMode) (b : ByMode)
    : list ChatConversation :=
  match mode with
  | Some normal => by_normal b
  | Some workspaces => by_workspaces b
  | Some internet => by_internet b
  | None => by_unassigned b
  end.

(** [byMode[conv.chatMode ?? 'unassigned'].push(conv)] *)
Definition push_by_mode (b : ByMode) (conv : ChatConversation) : ByMode :=
  match conv_chatMode conv with
  | Some normal =>
      {| by_normal := by_normal b ++ [conv]; by_workspaces := by_workspaces b;
         by_internet := by_internet b; by_unassigned := by_unassigned b |}
  | Some workspaces =>
      {| by_normal := by_normal b; by_workspaces := by_workspaces b ++ [conv];
         by_internet := by_internet b; by_unassigned := by_unassigned b |}
  | Some internet =>
      {| by_normal := by_normal b; by_workspaces := by_workspaces b;
         by_internet := by_internet b ++ [conv]; by_unassigned := by_unassigned b |}
  | None =>
      {| by_normal := by_normal b; by_workspaces := by_workspaces b;
         by_internet := by_internet b; by_unassigned := by_unassigned b ++ [conv] |}
  end.

(** [conversationsByMode] *)
Definition conversationsByMode (s : Store) : ByMode :=
  foldl push_by_mode (mkByMode [] [] [] []) (displayConversations s).

(** [currentModeConversations]: the bucket of [chatMode.value ||
    'unassigned']; every bucket is an array, so the final [|| []] never
    applies. *)
Definition currentModeConversations (s : Store) : list ChatConversation :=
  bucket (chatMode s) (conversationsByMode s).

(** [hasActiveRequests] of the [useChat] composable. *)
Definition hasActiveRequests (s : Store) : bool :=
  (0 <? size (activeRequests s))%nat.

(** ** The remaining actions

    Each of them reads the clock once, for [updatedAt]; the writes to
    [localStorage] are not modelled. *)

Definition set_title (title : string) (c : ChatConversation)
    : ChatConversation :=
  {| conv_id := conv_id c; conv_title := title;
     conv_messages := conv_messages c;
     conv_modelId := conv_modelId c; conv_createdAt := conv_createdAt c;
     conv_updatedAt := conv_updatedAt c;
     conv_selectedWorkspaces := conv_selectedWorkspaces c;
     conv_selectedDocuments := conv_selectedDocuments c;
     conv_chatMode := conv_chatMode c;
     conv_chatModeLocked := conv_chatModeLocked c;
     conv_selectedDomains := conv_selectedDomains c;
     conv_isTemporary := conv_isTemporary c |}.

Definition set_modelId (modelId : string) (c : ChatConversation)
    : ChatConversation :=
  {| conv_id := conv_id c; conv_title := conv_title c;
     conv_messages := conv_messages c;
     conv_modelId := modelId; conv_createdAt := conv_createdAt c;
     conv_updatedAt := conv_updatedAt c;
     conv_selectedWorkspaces := conv_selectedWorkspaces c;
     conv_selectedDocuments := conv_selectedDocuments c;
     conv_chatMode := conv_chatMode c;
     conv_chatModeLocked := conv_chatModeLocked c;
     conv_selectedDomains := conv_selectedDomains c;
     conv_isTemporary := conv_isTemporary c |}.

Definition set_workspaces (workspaces : list string)
    (documents : list (string * list string)) (c : ChatConversation)
    : ChatConversation :=
  {| conv_id := conv_id c; conv_title := conv_title c;
     conv_messages := conv_messages c;
     conv_modelId := conv_modelId c; conv_createdAt := conv_createdAt c;
     conv_updatedAt := conv_updatedAt c;
     conv_selectedWorkspaces := Some workspaces;
     conv_selectedDocuments := Some documents;
     conv_chatMode := conv_chatMode c;
     conv_chatModeLocked := conv_chatModeLocked c;
     conv_selectedDomains := conv_selectedDomains c;
     conv_isTemporary := conv_isTemporary c |}.

Definition set_domains (domains : list string) (c : ChatConversation)
    : ChatConversation :=
  {| conv_id := conv_id c; conv_title := conv_title c;
     conv_messages := conv_messages c;
     conv_modelId := conv_modelId c; conv_createdAt := conv_createdAt c;
     conv_updatedAt := conv_updatedAt c;
     conv_selectedWorkspaces := conv_selectedWorkspaces c;
     conv_selectedDocuments := conv_selectedDocuments c;
     conv_chatMode := conv_chatMode c;
     conv_chatModeLocked := conv_chatModeLocked c;
     conv_selectedDomains := Some domains;
     conv_isTemporary := conv_isTemporary c |}.

Definition set_chatMode (mode : option ChatMode) (s : Store) : Store :=
  {| heap := heap s; conversations := conversations s;
     currentConversationId := currentConversationId s;
     selectedModelId := selectedModelId s; isLoading := isLoading s;
     error := error s; chatMode := mode;
     selectedDomains := selectedDomains s;
     activeRequests := activeRequests s; requestQueue := requestQueue s;
     controllers := controllers s |}.

(** [if (currentConversation.value) { ... }]: a mutation of the current
    conversation object, when there is one. *)
Definition update_current (f : ChatConversation -> ChatConversation)
    (s : Store) : Store :=
  match currentConversation s with
  | Some (r, _) => update_conversation r f s
  | None => s
  end.

(** [updateConversationTitle(id, title)] *)
Definition updateConversationTitle (i title : string) (now : Z) (s : Store)
    : Store :=
  match find_conversation i s with
  | Some (r, _) =>
      update_conversation r (fun c => set_updatedAt now (set_title title c)) s
  | None => s
  end.

(** [setSelectedModel(modelId)] *)
Definition setSelectedModel (modelId : string) (now : Z) (s : Store) : Store :=
  update_current (fun c => set_updatedAt now (set_modelId modelId c))
                 (set_selection modelId (selectedDomains s) s).

(** [setWorkspaceSelection(workspaces, documents)] *)
Definition setWorkspaceSelection (workspaces : list string)
    (documents : list (string * list string)) (now : Z) (s : Store) : Store :=
  update_current
    (fun c => set_updatedAt now (set_workspaces workspaces documents c)) s.

(** [setSelectedDomains(domains)] *)
Definition setSelectedDomains (domains : list string) (now : Z) (s : Store)
    : Store :=
  update_current (fun c => set_updatedAt now (set_domains domains c))
                 (set_selection (selectedModelId s) domains s).

(** What [setChatMode] reads of a [ModelInfo]. *)
Record ModelInfo := mkModelInfo {
  mi_id : string;
  mi_provider : string
}.

(** [setChatMode(mode)]; [availableModels] is the list fetched from
    [/chat/models]. *)
Definition setChatMode (mode : option ChatMode)
    (availableModels : list ModelInfo) (now : Z) (s : Store) : Store :=
  let s1 := set_chatMode mode s in
  match mode with
  | Some internet =>
      let perplexityModels :=
        filter (fun m => mi_provider m = "perplexity") availableModels in
      match perplexityModels with
      | first :: _ =>
          let sonarModel :=
            default first
              (Js.find (fun m => String.eqb (mi_id m) "sonar") perplexityModels) in
          setSelectedModel (mi_id sonarModel) now s1
      | [] => s1
      end
  | _ => s1
  end.

(** Every action of the store: the events of [fire] and the setters. *)
Inductive Action :=
| Page (ev : Event)
| Rename (i title : string) (now : Z)
| SetModel (modelId : string) (now : Z)
| SetWorkspaces (workspaces : list string)
                (documents : list (string * list string)) (now : Z)
| SetDomains (domains : list string) (now : Z)
| SetMode (mode : option ChatMode) (availableModels : list ModelInfo) (now : Z).

Definition on_store (f : Store -> Store) (w : World) : World :=
  {| store := f (store w); inflight := inflight w |}.

Definition act (a : Action) (w : World) : option World :=
  match a with
  | Page ev => fire ev w
  | Rename i title now => Some (on_store (updateConversationTitle i title now) w)
  | SetModel modelId now => Some (on_store (setSelectedModel modelId now) w)
  | SetWorkspaces selected documents now =>
      Some (on_store (setWorkspaceSelection selected documents now) w)
  | SetDomains domains now => Some (on_store (setSelectedDomains domains now) w)
  | SetMode mode availableModels now =>
      Some (on_store (setChatMode mode availableModels now) w)
  end.

Fixpoint acts (l : list Action) (w : World) : option World :=
  match l with
  | [] => Some w
  | a :: l' => match act a w with
               | Some w' => acts l' w'
               | None => None
               end
  end.

(** ** Further observations *)

(** The conversation ids of [conversations.value], in array order. *)
Definition listed_ids (s : Store) : list string :=
  (fun rc => conv_id (snd rc)) <$> listed s.

(** The current id, when there is one, is the id of a listed
    conversation. *)
Definition current_is_listed (s : Store) : Prop :=
  match currentConversationId s with
  | Some i => i ∈ listed_ids s
  | None => True
  end.

(** A list in the order of [sortedConversations]: no conversation is
    followed by a more recently updated one. *)
Fixpoint newest_first (l : list ChatConversation) : Prop :=
  match l with
  | [] => True
  | a :: l' =>
      Forall (fun b => (conv_updatedAt b <= conv_updatedAt a)%Z) l'
      /\ newest_first l'
  end.

(** The conversation object as the synchronous part of [sendMessage]
    leaves it: user message, first-message update, placeholder. *)
Definition after_send (content : string) (e : SendEnv)
    (mode : option ChatMode) (conversation : ChatConversation)
    : ChatConversation :=
  let c1 := set_updatedAt (se_userUpdatedAt e)
              (set_messages (conv_messages conversation
                             ++ [userMessage content e]) conversation) in
  let c2 := if (length (conv_messages c1) =? 1)%nat
            then set_first_message (first_title content) mode c1
            else c1 in
  set_messages (conv_messages c2 ++ [placeholderMessage e]) c2.

(** The store in which [sendMessage] looks up its conversation: the
    given one, or the one with the conversation it has just created. *)
Definition send_store (e : SendEnv) (s : Store) : Store :=
  if Js.falsy_opt (currentConversationId s)
  then fst (createNewConversation None false (se_create e) s)
  else s.

(** A conversation object holds a message that no call can take away:
    one whose id is not that of a placeholder. *)
Definition has_settled_message (c : ChatConversation) : Prop :=
  Exists (fun m => is_placeholder_id (msg_id m) = false) (conv_messages c).

(** What stays of a conversation object [c] that has received its first
    message, in a later state [c'] of the object. *)
Definition keeps_frozen (c c' : ChatConversation) : Prop :=
  conv_id c' = conv_id c
  /\ conv_chatMode c' = conv_chatMode c
  /\ conv_chatModeLocked c' = conv_chatModeLocked c
  /\ conv_isTemporary c' = conv_isTemporary c
  /\ has_settled_message c'.

(** Every controller that the request queue names exists. *)
Definition queue_in_range (s : Store) : Prop :=
  forall cid c, requestQueue s !! cid = Some c ->
                (c < length (controllers s))%nat.

(** A session on the initial store: a message is sent, the model is
    changed, a temporary conversation is created and deleted again, the
    reply to the message arrives. *)
Definition session : list Action :=
  [ Page (Send "a" (send_env 1000 "aaaaaaaaa"));
    SetModel "sonar" 1500;
    Page (Create None true (create_env 2000 "bbbbbbbbb"));
    Page (Delete "chat-2000-bbbbbbbbb");
    Page (Settle 0 (Resolved (Success (reply "A"))) (mkResumeEnv 3000 3000)) ].

End ChatStore.

(* ===================================================================== *)
(** * Regular expressions of the sources

    Every regular expression in the modelled code is a sequence of
    quantified character classes, some of them capturing:
    [/^[A-Za-z0-9+/]*={0,2}$/], [/@(\w+)\s*{\s*([^,]+),([^@]+)}/g] and
    [/(\w+)\s*=\s*{([^}]+)}/g].  The matcher below is the backtracking
    matcher of the engine restricted to that shape: each item first takes
    the longest run it can and gives characters back one at a time while
    the rest of the pattern fails. *)
(* ===================================================================== *)

Module Regex.

Definition code (c : ascii) : N := N_of_ascii c.

Definition in_range (lo hi : N) (c : ascii) : bool :=
  ((lo <=? code c) && (code c <=? hi))%N.

Definition is_upper : ascii -> bool := in_range 65 90.
Definition is_lower : ascii -> bool := in_range 97 122.
Definition is_digit : ascii -> bool := in_range 48 57.

(** [\w] *)
Definition is_word (c : ascii) : bool :=
  is_upper c || is_lower c || is_digit c || (code c =? 95)%N.

(** [\s], for 8-bit code units: TAB, LF, VT, FF, CR, SPACE, NBSP. *)
Definition is_space (c : ascii) : bool :=
  in_range 9 13 c || (code c =? 32)%N || (code c =? 160)%N.

Definition is_char (a : ascii) (c : ascii) : bool := Ascii.eqb c a.
Definition not_char (a : ascii) (c : ascii) : bool := negb (Ascii.eqb c a).

(** [A-Za-z0-9+/] *)
Definition is_base64_char (c : ascii) : bool :=
  is_upper c || is_lower c || is_digit c
  || (code c =? 43)%N || (code c =? 47)%N.

(** A character class with a greedy quantifier [{it_min, it_max}]
    ([None] for no upper bound), possibly inside a capturing group. *)
Record Item := mkItem {
  it_class : ascii -> bool;
  it_min : nat;
  it_max : option nat;
  it_capture : bool
}.

Definition one (p : ascii -> bool) : Item := mkItem p 1 (Some 1%nat) false.
Definition star (p : ascii -> bool) : Item := mkItem p 0 None false.
Definition plus (p : ascii -> bool) : Item := mkItem p 1 None false.
Definition upto (n : nat) (p : ascii -> bool) : Item := mkItem p 0 (Some n) false.
Definition group (i : Item) : Item :=
  mkItem (it_class i) (it_min i) (it_max i) true.

Fixpoint run_length (p : ascii -> bool) (s : list ascii) : nat :=
  match s with
  | c :: s' => if p c then S (run_length p s') else 0%nat
  | [] => 0%nat
  end.

(** Try [f k], then [f (k-1)], ... down to [f lo]. *)
Fixpoint backtrack {R} (k lo : nat) (f : nat -> option R) : option R :=
  if (k <? lo)%nat then None
  else match f k with
       | Some r => Some r
       | None => match k with
                 | O => None
                 | S k' => backtrack k' lo f
                 end
       end.

(** Match [items] at the head of [s]; [at_end] is the [$] anchor.  The
    result is the list of captures and the number of characters used. *)
Fixpoint match_items (at_end : bool) (items : list Item) (s : list ascii)
    : option (list (list ascii) * nat) :=
  match items with
  | [] => if at_end
          then match s with [] => Some ([], 0%nat) | _ :: _ => None end
          else Some ([], 0%nat)
  | it :: rest =>
      let n := run_length (it_class it) s in
      let n := match it_max it with
               | Some m => Nat.min n m
               | None => n
               end in
      backtrack n (it_min it)
        (fun k =>
           match match_items at_end rest (drop k s) with
           | Some (caps, used) =>
               Some ((if it_capture it then [take k s] else []) ++ caps,
                     (k + used)%nat)
           | None => None
           end)
  end.

(** The matches of a global ([/g]) expression found by calling [exec]
    until it returns [null]: the leftmost match from the current
    position on, then on from the end of that match.  [skip] counts the
    characters of [s] still covered by the last match.  None of the
    expressions scanned this way can match the empty string. *)
Fixpoint scan (items : list Item) (skip : nat) (s : list ascii)
    : list (list (list ascii)) :=
  match s with
  | [] => []
  | _ :: s' =>
      match skip with
      | S k => scan items k s'
      | O => match match_items false items s with
             | Some (caps, used) => caps :: scan items (used - 1) s'
             | None => scan items 0 s'
             end
      end
  end.

Definition exec_all (items : list Item) (s : list ascii)
    : list (list (list ascii)) :=
  scan items 0 s.

End Regex.

(* ===================================================================== *)
(** * The chat pane (ChatPane.vue): PDF byte assembler and citation binding *)
(* ===================================================================== *)

Module ChatPane.

Import Regex.

(** ** Platform functions *)

Definition chars (s : string) : list ascii := list_ascii_of_string s.

(** [hay.includes(needle)] *)
Fixpoint includes (needle hay : list ascii) : bool :=
  Js.starts_with needle hay
  || match hay with
     | [] => false
     | _ :: hay' => includes needle hay'
     end.

(** [s.padEnd(n, '=')] *)
Definition padEnd (s : list ascii) (n : nat) : list ascii :=
  s ++ replicate (n - length s) "="%char.

(** [Math.ceil(n / 4) * 4] *)
Definition ceil4 (n : nat) : nat := ((n + 3) / 4 * 4)%nat.

(** The value of a base64 digit. *)
Definition b64_value (c : ascii) : option Z :=
  let n := Z.of_N (code c) in
  if is_upper c then Some (n - 65)%Z
  else if is_lower c then Some (n - 97 + 26)%Z
  else if is_digit c then Some (n - 48 + 52)%Z
  else if (n =? 43)%Z then Some 62%Z
  else if (n =? 47)%Z then Some 63%Z
  else None.

(** ASCII whitespace of the forgiving base64 decoder:
    TAB, LF, FF, CR, SPACE. *)
Definition is_ascii_whitespace (c : ascii) : bool :=
  let n := code c in
  ((n =? 9) || (n =? 10) || (n =? 12) || (n =? 13) || (n =? 32))%N.

Definition is_pad (c : ascii) : bool := Ascii.eqb c "=".

(** Remove one or two trailing [=]. *)
Fixpoint strip_padding (d : list ascii) : list ascii :=
  match d with
  | [] => []
  | c :: d' =>
      if is_pad c && match d' with
                     | [] => true
                     | [c'] => is_pad c'
                     | _ => false
                     end
      then []
      else c :: strip_padding d'
  end.

(** Groups of four digits give three bytes; a final group of two or
    three digits gives one or two bytes, the left-over bits dropped. *)
Fixpoint decode_digits (vs : list Z) : list Z :=
  match vs with
  | a :: b :: c :: d :: rest =>
      let n := Z.lor (Z.lor (Z.lor (Z.shiftl a 18) (Z.shiftl b 12))
                            (Z.shiftl c 6)) d in
      Z.land (Z.shiftr n 16) 255 :: Z.land (Z.shiftr n 8) 255
        :: Z.land n 255 :: decode_digits rest
  | [a; b; c] =>
      let n := Z.shiftr (Z.lor (Z.lor (Z.shiftl a 12) (Z.shiftl b 6)) c) 2 in
      [Z.land (Z.shiftr n 8) 255; Z.land n 255]
  | [a; b] =>
      [Z.land (Z.shiftr (Z.lor (Z.shiftl a 6) b) 4) 255]
  | _ => []
  end.

(** [atob], the forgiving base64 decoder of the platform; the result is
    the list of the code units of the binary string, [None] when it
    throws. *)
Definition atob (data : list ascii) : option (list Z) :=
  let d := filter (fun c => is_ascii_whitespace c = false) data in
  let d := if (length d mod 4 =? 0)%nat then strip_padding d else d in
  if (length d mod 4 =? 1)%nat then None
  else decode_digits <$> mapM b64_value d.

(** [new TextEncoder().encode(binaryString)] for code units below 256. *)
Definition utf8_encode (bin : list Z) : list Z :=
  bin ≫= (fun c => if (c <? 128)%Z then [c]
                   else [(192 + c / 64)%Z; (128 + c mod 64)%Z]).

(** ** Helper functions for PDF loading *)

(** [/^[A-Za-z0-9+/]*={0,2}$/] *)
Definition base64Regex : list Item :=
  [star is_base64_char; upto 2 (is_char "=")].

Definition isValidBase64 (str : list ascii) : bool :=
  match match_items true base64Regex str with
  | Some _ => (length str mod 4 =? 0)%nat
  | None => false
  end.

Definition chunkSize : nat := Z.to_nat 100000.

(** The successive [base64.slice(i, i + size)] of the loop
    [for (let i = 0; i < base64.length; i += size)]. *)
Fixpoint slices (size fuel : nat) (base64 : list ascii) : list (list ascii) :=
  match fuel, base64 with
  | S fuel', _ :: _ =>
      take size base64 :: slices size fuel' (drop size base64)
  | _, _ => []
  end.

(** [result.set(chunkBytes, resultOffset)]; a [RangeError] is [None]. *)
Definition set_at (result chunkBytes : list Z) (resultOffset : nat)
    : option (list Z) :=
  if (resultOffset + length chunkBytes <=? length result)%nat
  then Some (take resultOffset result ++ chunkBytes
             ++ drop (resultOffset + length chunkBytes) result)
  else None.

(** One iteration of the chunk loop on the pair
    [(result, resultOffset)]. *)
Definition chunk_step (st : option (list Z * nat)) (chunk : list ascii)
    : option (list Z * nat) :=
  '(result, resultOffset) ← st;
  let paddedChunk := padEnd chunk (ceil4 (length chunk)) in
  chunkBytes ← atob paddedChunk;
  result' ← set_at result chunkBytes resultOffset;
  Some (result', (resultOffset + length chunkBytes)%nat).

Definition base64ToUint8ArrayChunked (base64 : list ascii)
    : option (list Z) :=
  let totalLength := (length base64 / 4 * 3)%nat in
  let result := replicate totalLength 0%Z in
  fst <$> foldl chunk_step (Some (result, 0%nat))
                (slices chunkSize (length base64) base64).

(** The single-pass decode: [atob] and the copy loop over
    [charCodeAt]. *)
Definition single_pass (paddedBase64 : list ascii) : option (list Z) :=
  atob paddedBase64.

(** [base64ToUint8Array]; [None] is the final
    ['All base64 conversion methods failed']. *)
Definition base64ToUint8Array (base64 : list ascii) : option (list Z) :=
  let cleanBase64 := filter (fun c => is_space c = false) base64 in
  let paddedBase64 := padEnd cleanBase64 (ceil4 (length cleanBase64)) in
  match (if (1000000 <? Z.of_nat (length paddedBase64))%Z
         then base64ToUint8ArrayChunked paddedBase64
         else single_pass paddedBase64) with
  | Some bytes => Some bytes
  | None => utf8_encode <$> atob paddedBase64
  end.

Definition isPdfHeader (bytes : list Z) : bool :=
  (4 <=? length bytes)%nat
  && match bytes with
     | b0 :: b1 :: b2 :: b3 :: _ =>
         (b0 =? 0x25)%Z && (b1 =? 0x50)%Z && (b2 =? 0x44)%Z && (b3 =? 0x46)%Z
     | _ => false
     end.

(** ** Loading a document

    The two [fetch] calls are inputs.  An exception is a value of
    [LoadError]; each constructor stands for one [throw] of the source,
    carrying the data its message interpolates. *)

Inductive LoadError :=
| FetchRejected                                 (* fetch / json / blob rejected *)
| FailedToFetchDocument (status : Z) (statusText : string)
| InvalidResponseFormat
| ServerRejected (error : option string)        (* 'Server: ...' *)
| MissingBase64
| FileTooLarge (file_size : Z)
| InvalidBase64Format
| ConversionFailed
| NotAValidPdf                                  (* 'Received data is not a valid PDF file' *)
| FailedToDownload (status : Z) (statusText : string)
| DownloadedNotAValidPdf.                       (* 'Downloaded file is not a valid PDF' *)

Inductive Result (A : Type) :=
| Ok (a : A)
| Throw (e : LoadError).
Arguments Ok {A} a.
Arguments Throw {A} e.

(** The JSON body of [GET /documents/{id}/view]. *)
Record ViewData := mkViewData {
  vd_use_download : bool;
  vd_error : option string;
  vd_base64 : option string;
  vd_file_size : option Z;
  vd_mimetype : option string
}.

Record ViewResponse := mkViewResponse {
  vr_ok : bool;
  vr_status : Z;
  vr_statusText : string;
  vr_contentType : option string;
  vr_json : option ViewData                     (* [None]: [response.json()] rejects *)
}.

Record DownloadResponse := mkDownloadResponse {
  dr_ok : bool;
  dr_status : Z;
  dr_statusText : string;
  dr_bytes : option (list Z)                    (* [None]: [blob()]/[arrayBuffer()] rejects *)
}.

(** usePdfViewer.ts *)
Record PdfDocument := mkPdfDocument {
  pdf_id : string;
  pdf_title : string;
  pdf_filename : string;
  pdf_base64Data : list Z;
  pdf_mimetype : string
}.

Record Viewer := mkViewer {
  currentPdf : option PdfDocument;
  isViewerOpen : bool
}.

Definition openPdf (document : PdfDocument) (v : Viewer) : Viewer :=
  {| currentPdf := Some document; isViewerOpen := true |}.

Definition opt_includes (needle : string) (o : option string) : bool :=
  match o with
  | Some s => Js.truthy s && includes (chars needle) (chars s)
  | None => false
  end.

(** The [pdfDocument] object both paths build. *)
Definition pdfDocument (sourceData : SearchResult) (bytes : list Z)
    (mimetype : string) : PdfDocument :=
  let document := sr_document sourceData in
  {| pdf_id := doc_id document;
     pdf_title := Js.or_else (Some (doc_title document)) (doc_filename document);
     pdf_filename := doc_filename document;
     pdf_base64Data := bytes;
     pdf_mimetype := mimetype |}.

(** The part of [loadDocumentViaBase64] that follows the conversion:
    header check, document object, [openPdf]. *)
Definition open_converted (sourceData : SearchResult) (data : ViewData)
    (bytes : list Z) (v : Viewer) : Result Viewer :=
  if (length bytes <? 4)%nat || negb (isPdfHeader bytes)
  then Throw NotAValidPdf
  else Ok (openPdf (pdfDocument sourceData bytes
                      (Js.or_else (vd_mimetype data) "application/pdf")) v).

Definition loadDocumentViaBase64 (sourceData : SearchResult)
    (fetched : option ViewResponse) (v : Viewer) : Result Viewer :=
  match fetched with
  | None => Throw FetchRejected
  | Some response =>
      if negb (vr_ok response)
      then Throw (FailedToFetchDocument (vr_status response)
                                        (vr_statusText response))
      else if negb (opt_includes "application/json" (vr_contentType response))
      then Throw InvalidResponseFormat
      else match vr_json response with
      | None => Throw FetchRejected
      | Some data =>
          if vd_use_download data || opt_includes "too large" (vd_error data)
          then Throw (ServerRejected (vd_error data))
          else if Js.falsy_opt (vd_base64 data)
          then Throw MissingBase64
          else if (1048576 <? default 0%Z (vd_file_size data))%Z
          then Throw (FileTooLarge (default 0%Z (vd_file_size data)))
          else
            let base64 := chars (default "" (vd_base64 data)) in
            if negb (isValidBase64 base64)
            then Throw InvalidBase64Format
            else match base64ToUint8Array base64 with
                 | None => Throw ConversionFailed
                 | Some bytes => open_converted sourceData data bytes v
                 end
      end
  end.

Definition loadDocumentViaDownload (sourceData : SearchResult)
    (fetched : option DownloadResponse) (v : Viewer) : Result Viewer :=
  match fetched with
  | None => Throw FetchRejected
  | Some response =>
      if negb (dr_ok response)
      then Throw (FailedToDownload (dr_status response)
                                   (dr_statusText response))
      else match dr_bytes response with
      | None => Throw FetchRejected
      | Some bytes =>
          if (length bytes <? 4)%nat || negb (isPdfHeader bytes)
          then Throw DownloadedNotAValidPdf
          else Ok (openPdf (pdfDocument sourceData bytes "application/pdf") v)
      end
  end.

(** What the server answers for one document: [/view] and [/download]. *)
Record Served := mkServed {
  served_view : option ViewResponse;
  served_download : option DownloadResponse
}.

(** [loadDocumentForSource]: it returns normally in every case; the
    second component is the [alert] it raised, if any. *)
Definition loadDocumentForSource (sourceData : SearchResult)
    (net : Served) (v : Viewer) : Viewer * option LoadError :=
  match loadDocumentViaBase64 sourceData (served_view net) v with
  | Ok v' => (v', None)
  | Throw _ =>
      match loadDocumentViaDownload sourceData (served_download net) v with
      | Ok v' => (v', None)
      | Throw error => (v, Some error)
      end
  end.

(** ** Citation binding *)

Record Pane := mkPane {
  highlightText : string;
  highlightPage : Z;
  viewer : Viewer
}.

(** [documentMap]: a [Map] from document id to the results of that
    document; a [Map] iterates in insertion order of its keys. *)
Fixpoint map_push (k : string) (result : SearchResult)
    (m : list (string * list SearchResult)) : list (string * list SearchResult) :=
  match m with
  | [] => [(k, [result])]
  | (k', g) :: m' =>
      if String.eqb k' k then (k', g ++ [result]) :: m'
      else (k', g) :: map_push k result m'
  end.

Definition documentMap (searchResults : list SearchResult)
    : list (string * list SearchResult) :=
  foldl (fun m result => map_push (doc_id (sr_document result)) result m)
        [] searchResults.

Definition documentGroups (searchResults : list SearchResult)
    : list (list SearchResult) :=
  snd <$> documentMap searchResults.

(** [arr[i]] for a number [i]. *)
Definition at_index {A} (l : list A) (i : Z) : option A :=
  if (i <? 0)%Z then None else l !! Z.to_nat i.

Definition has_search_results (m : ChatMessage) : bool :=
  match msg_searchResults m with
  | Some (_ :: _) => true
  | _ => false
  end.

(** [x || 1] for an optional number. *)
Definition page_or_1 (p : option Z) : Z :=
  match p with
  | Some n => if (n =? 0)%Z then 1%Z else n
  | None => 1%Z
  end.

(** [handleDocumentLinkClick(docIndex)] on the messages of the current
    conversation; [net] answers the fetches for a document id. *)
Definition handleDocumentLinkClick (docIndex : Z)
    (messages : option (list ChatMessage)) (net : string -> Served)
    (p : Pane) : Pane * option LoadError :=
  match messages ≫= Js.find has_search_results with
  | Some currentMessage =>
      let groups := documentGroups (default [] (msg_searchResults currentMessage)) in
      match at_index groups (docIndex - 1) with
      | Some (sourceData :: _) =>
          let '(v, alert) :=
            loadDocumentForSource sourceData
              (net (doc_id (sr_document sourceData))) (viewer p) in
          ({| highlightText := sr_text sourceData;
              highlightPage := page_or_1 (sr_page sourceData);
              viewer := v |}, alert)
      | _ => (p, None)
      end
  | None => (p, None)
  end.

(** [result.page && result.page > 0 ? result.page : 1], the page
    computation of [handleSearchResultPdfOpen] and
    [handleCitationPdfOpen]. *)
Definition targetPage (p : option Z) : Z :=
  match p with
  | Some n => if (0 <? n)%Z then n else 1%Z
  | None => 1%Z
  end.

Definition handleSearchResultPdfOpen (result : SearchResult)
    (net : string -> Served) (p : Pane) : Pane * option LoadError :=
  let '(v, alert) :=
    loadDocumentForSource result (net (doc_id (sr_document result)))
                          (viewer p) in
  ({| highlightText := sr_text result;
      highlightPage := targetPage (sr_page result);
      viewer := v |}, alert).

(** ** Observations and scenarios *)

(** The requirements the inline path puts on the answer of [/view]
    before it looks at the decoded bytes. *)
Definition inline_decodes (response : ViewResponse) (data : ViewData)
    (bytes : list Z) : Prop :=
  vr_ok response = true
  /\ opt_includes "application/json" (vr_contentType response) = true
  /\ vr_json response = Some data
  /\ vd_use_download data || opt_includes "too large" (vd_error data) = false
  /\ Js.falsy_opt (vd_base64 data) = false
  /\ (1048576 <? default 0%Z (vd_file_size data))%Z = false
  /\ isValidBase64 (chars (default "" (vd_base64 data))) = true
  /\ base64ToUint8Array (chars (default "" (vd_base64 data))) = Some bytes.

(** The shape of the strings [isValidBase64] accepts: base64 digits
    followed by at most two [=]. *)
Definition digits (x : list ascii) : Prop :=
  Forall (fun c => is_base64_char c = true) x.

Definition padding (pad : list ascii) : Prop :=
  pad = [] \/ pad = ["="%char] \/ pad = ["="%char; "="%char].

Definition digit_values (x : list ascii) : list Z :=
  (fun c => default 0%Z (b64_value c)) <$> x.

(** The number of [=] in a string. *)
Definition pad_count (s : list ascii) : nat :=
  length (filter (fun c => is_pad c = true) s).

(** A valid base64 string of 1,000,004 characters that ends in two
    padding characters. *)
Definition long_padded_input : list ascii :=
  replicate (Z.to_nat 1000000) "A"%char ++ chars "QQ==".

Definition paper : DocumentRef :=
  {| doc_id := "doc-1"; doc_title := "Attention Is All You Need";
     doc_filename := "attention.pdf"; doc_authors := None;
     doc_year := Some 2017%Z |}.

Definition result_on_page (p : option Z) : SearchResult :=
  {| sr_paragraph_id := "par-1"; sr_text := "scaled dot-product attention";
     sr_page := p; sr_section_path := None; sr_document := paper |}.

Definition answer_with (results : list SearchResult) : ChatMessage :=
  {| msg_id := "msg-1000-assistant"; msg_role := assistant;
     msg_content := "See [1, P. 3]"; msg_htmlContent := None;
     msg_timestamp := 1000; msg_model := None;
     msg_searchResults := Some results;
     msg_formattedCitations := Some []; msg_citations := Some [];
     msg_contextUsed := Some true |}.

(** [/view] answering with the inline bytes [%PDF-1.4]. *)
Definition view_of (base64 : string) : ViewResponse :=
  {| vr_ok := true; vr_status := 200; vr_statusText := "OK";
     vr_contentType := Some "application/json";
     vr_json := Some {| vd_use_download := false; vd_error := None;
                        vd_base64 := Some base64;
                        vd_file_size := Some 8%Z;
                        vd_mimetype := Some "application/pdf" |} |}.

Definition download_of (bytes : list Z) : DownloadResponse :=
  {| dr_ok := true; dr_status := 200; dr_statusText := "OK";
     dr_bytes := Some bytes |}.

Definition serving (base64 : string) (bytes : list Z) : Served :=
  {| served_view := Some (view_of base64);
     served_download := Some (download_of bytes) |}.

Definition closed_pane : Pane :=
  {| highlightText := ""; highlightPage := 0;
     viewer := {| currentPdf := None; isViewerOpen := false |} |}.

(** ** The remaining handlers *)

(** usePdfViewer.ts: [closePdf] and [isPdfLoaded]. *)
Definition closePdf (v : Viewer) : Viewer :=
  {| currentPdf := None; isViewerOpen := false |}.

Definition isPdfLoaded (v : Viewer) : bool :=
  match currentPdf v with
  | Some _ => isViewerOpen v
  | None => false
  end.

(** [handleClosePdfViewer] *)
Definition handleClosePdfViewer (p : Pane) : Pane :=
  {| highlightText := ""; highlightPage := 0; viewer := closePdf (viewer p) |}.

(** The predicate of the [find] in [handleCitationPdfOpen]: an assistant
    message with non-empty [formattedCitations] and [searchResults]. *)
Definition has_citations_and_results (m : ChatMessage) : bool :=
  Role_eqb (msg_role m) assistant
  && match msg_formattedCitations m, msg_searchResults m with
     | Some (_ :: _), Some (_ :: _) => true
     | _, _ => false
     end.

(** [handleCitationPdfOpen(citation)] *)
Definition handleCitationPdfOpen (citation : FormattedCitation)
    (messages : option (list ChatMessage)) (net : string -> Served)
    (p : Pane) : Pane * option LoadError :=
  match messages ≫= Js.find has_citations_and_results with
  | Some currentMessage =>
      match at_index (default [] (msg_searchResults currentMessage))
                     (fc_index citation - 1) with
      | Some searchResult =>
          let '(v, alert) :=
            loadDocumentForSource searchResult
              (net (doc_id (sr_document searchResult))) (viewer p) in
          ({| highlightText :=
                Js.or_else (Some (sr_text searchResult))
                           (Js.or_else (Some (fc_snippet citation)) "");
              highlightPage := targetPage (sr_page searchResult);
              viewer := v |}, alert)
      | None => (p, None)
      end
  | None => (p, None)
  end.

(** ** The grouped list of sources (SearchResults component)

    [groupedResults] builds the same [documentMap] and turns every entry
    into a group; [results[0].document] throws on an empty group, which
    is [None] here. *)

Record DocGroup := mkDocGroup {
  dg_document : DocumentRef;
  dg_results : list SearchResult;
  dg_pages : list Z;
  dg_docIndex : nat
}.

(** [[...new Set(l)]]: the distinct elements in the order they are first
    seen. *)
Definition distinct `{EqDecision A} (l : list A) : list A :=
  foldl (fun seen x => if decide (x ∈ seen) then seen else seen ++ [x]) [] l.

(** [results.map(r => r.page).filter(p => p !== undefined)], made
    distinct and sorted with the comparator [a - b].  A page is a number
    or absent, as the interface declares it ([page?: number]). *)
Definition pages_of (results : list SearchResult) : list Z :=
  ChatStore.stable_sort (fun a b => (a <=? b)%Z)
    (distinct (omap sr_page results)).

(** One step of [documentMap.forEach] on the pair [(groups, docIndex)]. *)
Definition push_group (st : option (list DocGroup * nat))
    (results : list SearchResult) : option (list DocGroup * nat) :=
  '(groups, docIndex) ← st;
  first ← head results;
  Some (groups ++ [{| dg_document := sr_document first;
                      dg_results := results;
                      dg_pages := pages_of results;
                      dg_docIndex := docIndex |}], S docIndex).

Definition groupedResults (searchResults : option (list SearchResult))
    : option (list DocGroup) :=
  match searchResults with
  | None => Some []
  | Some results =>
      fst <$> foldl push_group (Some ([], 1%nat)) (documentGroups results)
  end.

(** The loop of [getGlobalIndex]:
    [for (let i = 1; i < docIndex; i++)], from [i] on, [fuel] rounds. *)
Fixpoint earlier_results (groups : list DocGroup) (i fuel : nat) : nat :=
  match fuel with
  | O => 0%nat
  | S fuel' =>
      match Js.find (fun g => (dg_docIndex g =? i)%nat) groups with
      | Some group => length (dg_results group)
      | None => 0%nat
      end + earlier_results groups (S i) fuel'
  end.

(** [getGlobalIndex(docIndex, resultIndex)] *)
Definition getGlobalIndex (groups : list DocGroup) (docIndex resultIndex : nat)
    : nat :=
  (earlier_results groups 1 (docIndex - 1) + resultIndex + 1)%nat.

(** [TEXT_TRUNCATE_LENGTH] and [getTruncatedText]; [expanded] is
    [isTextExpanded(result.paragraph_id)]. *)
Definition TEXT_TRUNCATE_LENGTH : nat := 100.

Definition getTruncatedText (expanded : bool) (result : SearchResult)
    : string :=
  if expanded then sr_text result
  else if (TEXT_TRUNCATE_LENGTH <? String.length (sr_text result))%nat
       then substring 0 TEXT_TRUNCATE_LENGTH (sr_text result)
       else sr_text result.

(** The document ids of a list of results, in order. *)
Definition document_ids (results : list SearchResult) : list string :=
  (fun r => doc_id (sr_document r)) <$> results.

(** A strictly increasing list of page numbers. *)
Fixpoint ascending (l : list Z) : Prop :=
  match l with
  | [] => True
  | a :: l' => Forall (fun b => (a < b)%Z) l' /\ ascending l'
  end.

(** Results of two documents, the first document cited twice. *)
Definition bert : DocumentRef :=
  {| doc_id := "doc-2"; doc_title := "BERT";
     doc_filename := "bert.pdf"; doc_authors := None;
     doc_year := Some 2019%Z |}.

Definition result_in (document : DocumentRef) (text : string) (p : option Z)
    : SearchResult :=
  {| sr_paragraph_id := "par-" +:+ text; sr_text := text;
     sr_page := p; sr_section_path := None; sr_document := document |}.

Definition mixed_results : list SearchResult :=
  [ result_in paper "multi-head attention" (Some 5%Z);
    result_in bert "masked language model" (Some 2%Z);
    result_in paper "positional encoding" (Some (-1)%Z) ].

Definition citation_number (n : Z) : FormattedCitation :=
  {| fc_index := n; fc_title := "Attention Is All You Need";
     fc_url := "https://arxiv.org/abs/1706.03762"; fc_date := "";
     fc_snippet := "attention"; fc_last_updated := "" |}.

(** An internet-mode answer: citations and results. *)
Definition cited_answer (results : list SearchResult) : ChatMessage :=
  {| msg_id := "msg-2000-assistant"; msg_role := assistant;
     msg_content := "See [1]"; msg_htmlContent := None;
     msg_timestamp := 2000; msg_model := None;
     msg_searchResults := Some results;
     msg_formattedCitations := Some [citation_number 1];
     msg_citations := Some []; msg_contextUsed := Some true |}.

End ChatPane.

(* ===================================================================== *)
(** * The PDF viewer component (the page it shows)

    The component [PdfViewer] that ChatPane.vue imports from the
    pdfViewer feature.  It receives [pdfData], [highlightText] and
    [highlightPage] from the chat pane and keeps the page it renders in
    [currentPage].
    Only the watchers and the function that write [currentPage] while a
    document is opened are embedded; the buttons of the navigation bar,
    the zoom and the geometry of the highlight are left out. *)
(* ===================================================================== *)

Module PdfViewer.

(** The props the page depends on. *)
Record Props := mkProps {
  pdfData : option (list Z);
  highlightText : string;
  highlightPage : option Z
}.

(** [currentPage = ref(1)], [totalPages = ref(0)] *)
Record State := mkState {
  currentPage : Z;
  totalPages : Z
}.


Definition set_currentPage (n : Z) (st : State) : State :=
  {| currentPage := n; totalPages := totalPages st |}.

(** [highlightPage && highlightPage > 0]: the page, when the test
    passes. *)
Definition positive_page (highlightPage : option Z) : option Z :=
  match highlightPage with
  | Some n => if (n =? 0)%Z then None
              else if (0 <? n)%Z then Some n else None
  | None => None
  end.

(** [watch(() => props.pdfData, ...)] *)
Definition on_pdfData (props : Props) (st : State) : State :=
  match pdfData props with
  | Some _ => {| currentPage := 1; totalPages := 0 |}
  | None => st
  end.

(** [watch(pages, ...)] *)
Definition on_pages (newPages : Z) (st : State) : State :=
  {| currentPage := currentPage st; totalPages := newPages |}.

(** [watch(pdf, ...)], the watcher that scrolls to the target page, for
    a loaded document ([newPdf] is an object). *)
Definition on_pdf (props : Props) (st : State) : State :=
  match positive_page (highlightPage props) with
  | Some n => set_currentPage n st
  | None => st
  end.

(** [findAndHighlightText(searchText, targetPage)] on a loaded
    document, as far as [currentPage] goes: nothing without a search
    text; [reads] tells whether [getPage] and [getTextContent] succeed,
    and both branches that follow set the page. *)
Definition findAndHighlightText (searchText : string) (targetPage : Z)
    (reads : bool) (st : State) : State :=
  if negb (Js.truthy searchText) then st
  else if reads then set_currentPage targetPage st
  else st.

(** A timer set by one of the two watchers of the highlight: both are
    set only under [highlightPage && highlightPage > 0] and a non-empty
    text, and call [findAndHighlightText] with that text and page. *)
Definition on_timer (props : Props) (reads : bool) (st : State) : State :=
  match positive_page (highlightPage props) with
  | Some n =>
      if Js.truthy (highlightText props)
      then findAndHighlightText (highlightText props) n reads st
      else st
  | None => st
  end.

(** [watch(() => props.isVisible, ...)].  The chat pane renders the
    component under [v-if="isPdfViewerOpen"] and binds [isVisible] to
    the same flag, so there the prop does not change while the
    component lives. *)
Definition on_isVisible (visible : bool) (props : Props) (st : State)
    : State :=
  if visible && bool_decide (is_Some (pdfData props))
  then set_currentPage 1 st else st.

(** What happens in the component. *)
Inductive Event :=
| DataChanged                      (* [props.pdfData] has changed *)
| PagesKnown (newPages : Z)        (* [pages] of [usePDF] has changed *)
| PdfReady                         (* [pdf] of [usePDF] holds the document *)
| Timer (reads : bool)             (* a highlight timer fires *)
| VisibleChanged (visible : bool). (* [props.isVisible] has changed *)

Definition step (props : Props) (st : State) (ev : Event) : State :=
  match ev with
  | DataChanged => on_pdfData props st
  | PagesKnown newPages => on_pages newPages st
  | PdfReady => on_pdf props st
  | Timer reads => on_timer props reads st
  | VisibleChanged visible => on_isVisible visible props st
  end.

Definition run (props : Props) (evs : list Event) (st : State) : State :=
  foldl (step props) st evs.




End PdfViewer.

(* ===================================================================== *)
(** * BibTeX parser (BibParser.ts) and formatter (papers.tsx) *)
(* ===================================================================== *)

Module Bib.

Import Regex.

Definition chars (s : string) : list ascii := list_ascii_of_string s.
Definition str (l : list ascii) : string := string_of_list_ascii l.

(** The line feed of the template literals. *)
Definition nl : string := String (ascii_of_nat 10) EmptyString.

(** [toLowerCase] on the letters A-Z. *)
Definition lower_char (c : ascii) : ascii :=
  if is_upper c then ascii_of_N (code c + 32) else c.

Definition toLowerCase (l : list ascii) : list ascii := lower_char <$> l.

Fixpoint drop_spaces (l : list ascii) : list ascii :=
  match l with
  | c :: l' => if is_space c then drop_spaces l' else l
  | [] => []
  end.

(** [trim] *)
Definition trim (l : list ascii) : list ascii :=
  reverse (drop_spaces (reverse (drop_spaces l))).

(** ** BibParser.ts *)

(** [/@(\w+)\s*{\s*([^,]+),([^@]+)}/g] *)
Definition entryRegex : list Item :=
  [ one (is_char "@"); group (plus is_word); star is_space;
    one (is_char "{"); star is_space; group (plus (not_char ","));
    one (is_char ","); group (plus (not_char "@")); one (is_char "}") ].

(** [/(\w+)\s*=\s*{([^}]+)}/g] *)
Definition fieldRegex : list Item :=
  [ group (plus is_word); star is_space; one (is_char "=");
    star is_space; one (is_char "{"); group (plus (not_char "}"));
    one (is_char "}") ].

(** The inner loop: [fields[key.toLowerCase()] = value.trim()]. *)
Definition add_field (fields : gmap string string)
    (fieldMatch : list (list ascii)) : gmap string string :=
  match fieldMatch with
  | [key; value] => <[str (toLowerCase key) := str (trim value)]> fields
  | _ => fields
  end.

Definition parse_fields (content : list ascii) : gmap string string :=
  foldl add_field ∅ (exec_all fieldRegex content).

(** The outer loop:
    [entries[id] = { ...fields, id, type: type.toLowerCase() }]. *)
Definition add_entry (entries : gmap string (gmap string string))
    (m : list (list ascii)) : gmap string (gmap string string) :=
  match m with
  | [type; id; content] =>
      <[str id := <["type" := str (toLowerCase type)]>
                    (<["id" := str id]> (parse_fields content))]> entries
  | _ => entries
  end.

Definition parseBibTeX (bibtex : string) : gmap string (gmap string string) :=
  foldl add_entry ∅ (exec_all entryRegex (chars bibtex)).

(** ** papers.tsx *)

Record Paper := mkPaper {
  paper_id : string;
  paper_title : string;
  paper_authors : string;
  paper_year : Z;
  paper_journal : option string;
  paper_abstract : string;
  paper_category : string;
  paper_url : option string;
  paper_doi : option string;
  paper_arxiv : option string;
  paper_pdf : option string;
  paper_citations : option Z
}.

(** [s.split(sep)] for a non-empty separator; [skip] counts the
    characters still covered by the separator just found, [cur] is the
    piece being collected. *)
Fixpoint split_at (sep : list ascii) (skip : nat) (cur s : list ascii)
    : list (list ascii) :=
  match s with
  | [] => [cur]
  | c :: s' =>
      match skip with
      | S k => split_at sep k cur s'
      | O => if Js.starts_with sep s
             then cur :: split_at sep (length sep - 1) [] s'
             else split_at sep 0 (cur ++ [c]) s'
      end
  end.

Definition split (sep s : list ascii) : list (list ascii) :=
  split_at sep 0 [] s.

(** [pieces.join(sep)] *)
Fixpoint join (sep : list ascii) (pieces : list (list ascii)) : list ascii :=
  match pieces with
  | [] => []
  | [x] => x
  | x :: rest => x ++ sep ++ join sep rest
  end.

(** A truthy optional string, or nothing. *)
Definition present (o : option string) : option string :=
  match o with
  | Some s => if Js.truthy s then Some s else None
  | None => None
  end.

(** [`  key = {value},\n`] *)
Definition field_line (key value : string) : string :=
  "  " +:+ key +:+ " = {" +:+ value +:+ "}," +:+ nl.

Definition when_present (o : option string) (f : string -> string) : string :=
  match present o with
  | Some s => f s
  | None => ""
  end.

(** [paper.authors.split(', ').join(' and ')] *)
Definition author_list (paper : Paper) : string :=
  str (join (chars " and ") (split (chars ", ") (chars (paper_authors paper)))).

(** [paper.journal ? 'article' : 'misc'] *)
Definition entry_type (paper : Paper) : string :=
  match present (paper_journal paper) with
  | Some _ => "article"
  | None => "misc"
  end.

Definition generateBibTeX (paper : Paper) : string :=
  "@" +:+ entry_type paper +:+ "{" +:+ paper_id paper +:+ "," +:+ nl
  +:+ field_line "author" (author_list paper)
  +:+ field_line "title" (paper_title paper)
  +:+ field_line "year" (Js.num_to_string (paper_year paper))
  +:+ when_present (paper_journal paper) (field_line "journal")
  +:+ when_present (paper_doi paper) (field_line "doi")
  +:+ when_present (paper_arxiv paper)
        (fun arxiv => field_line "eprint" arxiv
                      +:+ field_line "archivePrefix" "arXiv")
  +:+ when_present (paper_url paper) (field_line "url")
  +:+ "}".

(** Modelled from the spec: the round trip of the testable properties
    feeds the fields of a parsed record to the formatter.  The sources
    have no conversion from a parsed entry to the formatter's [Paper];
    this one matches the fields by name ([author] to [authors] with the
    separator the formatter splits on, [eprint] to [arxiv], [year] read
    as a decimal number). *)
Definition paper_of_entry (e : gmap string string) : Paper :=
  {| paper_id := default "" (e !! "id");
     paper_title := default "" (e !! "title");
     paper_authors :=
       str (join (chars ", ")
                 (split (chars " and ") (chars (default "" (e !! "author")))));
     paper_year :=
       default 0%Z (Z.of_int <$> (e !! "year" ≫= NilZero.int_of_string));
     paper_journal := e !! "journal";
     paper_abstract := "";
     paper_category := "";
     paper_url := e !! "url";
     paper_doi := e !! "doi";
     paper_arxiv := e !! "eprint";
     paper_pdf := None;
     paper_citations := None |}.

(** ** Observations *)

(** The fields [generateBibTeX] writes for a paper, in its order. *)
Definition optional_field (key : string) (o : option string)
    : list (string * string) :=
  match present o with
  | Some v => [(key, v)]
  | None => []
  end.

Definition emitted (paper : Paper) : list (string * string) :=
  [ ("author", author_list paper);
    ("title", paper_title paper);
    ("year", Js.num_to_string (paper_year paper)) ]
  ++ optional_field "journal" (paper_journal paper)
  ++ optional_field "doi" (paper_doi paper)
  ++ match present (paper_arxiv paper) with
     | Some arxiv => [("eprint", arxiv); ("archivePrefix", "arXiv")]
     | None => []
     end
  ++ optional_field "url" (paper_url paper).

(** The entry under which the parser files the written fields: keys in
    lower case, values trimmed, then [id] and [type]. *)
Definition store_field (fields : gmap string string) (kv : string * string)
    : gmap string string :=
  <[str (toLowerCase (chars (fst kv))) := str (trim (chars (snd kv)))]> fields.

Definition parsed_as (paper : Paper) : gmap string string :=
  <["type" := entry_type paper]>
    (<["id" := paper_id paper]> (foldl store_field ∅ (emitted paper))).

(** A value that survives the two expressions of the parser: not empty
    and free of the closing brace and of the at sign. *)
Definition clean (v : string) : Prop :=
  chars v <> []
  /\ Forall (fun c => c <> "}"%char /\ c <> "@"%char) (chars v).

(** An id that [/{\s*([^,]+),/] captures whole. *)
Definition plain_id (i : string) : Prop :=
  match chars i with
  | c :: _ => is_space c = false
  | [] => False
  end
  /\ Forall (fun c => c <> ","%char) (chars i).

(** Keys and values as the field expression reads them. *)
Definition is_key (key : list ascii) : Prop :=
  key <> [] /\ Forall (fun c => is_word c = true) key.

Definition is_value (value : list ascii) : Prop :=
  value <> [] /\ Forall (fun c => not_char "}" c = true) value.

(** The characters of one written line and of a list of lines. *)
Definition line (kv : string * string) : list ascii :=
  chars (field_line (fst kv) (snd kv)).

Definition lines (l : list (string * string)) : list ascii :=
  concat (line <$> l).

Definition well_formed (paper : Paper) : Prop :=
  plain_id (paper_id paper)
  /\ Forall (fun kv => clean (snd kv)) (emitted paper).

(** [well_formed] as a test. *)
Definition clean_b (v : string) : bool :=
  match chars v with
  | [] => false
  | l => forallb (fun c => not_char "}" c && not_char "@" c) l
  end.

Definition plain_id_b (i : string) : bool :=
  match chars i with
  | c :: _ => negb (is_space c) && forallb (not_char ",") (chars i)
  | [] => false
  end.

Definition well_formed_b (paper : Paper) : bool :=
  plain_id_b (paper_id paper)
  && forallb (fun kv => clean_b (snd kv)) (emitted paper).

(** The record [DocsCryptoIntroduction] of the documentation site,
    shortened to five of its fields. *)
Definition crypto_record : string :=
  "@article{cryptography," +:+ nl
  +:+ "    title = {Advances in quantum cryptography}," +:+ nl
  +:+ "    volume = {12}," +:+ nl
  +:+ "    DOI = {10.1364/aop.361502}," +:+ nl
  +:+ "    author = {Pirandola, S. and Andersen, U. L.}," +:+ nl
  +:+ "    year = {2020}" +:+ nl
  +:+ "}".

Definition deep_learning : Paper :=
  {| paper_id := "deep-learning-nature";
     paper_title := "Deep Learning";
     paper_authors := "Yann LeCun, Yoshua Bengio, Geoffrey Hinton";
     paper_year := 2015;
     paper_journal := Some "Nature";
     paper_abstract := "";
     paper_category := "ml";
     paper_url := Some "https://www.nature.com/articles/nature14539";
     paper_doi := None;
     paper_arxiv := None;
     paper_pdf := None;
     paper_citations := None |}.

(** The field names of an entry, [id] and [type] apart. *)
Definition field_set (e : gmap string string) : gset string :=
  dom e ∖ {["id"; "type"]}.

(** ** The other citation styles (papers.tsx) *)

(** The double quote of the template literals. *)
Definition quote : string := String (ascii_of_nat 34) EmptyString.

(** [paper.authors.split(', ')] *)
Definition authors_of (paper : Paper) : list (list ascii) :=
  split (chars ", ") (chars (paper_authors paper)).

(** [authors[authors.length - 1]] and [authors[0]], [undefined] printed by
    the template literal as the text [undefined]. *)
Definition printed (o : option (list ascii)) : string :=
  match o with
  | Some a => str a
  | None => "undefined"
  end.

Definition generateAPA (paper : Paper) : string :=
  let authors := authors_of paper in
  let formattedAuthors :=
    if (7 <? length authors)%nat
    then str (join (chars ", ") (take 6 authors)) +:+ ", ... "
         +:+ printed (last authors)
    else str (join (chars ", ") authors) in
  formattedAuthors +:+ " (" +:+ Js.num_to_string (paper_year paper) +:+ "). "
  +:+ paper_title paper +:+ ". "
  +:+ when_present (paper_journal paper) (fun journal => journal +:+ ". ")
  +:+ match present (paper_doi paper) with
      | Some doi => "https://doi.org/" +:+ doi
      | None => when_present (paper_url paper) (fun url => url)
      end.

(** [authors.length > 1 ? `${firstAuthor}, et al.` : firstAuthor] *)
Definition first_author_et_al (paper : Paper) : string :=
  let authors := authors_of paper in
  if (1 <? length authors)%nat
  then printed (head authors) +:+ ", et al."
  else printed (head authors).

Definition generateMLA (paper : Paper) : string :=
  first_author_et_al paper +:+ " " +:+ quote +:+ paper_title paper +:+ "."
  +:+ quote +:+ " "
  +:+ when_present (paper_journal paper) (fun journal => journal +:+ ", ")
  +:+ Js.num_to_string (paper_year paper) +:+ ". "
  +:+ when_present (paper_url paper) (fun url => "<" +:+ url +:+ ">").

Definition generateChicago (paper : Paper) : string :=
  first_author_et_al paper +:+ ". " +:+ quote +:+ paper_title paper +:+ "."
  +:+ quote +:+ " "
  +:+ when_present (paper_journal paper) (fun journal => journal +:+ " ")
  +:+ "(" +:+ Js.num_to_string (paper_year paper) +:+ ")"
  +:+ match present (paper_doi paper) with
      | Some doi => ". https://doi.org/" +:+ doi
      | None => when_present (paper_url paper) (fun url => ". " +:+ url)
      end.

Inductive CitationFormat := bibtex | apa | mla | chicago.

Definition getCitation (paper : Paper) (format : CitationFormat) : string :=
  match format with
  | bibtex => generateBibTeX paper
  | apa => generateAPA paper
  | mla => generateMLA paper
  | chicago => generateChicago paper
  end.

(** ** In-text citations (Citation.tsx) *)

(** [formatAuthorDisplay(authorString)] *)
Definition formatAuthorDisplay (authorString : string) : string :=
  let authors :=
    split (chars ", ")
          (join (chars ", ") (split (chars " and ") (chars authorString))) in
  if (length authors <=? 2)%nat then authorString
  else
    let firstAuthor :=
      last (split (chars " ") (trim (default [] (head authors)))) in
    printed firstAuthor +:+ " et al.".

(** [prev.some(item => item.id === id)] *)
Definition cited (i : string) (prev : list (gmap string string)) : bool :=
  existsb (fun item => bool_decide (item !! "id" = Some i)) prev.

(** [addCitation(id, reference)]: the new item is
    [{ id, ...reference }], in which the fields of [reference] come
    last. *)
Definition addCitation (i : string) (reference : gmap string string)
    (prev : list (gmap string string)) : list (gmap string string) :=
  if cited i prev then prev else prev ++ [reference ∪ {["id" := i]}].

(** The effect of one [<Citation id=... />]: nothing when the id is not
    among the references. *)
Definition cite (references : gmap string (gmap string string))
    (prev : list (gmap string string)) (i : string)
    : list (gmap string string) :=
  match references !! i with
  | Some citation => addCitation i citation prev
  | None => prev
  end.

(** ** Further observations *)

(** [piece] occurs in [s] from some position on. *)
Fixpoint occurs (piece s : list ascii) : bool :=
  Js.starts_with piece s
  || match s with
     | [] => false
     | _ :: s' => occurs piece s'
     end.

(** The captures of a match fit the capturing items of the expression,
    one for one: each consists of characters of the class of its item
    and has at least the minimal length. *)
Fixpoint captures_fit (items : list Item) (caps : list (list ascii)) : Prop :=
  match items with
  | [] => caps = []
  | it :: rest =>
      if it_capture it
      then match caps with
           | cap :: caps' =>
               Forall (fun c => it_class it c = true) cap
               /\ (it_min it <= length cap)%nat
               /\ captures_fit rest caps'
           | [] => False
           end
      else captures_fit rest caps
  end.

(** An entry as the parser files it under the key [k]. *)
Definition filed_under (k : string) (e : gmap string string) : Prop :=
  e !! "id" = Some k
  /\ k <> ""
  /\ Forall (fun c => c <> ","%char) (chars k)
  /\ exists t, e !! "type" = Some t
               /\ t <> ""
               /\ Forall (fun c => is_word c = true /\ is_upper c = false)
                         (chars t).

(** The paper of the documentation site with eight authors. *)
Definition attention : Paper :=
  {| paper_id := "attentionisallyouneed";
     paper_title := "Attention Is All You Need";
     paper_authors :=
       "Ashish Vaswani, Noam Shazeer, Niki Parmar, Jakob Uszkoreit, "
       +:+ "Llion Jones, Aidan N. Gomez, Lukasz Kaiser, Illia Polosukhin";
     paper_year := 2017;
     paper_journal := None;
     paper_abstract := "";
     paper_category := "ml";
     paper_url := Some "https://arxiv.org/abs/1706.03762";
     paper_doi := None;
     paper_arxiv := Some "1706.03762";
     paper_pdf := None;
     paper_citations := None |}.

(** ** Records within the reach of the formatter *)




(** Records that leave the reach of the formatter in one respect each:
    no year; an [eprint] without [archivePrefix]; a blank journal. *)
Definition undated_record : string :=
  "@misc{notes," +:+ nl
  +:+ "  title = {Lecture notes}," +:+ nl
  +:+ "  author = {Pirandola, S.}" +:+ nl
  +:+ "}".

Definition preprint_record : string :=
  "@misc{vaswani2017," +:+ nl
  +:+ "  title = {Attention Is All You Need}," +:+ nl
  +:+ "  author = {Vaswani, Ashish and Shazeer, Noam}," +:+ nl
  +:+ "  year = {2017}," +:+ nl
  +:+ "  eprint = {1706.03762}" +:+ nl
  +:+ "}".

Definition blank_journal_record : string :=
  "@article{draft," +:+ nl
  +:+ "  title = {A draft}," +:+ nl
  +:+ "  author = {Andersen, U. L.}," +:+ nl
  +:+ "  year = {2020}," +:+ nl
  +:+ "  journal = { }" +:+ nl
  +:+ "}".

End Bib.

(* ===================================================================== *)
(** * Properties of the conversation store *)
(* ===================================================================== *)

Import ChatStore.


Section StoreFacts.

Implicit Types (s : Store) (c : ChatConversation).

Lemma listed_lookup s r c :
  (r, c) ∈ listed s -> heap s !! r = Some c.
Proof.
  unfold listed. rewrite list_elem_of_omap.
  intros (r' & _ & H). destruct (heap s !! r') eqn:E; simpl in H; [|discriminate].
  injection H as <- <-. exact E.
Qed.

Lemma omap_relisted (h : list ChatConversation) (l : list (nat * ChatConversation)) :
  (forall r c, (r, c) ∈ l -> h !! r = Some c) ->
  omap (fun r => (fun c => (r, c)) <$> h !! r) (fst <$> l) = l.
Proof.
  induction l as [|[r c] l IH]; intros H; simpl; [reflexivity|].
  rewrite (H r c) by (left). simpl. f_equal. apply IH.
  intros r' c' Hin. apply H. right. exact Hin.
Qed.

Lemma listed_after_push s (kept : list (nat * ChatConversation)) c cur :
  (forall r c', (r, c') ∈ kept -> heap s !! r = Some c') ->
  listed (set_current cur
            (set_conversations ((fst <$> kept) ++ [length (heap s)])
               (set_heap (heap s ++ [c]) s)))
  = kept ++ [(length (heap s), c)].
Proof.
  intros H. unfold listed. simpl. rewrite omap_app. f_equal.
  - apply omap_relisted. intros r c' Hin.
    apply lookup_app_l_Some. apply H. exact Hin.
  - simpl. rewrite lookup_app_r by lia. rewrite Nat.sub_diag. reflexivity.
Qed.

Lemma filter_all {A} (P : A -> Prop) `{forall x, Decision (P x)} (l : list A) :
  (forall x, x ∈ l -> P x) -> filter P l = l.
Proof.
  induction l as [|x l IH]; intros Hall; [reflexivity|].
  rewrite filter_cons_True by (apply Hall; left).
  f_equal. apply IH. intros y Hy. apply Hall. right. exact Hy.
Qed.

Lemma filter_none {A} (P : A -> Prop) `{forall x, Decision (P x)} (l : list A) :
  (forall x, x ∈ l -> ~ P x) -> filter P l = [].
Proof.
  induction l as [|x l IH]; intros Hall; [reflexivity|].
  rewrite filter_cons_False by (apply Hall; left).
  apply IH. intros y Hy. apply Hall. right. exact Hy.
Qed.

Lemma filter_fmap_snd (P : ChatConversation -> Prop) `{forall x, Decision (P x)}
    (l : list (nat * ChatConversation)) :
  filter P (snd <$> l) = snd <$> filter (fun rc => P (snd rc)) l.
Proof.
  induction l as [|rc l IH]; [reflexivity|].
  rewrite fmap_cons, !filter_cons. simpl.
  destruct (decide (P rc.2)); simpl; rewrite IH; reflexivity.
Qed.

Lemma listed_create_temporary title e s :
  listed (fst (createNewConversation title true e s))
  = filter (fun rc => keep_on_cleanup (currentConversationId s) (snd rc) = true) (listed s)
    ++ [(length (heap s), new_conversation title true e s)].
Proof.
  unfold createNewConversation, cleanup. simpl.
  apply listed_after_push.
  intros r c Hin. apply list_elem_of_filter in Hin as [_ Hin].
  apply listed_lookup. exact Hin.
Qed.

Lemma temporary_nil s :
  temporary_conversations s = [] ->
  forall rc, rc ∈ listed s -> conv_isTemporary (snd rc) = false.
Proof.
  unfold temporary_conversations. intros Hnone rc Hin.
  destruct (conv_isTemporary (snd rc)) eqn:E; [|reflexivity].
  assert (snd rc ∈ filter (fun c => conv_isTemporary c = true) (snd <$> listed s)) as Hx.
  { apply list_elem_of_filter. split; [exact E|]. apply list_elem_of_fmap. eauto. }
  rewrite Hnone in Hx. inversion Hx.
Qed.

End StoreFacts.

(** C3 (as amended).  Creating a temporary conversation prunes the empty
    temporary conversations except the one that is current: the listed
    conversations afterwards are those the clean-up filter keeps (not
    temporary, or with messages, or carrying the current id) followed by the
    new one.  Hence two temporary creations in a row, from a store without
    temporary conversations, leave exactly two temporary conversations: the
    first is current when the second is created. *)
Theorem create_temporary_spares_current s t1 e1 t2 e2 :
  let s1 := fst (createNewConversation t1 true e1 s) in
  let s2 := fst (createNewConversation t2 true e2 s1) in
  (snd <$> listed s1
   = filter (fun c => keep_on_cleanup (currentConversationId s) c = true) (snd <$> listed s)
     ++ [new_conversation t1 true e1 s])
  /\ (temporary_conversations s = [] ->
      temporary_conversations s2
      = [new_conversation t1 true e1 s; new_conversation t2 true e2 s1]).
Proof.
  intros s1 s2. split.
  - unfold s1. rewrite listed_create_temporary, fmap_app.
    rewrite (filter_fmap_snd (fun c => keep_on_cleanup (currentConversationId s) c = true)).
    reflexivity.
  - intros Hnone. pose proof (temporary_nil s Hnone) as Hperm.
    unfold temporary_conversations, s2.
    rewrite listed_create_temporary.
    assert (listed s1 = listed s ++ [(length (heap s), new_conversation t1 true e1 s)]) as ->.
    { unfold s1. rewrite listed_create_temporary. f_equal.
      apply filter_all. intros rc Hin. unfold keep_on_cleanup.
      rewrite (Hperm rc Hin). reflexivity. }
    assert (currentConversationId s1 = Some (conversation_id e1)) as -> by reflexivity.
    assert (filter (fun rc : nat * ChatConversation =>
                      keep_on_cleanup (Some (conversation_id e1)) rc.2 = true)
                   (listed s ++ [(length (heap s), new_conversation t1 true e1 s)])
            = listed s ++ [(length (heap s), new_conversation t1 true e1 s)]) as ->.
    { apply filter_all. intros rc Hin. apply elem_of_app in Hin as [Hin|Hin].
      - unfold keep_on_cleanup. rewrite (Hperm rc Hin). reflexivity.
      - apply list_elem_of_singleton in Hin as ->. unfold keep_on_cleanup. simpl.
        rewrite String.eqb_refl. reflexivity. }
    rewrite !fmap_app, !filter_app. simpl.
    rewrite (filter_none _ (snd <$> listed s)).
    2:{ intros c Hin. apply list_elem_of_fmap in Hin as (rc & -> & Hin).
        rewrite (Hperm rc Hin). discriminate. }
    reflexivity.
Qed.


(** Two temporary creations on the initial store. *)
Lemma create_temporary_spares_current_witness :
  temporary_conversations initial = []
  /\ length (temporary_conversations
       (fst (createNewConversation None true (create_env 2000 "bbbbbbbbb")
          (fst (createNewConversation None true (create_env 1000 "aaaaaaaaa") initial))))) = 2%nat.
Proof.
  split; [reflexivity|].
  rewrite (proj2 (create_temporary_spares_current initial None (create_env 1000 "aaaaaaaaa") None (create_env 2000 "bbbbbbbbb"))); reflexivity.
Defined.

(** C3, as stated, fails: two temporary creations on the initial store
    leave two temporary conversations, not one. *)
Lemma create_temporary_twice_leaves_two :
  ~ (forall s t1 e1 t2 e2,
       length (temporary_conversations
         (fst (createNewConversation t2 true e2
            (fst (createNewConversation t1 true e1 s))))) = 1%nat).
Proof.
  intros H. specialize (H initial None (create_env 1000 "aaaaaaaaa") None (create_env 2000 "bbbbbbbbb")).
  vm_compute in H. discriminate H.
Qed.


Lemma findIndex_lookup {A} (p : A -> bool) (l : list A) i :
  Js.findIndex p l = Some i -> exists x, l !! i = Some x /\ p x = true.
Proof.
  revert i. induction l as [|x l IH]; intros i H; simpl in H; [discriminate|].
  destruct (p x) eqn:E.
  - injection H as <-. exists x. split; [reflexivity | exact E].
  - destruct (Js.findIndex p l) as [j|]; simpl in H; [|discriminate].
    injection H as <-. apply (IH j eq_refl).
Qed.

Lemma listed_set_conversations s (l : list (nat * ChatConversation)) :
  (forall rc, rc ∈ l -> rc ∈ listed s) ->
  listed (set_conversations (fst <$> l) s) = l.
Proof.
  intros H. unfold listed. simpl. apply omap_relisted.
  intros r c Hin. apply listed_lookup. apply H. exact Hin.
Qed.

Lemma elem_of_delete {A} (l : list A) i x : x ∈ delete i l -> x ∈ l.
Proof.
  revert i. induction l as [|y l IH]; intros [|i] H; simpl in H.
  - inversion H.
  - inversion H.
  - right. exact H.
  - apply elem_of_cons in H as [->|H]; [left | right; eapply IH; exact H].
Qed.

(** C7 (as amended).  [deleteConversation(id)] removes the first listed
    conversation with that id and does nothing for an unknown id; if the
    deleted id was the current one, the current conversation becomes the
    first remaining conversation in the order of the array, or none when the
    array is empty; otherwise the current id is unchanged. *)
Theorem deleteConversation_selects_first_remaining (i : string) (s : Store) :
  match Js.findIndex (has_id i) (listed s) with
  | Some index =>
      listed (deleteConversation i s) = delete index (listed s)
      /\ currentConversationId (deleteConversation i s)
         = (if bool_decide (currentConversationId s = Some i)
            then (fun rc => conv_id (snd rc)) <$> head (delete index (listed s))
            else currentConversationId s)
  | None => deleteConversation i s = s
  end.
Proof.
  unfold deleteConversation.
  destruct (Js.findIndex (has_id i) (listed s)) as [index|]; [|reflexivity].
  assert (forall cur, listed (set_current cur
             (set_conversations (fst <$> delete index (listed s)) s))
          = delete index (listed s)) as Hcur.
  { intros cur. apply (listed_set_conversations s). apply elem_of_delete. }
  destruct (currentConversationId s) as [cur|] eqn:Ecur.
  - destruct (String.eqb cur i) eqn:E.
    + apply String.eqb_eq in E as ->. rewrite bool_decide_eq_true_2 by reflexivity.
      split; [apply Hcur|]. simpl. destruct (delete index (listed s)); reflexivity.
    + rewrite bool_decide_eq_false_2.
      2:{ intros [= ->]. rewrite String.eqb_refl in E. discriminate. }
      split; [|simpl; exact Ecur].
      apply listed_set_conversations, elem_of_delete.
  - rewrite bool_decide_eq_false_2 by discriminate.
    split; [|simpl; exact Ecur].
    apply listed_set_conversations, elem_of_delete.
Qed.

(** C7, as stated, fails: after deleting the current conversation the
    store selects the first of the array, which need not be the most
    recently updated one. *)
Lemma delete_current_selects_oldest :
  ~ (forall i s,
       currentConversationId s = Some i ->
       currentConversationId (deleteConversation i s)
       = conv_id <$> head (sortedConversations (deleteConversation i s))).
Proof.
  intros H.
  specialize (H "chat-3000-ccccccccc" three_conversations eq_refl).
  vm_compute in H. discriminate H.
Qed.

Example delete_current_example :
  currentConversationId (deleteConversation "chat-3000-ccccccccc" three_conversations)
  = Some "chat-1000-aaaaaaaaa"
  /\ conv_id <$> head (sortedConversations
                         (deleteConversation "chat-3000-ccccccccc" three_conversations))
     = Some "chat-2000-bbbbbbbbb".
Proof. split; vm_compute; reflexivity. Qed.

(** C4 (as amended).  Every chat request carries the fixed timeout of two
    minutes (120000 ms).  When the request is rejected, the error slot is
    left as it is if the rejection is named [AbortError] or has the code
    [ECONNABORTED], and is set to the text of the rejection otherwise; the
    rejection of an elapsed timeout has the code [ECONNABORTED] and is
    therefore swallowed like a cancellation. *)
Theorem timeout_is_swallowed_like_cancellation :
  (forall content e s,
      match snd (sendMessage_start content e s) with
      | Some k => req_timeout (call_request k) = (2 * 60 * 1000)%Z
      | None => True
      end)
  /\ (forall k err env s,
        error (sendMessage_resume k (Rejected err) env s)
        = if is_cancellation err then error s else Some (error_text err))
  /\ (forall ms, is_cancellation (timeout_rejection ms) = true).
Proof.
  split; [|split].
  - intros content e s. unfold sendMessage_start.
    destruct (currentConversation _) as [[r conversation]|]; simpl; reflexivity.
  - intros k err env s. unfold sendMessage_resume, catch_block.
    destruct (is_cancellation err); unfold finally_block; simpl; reflexivity.
  - intros ms. reflexivity.
Qed.


(** C4, as stated, fails: after a send on the initial store, the rejection
    of the elapsed timeout leaves the error slot empty. *)
Lemma timeout_sets_no_error :
  ~ (forall content e s s1 k env,
       sendMessage_start content e s = (s1, Some k) ->
       error (sendMessage_resume k (Rejected (timeout_rejection (req_timeout (call_request k)))) env s1)
       <> None).
Proof.
  intros H.
  destruct (sendMessage_start "hello" (send_env 1000 "aaaaaaaaa") initial) as [s1 [k|]] eqn:E;
    [|vm_compute in E; discriminate E].
  apply (H _ _ _ _ k (mkResumeEnv 2000 2000) E).
  injection E as <- <-. vm_compute. reflexivity.
Qed.


(** ** Message ids *)

Lemma chars_append (a b : string) :
  list_ascii_of_string (a +:+ b) = list_ascii_of_string a ++ list_ascii_of_string b.
Proof. induction a as [|c a IH]; simpl; [reflexivity | rewrite IH; reflexivity]. Qed.

Lemma starts_with_app (p rest : list ascii) : Js.starts_with p (p ++ rest) = true.
Proof.
  induction p as [|c p IH]; simpl; [reflexivity|].
  rewrite Ascii.eqb_refl. exact IH.
Qed.

Lemma ends_with_append (a suf : string) : Js.ends_with suf (a +:+ suf) = true.
Proof.
  unfold Js.ends_with. rewrite chars_append, rev_app_distr. apply starts_with_app.
Qed.

Lemma placeholder_id_is_placeholder e :
  is_placeholder_id (msg_id (placeholderMessage e)) = true.
Proof.
  unfold is_placeholder_id. simpl.
  change ("msg-" +:+ Js.num_to_string (se_placeholderNow e) +:+ "-assistant-placeholder")
    with (("msg-" +:+ Js.num_to_string (se_placeholderNow e)) +:+ "-assistant-placeholder").
  apply ends_with_append.
Qed.

Lemma user_id_is_not_placeholder content e :
  is_placeholder_id (msg_id (userMessage content e)) = false.
Proof.
  unfold is_placeholder_id, Js.ends_with. simpl msg_id.
  change ("msg-" +:+ Js.num_to_string (se_userNow e) +:+ "-user")
    with (("msg-" +:+ Js.num_to_string (se_userNow e)) +:+ "-user").
  rewrite chars_append, rev_app_distr. reflexivity.
Qed.

Lemma assistant_id_is_not_placeholder b e :
  is_placeholder_id (msg_id (assistantMessage b e)) = false.
Proof.
  unfold is_placeholder_id, Js.ends_with. simpl msg_id.
  change ("msg-" +:+ Js.num_to_string (re_now e) +:+ "-assistant")
    with (("msg-" +:+ Js.num_to_string (re_now e)) +:+ "-assistant").
  rewrite chars_append, rev_app_distr. reflexivity.
Qed.

(** ** Messages of a conversation object under the actions *)

Lemma find_elem_of {A} (p : A -> bool) (l : list A) x :
  Js.find p l = Some x -> x ∈ l /\ p x = true.
Proof.
  induction l as [|y l IH]; simpl; [discriminate|].
  destruct (p y) eqn:E.
  - intros [= <-]. split; [left | exact E].
  - intros H. destruct (IH H) as [Hin Hp]. split; [right; exact Hin | exact Hp].
Qed.

Lemma currentConversation_lookup s r c :
  currentConversation s = Some (r, c) -> heap s !! r = Some c.
Proof.
  unfold currentConversation, find_conversation.
  destruct (Js.falsy_opt _); [discriminate|].
  destruct (currentConversationId s); [|discriminate].
  intros H. apply find_elem_of in H as [H _]. apply listed_lookup. exact H.
Qed.

Lemma messages_of_create title t e s r :
  messages_of r (fst (createNewConversation title t e s)) = messages_of r s.
Proof.
  unfold messages_of, createNewConversation. simpl.
  destruct (decide (r < length (heap s))) as [Hlt|Hge].
  - rewrite lookup_app_l by exact Hlt. reflexivity.
  - rewrite (lookup_ge_None_2 (heap s)) by lia.
    destruct (decide (r = length (heap s))) as [->|Hne].
    + rewrite lookup_app_r by lia. rewrite Nat.sub_diag. reflexivity.
    + rewrite lookup_ge_None_2; [reflexivity|]. rewrite length_app. simpl. lia.
Qed.

Lemma messages_of_update r r0 f s :
  messages_of r (update_conversation r0 f s)
  = if decide (r = r0)
    then match heap s !! r with
         | Some c => conv_messages (f c)
         | None => []
         end
    else messages_of r s.
Proof.
  unfold messages_of, update_conversation. simpl.
  destruct (decide (r = r0)) as [->|Hne].
  - rewrite list_lookup_alter_eq. destruct (heap s !! r0); reflexivity.
  - rewrite list_lookup_alter_ne by congruence. reflexivity.
Qed.

Lemma start_messages content e s s1 k :
  sendMessage_start content e s = (s1, Some k) ->
  call_placeholderId k = msg_id (placeholderMessage e)
  /\ forall r,
       messages_of r s1
       = if decide (r = call_conversation k)
         then messages_of r s ++ [userMessage content e; placeholderMessage e]
         else messages_of r s.
Proof.
  unfold sendMessage_start.
  set (s0 := if Js.falsy_opt (currentConversationId s) then _ else s).
  assert (forall r, messages_of r s0 = messages_of r s) as Hs0.
  { intros r. unfold s0. destruct (Js.falsy_opt _); [apply messages_of_create | reflexivity]. }
  destruct (currentConversation s0) as [[r0 conversation]|] eqn:Ecur; [|discriminate].
  apply currentConversation_lookup in Ecur.
  intros [= <- <-]. simpl. split; [reflexivity|].
  intros r. unfold messages_of at 1. simpl.
  destruct (decide (r = r0)) as [->|Hne].
  - rewrite list_lookup_insert_eq by (eapply lookup_lt_Some; exact Ecur).
    rewrite <- Hs0. unfold messages_of. rewrite Ecur.
    destruct (_ =? 1)%nat; simpl; rewrite <- app_assoc; reflexivity.
  - rewrite list_lookup_insert_ne by congruence. apply Hs0.
Qed.

Lemma start_messages_none content e s s1 r :
  sendMessage_start content e s = (s1, None) ->
  messages_of r s1 = messages_of r s.
Proof.
  unfold sendMessage_start.
  set (s0 := if Js.falsy_opt (currentConversationId s) then _ else s).
  assert (messages_of r s0 = messages_of r s) as Hs0.
  { unfold s0. destruct (Js.falsy_opt _); [apply messages_of_create | reflexivity]. }
  destruct (currentConversation s0) as [[r0 conversation]|]; [discriminate|].
  intros [= <-]. exact Hs0.
Qed.

Lemma resume_messages k o e s r c :
  heap s !! call_conversation k = Some c ->
  messages_of r (sendMessage_resume k o e s)
  = if decide (r = call_conversation k)
    then settled_messages k o e s (conv_messages c)
    else messages_of r s.
Proof.
  intros Hc.
  assert (forall err,
            messages_of r (catch_block k err s)
            = if decide (r = call_conversation k)
              then remove_placeholder (call_placeholderId k) (conv_messages c)
              else messages_of r s) as Hcatch.
  { intros err. unfold catch_block.
    destruct (is_cancellation err);
      (transitivity (messages_of r (update_conversation (call_conversation k)
           (fun c0 => set_messages (remove_placeholder (call_placeholderId k) (conv_messages c0)) c0) s));
       [reflexivity|]);
      rewrite messages_of_update; destruct (decide (r = call_conversation k)) as [->|];
      try rewrite Hc; reflexivity. }
  unfold sendMessage_resume, settled_messages.
  destruct o as [data|err].
  - destruct (negb _).
    + unfold messages_of. simpl.
      destruct (decide (r = call_conversation k)) as [->|]; [rewrite Hc|]; reflexivity.
    + destruct data as [body|err].
      * transitivity (messages_of r (update_conversation (call_conversation k)
           (fun c0 => set_updatedAt (re_updatedAt e) (set_messages
              (remove_placeholder (call_placeholderId k) (conv_messages c0)
               ++ [assistantMessage body e]) c0)) s)); [reflexivity|].
        rewrite messages_of_update. destruct (decide (r = call_conversation k)) as [->|];
          try rewrite Hc; reflexivity.
      * apply Hcatch.
  - apply Hcatch.
Qed.

(** ** Removing the placeholder *)

Lemma remove_placeholder_keeps pid msgs m :
  m ∈ msgs -> msg_id m <> pid -> m ∈ remove_placeholder pid msgs.
Proof.
  intros Hin Hne. unfold remove_placeholder.
  destruct (Js.findIndex (has_msg_id pid) msgs) as [i|] eqn:E; [|exact Hin].
  apply findIndex_lookup in E as (x & Hx & Hp).
  unfold has_msg_id in Hp. apply String.eqb_eq in Hp.
  apply list_elem_of_lookup in Hin as [j Hj].
  destruct (decide (j < i)) as [Hlt|Hge].
  - apply list_elem_of_lookup. exists j. rewrite list_lookup_delete_lt by exact Hlt. exact Hj.
  - destruct (decide (j = i)) as [->|Hne'].
    + rewrite Hx in Hj. injection Hj as ->. contradiction.
    + apply list_elem_of_lookup. exists (pred j).
      rewrite list_lookup_delete_ge by lia.
      replace (S (pred j)) with j by lia. exact Hj.
Qed.

Lemma remove_placeholder_subset pid msgs m :
  m ∈ remove_placeholder pid msgs -> m ∈ msgs.
Proof.
  unfold remove_placeholder.
  destruct (Js.findIndex (has_msg_id pid) msgs); [apply elem_of_delete | tauto].
Qed.

Lemma remove_placeholder_cons_ne pid m msgs :
  msg_id m <> pid ->
  remove_placeholder pid (m :: msgs) = m :: remove_placeholder pid msgs.
Proof.
  intros Hne. unfold remove_placeholder. simpl. unfold has_msg_id at 1.
  destruct (String.eqb (msg_id m) pid) eqn:E; [apply String.eqb_eq in E; contradiction|].
  destruct (Js.findIndex (has_msg_id pid) msgs); reflexivity.
Qed.

Lemma remove_placeholder_cons_eq pid m msgs :
  msg_id m = pid -> remove_placeholder pid (m :: msgs) = msgs.
Proof.
  intros Heq. unfold remove_placeholder. simpl. unfold has_msg_id at 1.
  rewrite Heq, String.eqb_refl. reflexivity.
Qed.

Lemma remove_placeholder_fresh pid msgs tail :
  Forall (fun m => msg_id m <> pid) msgs ->
  remove_placeholder pid (msgs ++ tail) = msgs ++ remove_placeholder pid tail.
Proof.
  induction 1 as [|m msgs Hm _ IH]; [reflexivity|].
  simpl. rewrite remove_placeholder_cons_ne by exact Hm. rewrite IH. reflexivity.
Qed.

(** ** Frame: what no event removes *)

Lemma fire_keeps_calls ev w w' :
  calls_hold_placeholders (inflight w) -> fire ev w = Some w' ->
  calls_hold_placeholders (inflight w').
Proof.
  unfold calls_hold_placeholders. intros Hwf.
  destruct ev; simpl.
  - destruct (sendMessage_start content e (store w)) as [s1 [k|]] eqn:E;
      intros [= <-]; simpl.
    + apply Forall_app. split; [exact Hwf|]. constructor; [|constructor].
      apply start_messages in E as [-> _]. apply placeholder_id_is_placeholder.
    + rewrite app_nil_r. exact Hwf.
  - destruct (inflight w !! i) as [k|]; [|discriminate].
    destruct (deliverable _ _ _); [|discriminate].
    intros [= <-]. simpl. apply Forall_forall. intros k' Hin.
    apply elem_of_delete in Hin. revert k' Hin. apply Forall_forall. exact Hwf.
  - intros [= <-]. exact Hwf.
  - intros [= <-]. exact Hwf.
  - intros [= <-]. exact Hwf.
  - intros [= <-]. exact Hwf.
  - intros [= <-]. exact Hwf.
Qed.

Lemma messages_of_heap r s s' : heap s' = heap s -> messages_of r s' = messages_of r s.
Proof. unfold messages_of. intros ->. reflexivity. Qed.

Lemma heap_select i s : heap (selectConversation i s) = heap s.
Proof. unfold selectConversation. destruct (find_conversation i s) as [[? ?]|]; reflexivity. Qed.

Lemma heap_delete i s : heap (deleteConversation i s) = heap s.
Proof.
  unfold deleteConversation. destruct (Js.findIndex _ _); [|reflexivity].
  destruct (match currentConversationId s with Some _ => _ | None => _ end); reflexivity.
Qed.

Lemma fire_keeps_message ev w w' r m :
  calls_hold_placeholders (inflight w) -> fire ev w = Some w' ->
  m ∈ messages_of r (store w) -> is_placeholder_id (msg_id m) = false ->
  m ∈ messages_of r (store w').
Proof.
  intros Hwf Hfire Hin Hm. destruct ev; unfold fire in Hfire.
  - destruct (sendMessage_start content e (store w)) as [s1 [k|]] eqn:E;
      injection Hfire as <-; cbn [store inflight].
    + apply start_messages in E as [_ E]. rewrite E.
      destruct (decide (r = call_conversation k)); [|exact Hin].
      apply elem_of_app. left. exact Hin.
    + rewrite (start_messages_none _ _ _ _ r E). exact Hin.
  - destruct (inflight w !! i) as [k|] eqn:Ek; [|discriminate].
    destruct (deliverable _ _ _); [|discriminate].
    injection Hfire as <-. cbn [store inflight].
    destruct (decide (r = call_conversation k)) as [->|Hne].
    + unfold messages_of in Hin.
      destruct (heap (store w) !! call_conversation k) as [c|] eqn:Ec; [|inversion Hin].
      rewrite (resume_messages _ _ _ _ _ c Ec), decide_True by reflexivity.
      assert (msg_id m <> call_placeholderId k) as Hne.
      { intros Heq. unfold calls_hold_placeholders in Hwf.
        rewrite Forall_forall in Hwf.
        assert (k ∈ inflight w) as Hk by (apply list_elem_of_lookup; eauto).
        specialize (Hwf k Hk). rewrite <- Heq in Hwf. congruence. }
      unfold settled_messages. destruct o as [data|err].
      * destruct (negb _); [exact Hin|]. destruct data as [body|err].
        -- apply elem_of_app. left. apply remove_placeholder_keeps; assumption.
        -- apply remove_placeholder_keeps; assumption.
      * apply remove_placeholder_keeps; assumption.
    + unfold messages_of in *.
      assert (heap (sendMessage_resume k o e (store w)) !! r = heap (store w) !! r) as ->; [|exact Hin].
      unfold sendMessage_resume, catch_block.
      destruct o as [data|err]; [destruct (negb _); [reflexivity|destruct data]|];
        try destruct (is_cancellation _); simpl;
        rewrite list_lookup_alter_ne by congruence; reflexivity.
  - injection Hfire as <-. exact Hin.
  - injection Hfire as <-.
    rewrite <- (messages_of_create title isTemporary e (store w) r) in Hin. exact Hin.
  - injection Hfire as <-.
    rewrite <- (messages_of_heap r _ _ (heap_select i (store w))) in Hin. exact Hin.
  - injection Hfire as <-.
    rewrite <- (messages_of_heap r _ _ (heap_delete i (store w))) in Hin. exact Hin.
  - injection Hfire as <-. exact Hin.
Qed.

Lemma run_keeps_message evs : forall w w' r m,
  calls_hold_placeholders (inflight w) -> run evs w = Some w' ->
  m ∈ messages_of r (store w) -> is_placeholder_id (msg_id m) = false ->
  m ∈ messages_of r (store w').
Proof.
  induction evs as [|ev evs IH]; intros w w' r m Hwf Hrun Hin Hm; simpl in Hrun.
  - injection Hrun as <-. exact Hin.
  - destruct (fire ev w) as [w1|] eqn:E; [|discriminate].
    apply (IH w1 w' r m); [eapply fire_keeps_calls; eassumption | exact Hrun | | exact Hm].
    eapply fire_keeps_message; eassumption.
Qed.

(** C10.  The user message that [sendMessage] appends stays in the message
    list of its conversation whatever happens afterwards (replies,
    failures, timeouts, cancellations, further sends, other actions of the
    store); a rejected request adds no message to the conversation; and a
    send that is rejected, on a conversation holding no message with the id
    of its placeholder, leaves exactly the earlier messages followed by the
    user message. *)
Theorem user_message_survives_every_outcome :
  (forall content e s s1 k ks evs w,
      calls_hold_placeholders ks ->
      sendMessage_start content e s = (s1, Some k) ->
      run evs {| store := s1; inflight := ks ++ [k] |} = Some w ->
      userMessage content e ∈ messages_of (call_conversation k) (store w))
  /\ (forall k err env s m,
        m ∈ messages_of (call_conversation k) (sendMessage_resume k (Rejected err) env s)
        -> m ∈ messages_of (call_conversation k) s)
  /\ (forall content e s s1 k err env,
        sendMessage_start content e s = (s1, Some k) ->
        Forall (fun m => msg_id m <> msg_id (placeholderMessage e))
               (messages_of (call_conversation k) s) ->
        messages_of (call_conversation k) (sendMessage_resume k (Rejected err) env s1)
        = messages_of (call_conversation k) s ++ [userMessage content e]).
Proof.
  split; [|split].
  - intros content e s s1 k ks evs w Hks Hstart Hrun.
    apply (run_keeps_message evs {| store := s1; inflight := ks ++ [k] |} w).
    + simpl. apply Forall_app. split; [exact Hks|]. constructor; [|constructor].
      apply start_messages in Hstart as [-> _]. apply placeholder_id_is_placeholder.
    + exact Hrun.
    + simpl. apply start_messages in Hstart as [_ ->].
      rewrite decide_True by reflexivity. apply elem_of_app. right. left.
    + apply user_id_is_not_placeholder.
  - intros k err env s m. unfold messages_of at 2.
    destruct (heap s !! call_conversation k) as [c|] eqn:Ec.
    + rewrite (resume_messages _ _ _ _ _ c Ec), decide_True by reflexivity.
      simpl. apply remove_placeholder_subset.
    + unfold messages_of, sendMessage_resume, catch_block.
      destruct (is_cancellation err); simpl;
        rewrite list_lookup_alter_eq, Ec; simpl; tauto.
  - intros content e s s1 k err env Hstart Hfresh.
    pose proof (start_messages _ _ _ _ _ Hstart) as [Hpid Hmsgs].
    specialize (Hmsgs (call_conversation k)). rewrite decide_True in Hmsgs by reflexivity.
    unfold messages_of in Hmsgs at 1.
    destruct (heap s1 !! call_conversation k) as [c|] eqn:Ec.
    2:{ destruct (messages_of (call_conversation k) s); discriminate Hmsgs. }
    rewrite (resume_messages _ _ _ _ _ c Ec), decide_True by reflexivity.
    simpl. rewrite Hmsgs, Hpid.
    rewrite remove_placeholder_fresh by exact Hfresh. f_equal.
    rewrite remove_placeholder_cons_ne, remove_placeholder_cons_eq; [reflexivity..|].
    intros Heq. pose proof (user_id_is_not_placeholder content e) as Hu.
    rewrite Heq, placeholder_id_is_placeholder in Hu. discriminate.
Qed.


(** ** The placeholders of a conversation and the calls suspended on it *)

Lemma placeholder_ids_app l1 l2 :
  placeholder_ids (l1 ++ l2) = placeholder_ids l1 ++ placeholder_ids l2.
Proof. unfold placeholder_ids. rewrite fmap_app, filter_app. reflexivity. Qed.

Lemma placeholder_ids_cons m l :
  placeholder_ids (m :: l)
  = if is_placeholder_id (msg_id m) then msg_id m :: placeholder_ids l
    else placeholder_ids l.
Proof.
  unfold placeholder_ids. rewrite fmap_cons, filter_cons.
  destruct (is_placeholder_id (msg_id m)) eqn:E.
  - rewrite decide_True by reflexivity. reflexivity.
  - rewrite decide_False by discriminate. reflexivity.
Qed.

Lemma placeholder_ids_elem pid l :
  pid ∈ placeholder_ids l -> is_placeholder_id pid = true.
Proof. unfold placeholder_ids. intros H. apply list_elem_of_filter in H as [H _]. exact H. Qed.

Lemma placeholder_ids_remove pid msgs :
  pid ∈ placeholder_ids msgs ->
  placeholder_ids msgs ≡ₚ pid :: placeholder_ids (remove_placeholder pid msgs).
Proof.
  intros Hin. pose proof (placeholder_ids_elem _ _ Hin) as Hpid.
  induction msgs as [|m msgs IH]; [inversion Hin|].
  destruct (decide (msg_id m = pid)) as [Heq|Hne].
  - rewrite remove_placeholder_cons_eq by exact Heq.
    rewrite placeholder_ids_cons, Heq, Hpid. reflexivity.
  - rewrite remove_placeholder_cons_ne by exact Hne.
    rewrite !placeholder_ids_cons in *.
    destruct (is_placeholder_id (msg_id m)).
    + apply elem_of_cons in Hin as [Heq|Hin]; [congruence|].
      rewrite (IH Hin) at 1. apply perm_swap.
    + apply IH. exact Hin.
Qed.

Lemma calls_on_app r ks1 ks2 : calls_on r (ks1 ++ ks2) = calls_on r ks1 ++ calls_on r ks2.
Proof. unfold calls_on. apply filter_app. Qed.

Lemma calls_on_delete r ks : forall i k,
  ks !! i = Some k ->
  if decide (call_conversation k = r)
  then calls_on r ks ≡ₚ k :: calls_on r (delete i ks)
  else calls_on r (delete i ks) = calls_on r ks.
Proof.
  unfold calls_on. induction ks as [|k0 ks IH]; intros i k Hk; [discriminate|].
  destruct i as [|i]; simpl in Hk.
  - injection Hk as ->. simpl. rewrite filter_cons.
    destruct (decide (call_conversation k = r)); reflexivity.
  - specialize (IH i k Hk). simpl. rewrite !filter_cons.
    destruct (decide (call_conversation k = r)); destruct (decide (call_conversation k0 = r)).
    + rewrite IH. apply perm_swap.
    + exact IH.
    + rewrite IH. reflexivity.
    + exact IH.
Qed.

Lemma tracks_same w w' :
  (forall r, messages_of r (store w') = messages_of r (store w)) ->
  inflight w' = inflight w -> tracks w -> tracks w'.
Proof. intros Hm Hi H r. rewrite Hm, Hi. apply H. Qed.

Lemma tracks_start : tracks start.
Proof.
  intros r. assert (messages_of r (store start) = []) as ->.
  { unfold messages_of. destruct r; reflexivity. }
  split; [reflexivity | constructor].
Qed.

Lemma placeholder_is_placeholder e : is_placeholder (placeholderMessage e) = true.
Proof. reflexivity. Qed.

Lemma tracked_call_has_conversation w i k :
  tracks w -> inflight w !! i = Some k ->
  call_placeholderId k ∈ placeholder_ids (messages_of (call_conversation k) (store w))
  /\ exists c, heap (store w) !! call_conversation k = Some c.
Proof.
  intros Ht Hk. destruct (Ht (call_conversation k)) as [Hperm _].
  assert (call_placeholderId k ∈ placeholder_ids (messages_of (call_conversation k) (store w))) as Hin.
  { rewrite Hperm. apply list_elem_of_fmap. exists k. split; [reflexivity|].
    unfold calls_on. apply list_elem_of_filter. split; [reflexivity|].
    apply list_elem_of_lookup. eauto. }
  split; [exact Hin|].
  unfold messages_of in Hin. destruct (heap (store w) !! call_conversation k) as [c|]; [eauto|].
  inversion Hin.
Qed.

Lemma fire_tracks ev w w' :
  tracks w -> stale_exit ev w = false -> fire ev w = Some w' -> tracks w'.
Proof.
  intros Ht Hstale Hfire. destruct ev; unfold fire in Hfire.
  - (* Send *)
    destruct (sendMessage_start content e (store w)) as [s1 [k|]] eqn:E;
      injection Hfire as <-.
    + apply start_messages in E as [Hpid E]. intros r. cbn [store inflight].
      rewrite E, calls_on_app. destruct (Ht r) as [Hperm Hlink].
      destruct (decide (r = call_conversation k)) as [->|Hne].
      * split.
        -- rewrite placeholder_ids_app, fmap_app, !placeholder_ids_cons.
           rewrite user_id_is_not_placeholder, placeholder_id_is_placeholder.
           apply Permutation_app; [exact Hperm|].
           unfold calls_on. rewrite filter_cons_True by reflexivity.
           rewrite filter_nil. simpl. rewrite Hpid. reflexivity.
        -- apply Forall_app. split; [exact Hlink|].
           constructor; [|constructor; [|constructor]].
           ++ rewrite user_id_is_not_placeholder. discriminate.
           ++ intros _. reflexivity.
      * split; [|exact Hlink].
        unfold calls_on at 2. rewrite filter_cons_False by congruence.
        rewrite filter_nil, app_nil_r. exact Hperm.
    + apply (tracks_same w); [|apply app_nil_r|exact Ht].
      intros r. apply (start_messages_none _ _ _ _ r E).
  - (* Settle *)
    destruct (inflight w !! i) as [k|] eqn:Ek; [|discriminate].
    destruct (deliverable _ _ _); [|discriminate].
    injection Hfire as <-.
    destruct (tracked_call_has_conversation w i k Ht Ek) as [Hin [c Hc]].
    unfold messages_of in Hin. rewrite Hc in Hin.
    assert (exists tail,
               settled_messages k o e (store w) (conv_messages c)
               = remove_placeholder (call_placeholderId k) (conv_messages c) ++ tail
               /\ Forall (fun m => is_placeholder_id (msg_id m) = false) tail)
      as (tail & Hsettled & Htail).
    { unfold settled_messages. unfold stale_exit in Hstale. rewrite Ek in Hstale.
      destruct o as [data|err].
      - rewrite Hstale. destruct data as [body|err].
        + eexists. split; [reflexivity|]. constructor; [|constructor].
          apply assistant_id_is_not_placeholder.
        + exists []. rewrite app_nil_r. split; [reflexivity | constructor].
      - exists []. rewrite app_nil_r. split; [reflexivity | constructor]. }
    intros r. cbn [store inflight].
    rewrite (resume_messages _ _ _ _ _ c Hc). destruct (Ht r) as [Hperm Hlink].
    pose proof (calls_on_delete r (inflight w) i k Ek) as Hdel.
    destruct (decide (r = call_conversation k)) as [->|Hne].
    + rewrite decide_True in Hdel by reflexivity.
      unfold messages_of in Hperm, Hlink. rewrite Hc in Hperm, Hlink.
      rewrite Hsettled. split.
      * rewrite placeholder_ids_app.
        assert (placeholder_ids tail = []) as ->.
        { clear -Htail. induction Htail as [|m tail Hm _ IH]; [reflexivity|].
          rewrite placeholder_ids_cons, Hm. exact IH. }
        rewrite app_nil_r.
        apply (Permutation_cons_inv (a := call_placeholderId k)).
        rewrite <- (placeholder_ids_remove _ _ Hin), Hperm, Hdel. reflexivity.
      * apply Forall_app. split.
        -- apply Forall_forall. intros m Hm. apply remove_placeholder_subset in Hm.
           rewrite Forall_forall in Hlink. apply Hlink. exact Hm.
        -- eapply Forall_impl; [exact Htail|]. simpl. intros m Hm Hm'. congruence.
    + rewrite decide_False in Hdel by congruence. rewrite Hdel. split; assumption.
  - injection Hfire as <-. apply (tracks_same w); [reflexivity..|exact Ht].
  - injection Hfire as <-. apply (tracks_same w); [|reflexivity|exact Ht].
    intros r. apply messages_of_create.
  - injection Hfire as <-. apply (tracks_same w); [|reflexivity|exact Ht].
    intros r. apply messages_of_heap, heap_select.
  - injection Hfire as <-. apply (tracks_same w); [|reflexivity|exact Ht].
    intros r. apply messages_of_heap, heap_delete.
  - injection Hfire as <-. apply (tracks_same w); [reflexivity..|exact Ht].
Qed.

(** C1 (as amended).  Start from a world in which the placeholders of every
    conversation are those of the calls suspended on it, and run any events
    in which no call leaves through the stale-request exit.  Then the same
    holds at the end: the messages carrying a placeholder id are, counted
    with multiplicity, the placeholders of the [sendMessage] calls on that
    conversation that have not resolved yet, and each of them is an
    assistant message with the sentinel content.  So a conversation holds
    as many placeholders as it has unresolved calls (two while a superseded
    call awaits its rejection), and the placeholder of a call is gone once
    the call has resolved. *)
Theorem placeholders_track_unresolved_calls evs : forall w0 w,
  tracks w0 -> run_clean evs w0 = Some w ->
  tracks w
  /\ forall r, length (placeholder_ids (messages_of r (store w)))
               = length (calls_on r (inflight w)).
Proof.
  induction evs as [|ev evs IH]; intros w0 w Ht Hrun; simpl in Hrun.
  - injection Hrun as <-. split; [exact Ht|].
    intros r. destruct (Ht r) as [Hperm _].
    rewrite (Permutation_length Hperm). apply length_fmap.
  - destruct (stale_exit ev w0) eqn:Hstale; [discriminate|].
    destruct (fire ev w0) as [w1|] eqn:Hfire; [|discriminate].
    apply (IH w1 w); [|exact Hrun]. eapply fire_tracks; eassumption.
Qed.

(** The invariant on the three overlapping sends. *)
Lemma placeholders_track_unresolved_calls_witness :
  tracks start
  /\ exists w, run_clean three_sends start = Some w
               /\ tracks w
               /\ forall r, length (placeholder_ids (messages_of r (store w)))
                            = length (calls_on r (inflight w)).
Proof.
  split; [apply tracks_start|].
  destruct (run_clean three_sends start) as [w|] eqn:E;
    [|vm_compute in E; discriminate E].
  exists w. split; [reflexivity|].
  exact (placeholders_track_unresolved_calls three_sends start w tracks_start E).
Defined.

(** C1, as stated, fails: after a second send, before the first request is
    settled, the conversation holds two placeholders. *)
Lemma two_placeholders_after_second_send :
  ~ (forall evs w r,
       run evs start = Some w ->
       (count_placeholders (messages_of r (store w)) <= 1)%nat).
Proof.
  intros H.
  destruct (run two_sends start) as [w|] eqn:E; [|vm_compute in E; discriminate E].
  specialize (H two_sends w 0%nat E).
  vm_compute in E. injection E as <-. vm_compute in H. lia.
Qed.

(** C2 (failing input).  Send a, send b (which aborts a), let the rejection
    of a be handled, send c: the [finally] block of a has removed the
    controller of b from the request queue, so c does not abort b and two
    requests of the same conversation are live; when both are answered,
    both replies are appended. *)
Theorem newer_controller_is_forgotten :
  (exists w, run three_sends start = Some w
             /\ requestQueue (store w) !! "chat-1000-aaaaaaaaa" = Some 2%nat
             /\ call_requestId <$> live_calls_on 0 w
                = ["req-2000-bbbbbbbbb"; "req-3000-ccccccccc"])
  /\ (exists w, run three_sends_answered start = Some w
                /\ (fun m => (msg_role m, msg_content m)) <$> messages_of 0 (store w)
                   = [(user, "a"); (user, "b"); (user, "c");
                      (assistant, "B"); (assistant, "C")]).
Proof.
  split.
  - destruct (run three_sends start) as [w|] eqn:E; [|vm_compute in E; discriminate E].
    exists w. split; [reflexivity|].
    vm_compute in E. injection E as <-. split; vm_compute; reflexivity.
  - destruct (run three_sends_answered start) as [w|] eqn:E;
      [|vm_compute in E; discriminate E].
    exists w. split; [reflexivity|].
    vm_compute in E. injection E as <-. vm_compute. reflexivity.
Qed.

(** A send on the initial store, followed by a second send and the
    rejection of the first request. *)
Lemma user_message_survives_every_outcome_witness :
  exists s1 k w,
    sendMessage_start "a" (send_env 1000 "aaaaaaaaa") initial = (s1, Some k)
    /\ run [Send "b" (send_env 2000 "bbbbbbbbb");
            Settle 0 (Rejected (timeout_rejection 120000)) (mkResumeEnv 3000 3000)]
           {| store := s1; inflight := [] ++ [k] |} = Some w
    /\ userMessage "a" (send_env 1000 "aaaaaaaaa")
       ∈ messages_of (call_conversation k) (store w)
    /\ messages_of (call_conversation k)
         (sendMessage_resume k (Rejected abort_rejection) (mkResumeEnv 3000 3000) s1)
       = messages_of (call_conversation k) initial
         ++ [userMessage "a" (send_env 1000 "aaaaaaaaa")].
Proof.
  destruct (sendMessage_start "a" (send_env 1000 "aaaaaaaaa") initial) as [s1 [k|]] eqn:E;
    [|vm_compute in E; discriminate E].
  destruct (run [Send "b" (send_env 2000 "bbbbbbbbb");
                 Settle 0 (Rejected (timeout_rejection 120000)) (mkResumeEnv 3000 3000)]
                {| store := s1; inflight := [] ++ [k] |}) as [w|] eqn:Erun.
  2:{ vm_compute in E. injection E as <- <-. vm_compute in Erun. discriminate Erun. }
  exists s1, k, w. split; [reflexivity|]. split; [exact Erun|].
  destruct user_message_survives_every_outcome as (Hkeep & _ & Hfail).
  split.
  - eapply (Hkeep "a" (send_env 1000 "aaaaaaaaa") initial s1 k []);
      [constructor|exact E|exact Erun].
  - apply (Hfail "a" (send_env 1000 "aaaaaaaaa") initial s1 k); [exact E|].
    vm_compute in E. injection E as <- <-. vm_compute. constructor.
Defined.


(* ===================================================================== *)
(** * Properties of the chat pane *)
(* ===================================================================== *)

Import Regex ChatPane.

(** ** The PDF header gate *)

Lemma isPdfHeader_spec bytes :
  isPdfHeader bytes = true
  <-> exists rest, bytes = [0x25; 0x50; 0x44; 0x46]%Z ++ rest.
Proof.
  unfold isPdfHeader. split.
  - intros H. apply andb_prop in H as [_ H].
    destruct bytes as [|b0 [|b1 [|b2 [|b3 rest]]]]; try discriminate H.
    apply andb_prop in H as [H H3]. apply andb_prop in H as [H H2].
    apply andb_prop in H as [H0 H1].
    apply Z.eqb_eq in H0, H1, H2, H3. subst. exists rest. reflexivity.
  - intros [rest ->]. reflexivity.
Qed.

Lemma header_guard bytes :
  (length bytes <? 4)%nat || negb (isPdfHeader bytes) = negb (isPdfHeader bytes).
Proof.
  unfold isPdfHeader. destruct (length bytes <? 4)%nat eqn:E; [|reflexivity].
  apply Nat.ltb_lt in E. destruct (4 <=? length bytes)%nat eqn:E'; [|reflexivity].
  apply Nat.leb_le in E'. lia.
Qed.

(** C5.  On the inline path, once the answer of [/view] has passed the
    earlier checks and its base64 field has been converted to [bytes], and
    on the download path, once the download has delivered [bytes]: if
    [isPdfHeader bytes] the document object holding these bytes is handed
    to [openPdf], otherwise the path throws its format error.
    [loadDocumentForSource] always returns: either a document with the PDF
    header has been opened, or an alert has been raised and the viewer is
    unchanged.  [isPdfHeader] holds exactly of the buffers that start with
    the four bytes of [%PDF]. *)
Theorem pdf_header_decides_both_paths :
  (forall sourceData response data bytes v,
      inline_decodes response data bytes ->
      loadDocumentViaBase64 sourceData (Some response) v
      = if isPdfHeader bytes
        then Ok (openPdf (pdfDocument sourceData bytes
                            (Js.or_else (vd_mimetype data) "application/pdf")) v)
        else Throw NotAValidPdf)
  /\ (forall sourceData response bytes v,
        dr_ok response = true -> dr_bytes response = Some bytes ->
        loadDocumentViaDownload sourceData (Some response) v
        = if isPdfHeader bytes
          then Ok (openPdf (pdfDocument sourceData bytes "application/pdf") v)
          else Throw DownloadedNotAValidPdf)
  /\ (forall sourceData net v,
        (exists document,
            loadDocumentForSource sourceData net v
            = (openPdf document v, None)
            /\ isPdfHeader (pdf_base64Data document) = true)
        \/ (exists error, loadDocumentForSource sourceData net v = (v, Some error)))
  /\ (forall bytes,
        isPdfHeader bytes = true
        <-> exists rest, bytes = [0x25; 0x50; 0x44; 0x46]%Z ++ rest).
Proof.
  split; [|split; [|split]].
  - intros sourceData response data bytes v (Hok & Hct & Hjson & Hsrv & Hb64 & Hsize & Hvalid & Hconv).
    unfold loadDocumentViaBase64.
    rewrite Hok, Hct, Hjson, Hsrv, Hb64, Hsize, Hvalid, Hconv. simpl.
    unfold open_converted. rewrite header_guard.
    destruct (isPdfHeader bytes); reflexivity.
  - intros sourceData response bytes v Hok Hbytes.
    unfold loadDocumentViaDownload. rewrite Hok, Hbytes. simpl.
    rewrite header_guard. destruct (isPdfHeader bytes); reflexivity.
  - intros sourceData net v. unfold loadDocumentForSource.
    destruct (loadDocumentViaBase64 sourceData (served_view net) v) as [v1|e1] eqn:E1.
    + left. unfold loadDocumentViaBase64 in E1.
      destruct (served_view net) as [response|]; [|discriminate].
      destruct (negb (vr_ok response)); [discriminate|].
      destruct (negb (opt_includes _ _)); [discriminate|].
      destruct (vr_json response) as [data|]; [|discriminate].
      destruct (_ || _); [discriminate|].
      destruct (Js.falsy_opt _); [discriminate|].
      destruct (_ <? _)%Z; [discriminate|].
      destruct (negb (isValidBase64 _)); [discriminate|].
      destruct (base64ToUint8Array _) as [bytes|]; [|discriminate].
      unfold open_converted in E1. rewrite header_guard in E1.
      destruct (isPdfHeader bytes) eqn:Eh; [|discriminate].
      injection E1 as <-. eexists. split; [reflexivity | exact Eh].
    + destruct (loadDocumentViaDownload sourceData (served_download net) v) as [v2|e2] eqn:E2.
      * left. unfold loadDocumentViaDownload in E2.
        destruct (served_download net) as [response|]; [|discriminate].
        destruct (negb (dr_ok response)); [discriminate|].
        destruct (dr_bytes response) as [bytes|]; [|discriminate].
        rewrite header_guard in E2.
        destruct (isPdfHeader bytes) eqn:Eh; [|discriminate].
        injection E2 as <-. eexists. split; [reflexivity | exact Eh].
      * right. eexists. reflexivity.
  - apply isPdfHeader_spec.
Qed.

(** The inline bytes [%PDF-1.4] are opened; a downloaded HTML page is
    refused. *)
Lemma pdf_header_decides_both_paths_witness :
  inline_decodes (view_of "JVBERi0xLjQ=") 
     {| vd_use_download := false; vd_error := None;
        vd_base64 := Some "JVBERi0xLjQ="; vd_file_size := Some 8%Z;
        vd_mimetype := Some "application/pdf" |}
     [37; 80; 68; 70; 45; 49; 46; 52]%Z
  /\ loadDocumentViaBase64 (result_on_page (Some 3%Z)) (Some (view_of "JVBERi0xLjQ="))
       (viewer closed_pane)
     = Ok (openPdf (pdfDocument (result_on_page (Some 3%Z))
                      [37; 80; 68; 70; 45; 49; 46; 52]%Z "application/pdf")
                   (viewer closed_pane))
  /\ loadDocumentViaDownload (result_on_page (Some 3%Z))
       (Some (download_of [60; 104; 116; 109; 108; 62]%Z)) (viewer closed_pane)
     = Throw DownloadedNotAValidPdf.
Proof.
  assert (inline_decodes (view_of "JVBERi0xLjQ=")
     {| vd_use_download := false; vd_error := None;
        vd_base64 := Some "JVBERi0xLjQ="; vd_file_size := Some 8%Z;
        vd_mimetype := Some "application/pdf" |}
     [37; 80; 68; 70; 45; 49; 46; 52]%Z) as Hin.
  { repeat split; vm_compute; reflexivity. }
  destruct pdf_header_decides_both_paths as (Hinline & Hdownload & _).
  split; [exact Hin|]. split.
  - rewrite (Hinline _ _ _ _ _ Hin). reflexivity.
  - rewrite (Hdownload _ (download_of [60; 104; 116; 109; 108; 62]%Z)
               [60; 104; 116; 109; 108; 62]%Z _ eq_refl eq_refl).
    reflexivity.
Defined.

(** ** Citation binding *)

Lemma page_or_1_negative n : (n < 0)%Z -> page_or_1 (Some n) = n.
Proof. intros H. unfold page_or_1. destruct (Z.eqb_spec n 0); [lia | reflexivity]. Qed.

Lemma targetPage_negative n : (n <= 0)%Z -> targetPage (Some n) = 1%Z.
Proof. intros H. unfold targetPage. destruct (Z.ltb_spec 0 n); [lia | reflexivity]. Qed.

(** The page the pane hands to the viewer.  After a click on document
    index 1, on an answer whose only search result has page [-1], the
    reactive value [highlightPage] of the pane is [-1]: [page || 1] only
    replaces an absent or zero page.  The handler
    [handleSearchResultPdfOpen] stores page 1 for the same result.  The
    viewer does not jump to a page that is not positive (see
    [PdfViewer.on_pdf]). *)
Theorem document_link_keeps_negative_page :
  let results := [result_on_page (Some (-1)%Z)] in
  let net := fun _ => serving "JVBERi0xLjQ=" [] in
  highlightPage (fst (handleDocumentLinkClick 1 (Some [answer_with results]) net closed_pane))
  = (-1)%Z
  /\ highlightPage (fst (handleSearchResultPdfOpen (result_on_page (Some (-1)%Z)) net closed_pane))
     = 1%Z.
Proof. split; vm_compute; reflexivity. Qed.


(** ** Base64 decoding *)

(** Division and remainder by a constant are linear arithmetic. *)
Ltac Zify.zify_post_hook ::= Z.to_euclidean_division_equations.

Ltac ascii_cases c :=
  destruct c as [[|] [|] [|] [|] [|] [|] [|] [|]]; vm_compute; try reflexivity; try discriminate.

Lemma digit_not_pad c : is_base64_char c = true -> is_pad c = false.
Proof. ascii_cases c. Qed.

Lemma digit_not_whitespace c : is_base64_char c = true -> is_ascii_whitespace c = false.
Proof. ascii_cases c. Qed.

Lemma digit_not_space c : is_base64_char c = true -> is_space c = false.
Proof. ascii_cases c. Qed.

Lemma digit_has_value c :
  is_base64_char c = true -> b64_value c = Some (default 0%Z (b64_value c)).
Proof. ascii_cases c. Qed.

Lemma padding_chars pad :
  padding pad ->
  Forall (fun c => is_ascii_whitespace c = false /\ is_space c = false) pad
  /\ (length pad <= 2)%nat.
Proof.
  intros [-> | [-> | ->]]; (split; [repeat constructor | simpl; lia]).
Qed.

Lemma filter_keeps_all {A} (P : A -> Prop) `{forall x, Decision (P x)} (l : list A) :
  Forall P l -> filter P l = l.
Proof.
  induction 1 as [|x l Hx _ IH]; [reflexivity|].
  rewrite filter_cons_True by exact Hx. rewrite IH. reflexivity.
Qed.

Lemma mapM_digits x : digits x -> mapM b64_value x = Some (digit_values x).
Proof.
  induction 1 as [|c x Hc _ IH]; [reflexivity|].
  simpl. rewrite (digit_has_value c Hc). simpl. rewrite IH. reflexivity.
Qed.

Lemma strip_padding_valid x pad :
  digits x -> padding pad -> strip_padding (x ++ pad) = x.
Proof.
  intros Hx Hpad. induction Hx as [|c x Hc _ IH].
  - destruct Hpad as [-> | [-> | ->]]; reflexivity.
  - simpl. rewrite (digit_not_pad c Hc). simpl. rewrite IH. reflexivity.
Qed.

Lemma atob_valid x pad :
  digits x -> padding pad -> ((length x + length pad) mod 4 = 0)%nat ->
  atob (x ++ pad) = Some (decode_digits (digit_values x)).
Proof.
  intros Hx Hpad Hlen. unfold atob.
  destruct (padding_chars pad Hpad) as [Hchars Hle].
  rewrite filter_keeps_all.
  2:{ apply Forall_app. split.
      - eapply Forall_impl; [exact Hx|]. intros c Hc. apply digit_not_whitespace, Hc.
      - eapply Forall_impl; [exact Hchars|]. intros c [Hc _]. exact Hc. }
  rewrite length_app, Hlen, Nat.eqb_refl.
  rewrite strip_padding_valid by assumption.
  destruct (length x mod 4 =? 1)%nat eqn:E.
  - apply Nat.eqb_eq in E. lia.
  - rewrite mapM_digits by exact Hx. reflexivity.
Qed.

Lemma decode_digits_app vs1 : forall n vs2,
  length vs1 = (4 * n)%nat ->
  decode_digits (vs1 ++ vs2) = decode_digits vs1 ++ decode_digits vs2.
Proof.
  intros n. revert vs1. induction n as [|n IH]; intros vs1 vs2 Hlen.
  - destruct vs1; [reflexivity | simpl in Hlen; lia].
  - destruct vs1 as [|a [|b [|c [|d rest]]]]; simpl in Hlen; try lia.
    change (decode_digits ((a :: b :: c :: d :: rest) ++ vs2))
      with (let n := Z.lor (Z.lor (Z.lor (Z.shiftl a 18) (Z.shiftl b 12)) (Z.shiftl c 6)) d in
            Z.land (Z.shiftr n 16) 255 :: Z.land (Z.shiftr n 8) 255 :: Z.land n 255
              :: decode_digits (rest ++ vs2)).
    cbv zeta. rewrite (IH rest vs2) by lia. reflexivity.
Qed.

Lemma decode_digits_length vs : forall n r,
  length vs = (4 * n + r)%nat -> (r < 4)%nat ->
  length (decode_digits vs) = (3 * n + (r - 1))%nat.
Proof.
  intros n. revert vs. induction n as [|n IH]; intros vs r Hlen Hr.
  - destruct vs as [|a [|b [|c [|d rest]]]]; simpl in Hlen; simpl; lia.
  - destruct vs as [|a [|b [|c [|d rest]]]]; simpl in Hlen; try lia.
    change (decode_digits (a :: b :: c :: d :: rest))
      with (let n := Z.lor (Z.lor (Z.lor (Z.shiftl a 18) (Z.shiftl b 12)) (Z.shiftl c 6)) d in
            Z.land (Z.shiftr n 16) 255 :: Z.land (Z.shiftr n 8) 255 :: Z.land n 255
              :: decode_digits rest).
    cbv zeta. simpl length. rewrite (IH rest r) by lia. lia.
Qed.

(** ** The chunked conversion *)

Lemma chunkSize_groups : exists q, chunkSize = (4 * q)%nat /\ (0 < q)%nat.
Proof.
  exists (Z.to_nat 25000). unfold chunkSize. split.
  - change 100000%Z with (4 * 25000)%Z. rewrite Z2Nat.inj_mul by discriminate.
    reflexivity.
  - change 0%nat with (Z.to_nat 0). apply Z2Nat.inj_lt; [discriminate..|reflexivity].
Qed.

Lemma slices_nil size fuel : slices size fuel [] = [].
Proof. destruct fuel; reflexivity. Qed.

Lemma slices_cons size fuel c s :
  slices size (S fuel) (c :: s)
  = take size (c :: s) :: slices size fuel (drop size (c :: s)).
Proof. reflexivity. Qed.

Lemma padEnd_aligned s :
  (length s mod 4 = 0)%nat -> padEnd s (ceil4 (length s)) = s.
Proof.
  intros H. unfold padEnd, ceil4.
  replace ((length s + 3) / 4 * 4 - length s)%nat with 0%nat by lia.
  apply app_nil_r.
Qed.

Lemma set_at_zeros (done bs : list Z) n :
  (length bs <= n)%nat ->
  set_at (done ++ replicate n 0%Z) bs (length done)
  = Some (done ++ bs ++ replicate (n - length bs) 0%Z).
Proof.
  intros Hle. unfold set_at.
  rewrite length_app, length_replicate.
  destruct (Nat.leb_spec (length done + length bs) (length done + n)) as [_|Hgt]; [|lia].
  rewrite take_app_length, drop_app_add, drop_replicate. reflexivity.
Qed.

Lemma chunk_step_valid (done : list Z) n x pad :
  digits x -> padding pad -> ((length x + length pad) mod 4 = 0)%nat ->
  (3 * ((length x + length pad) / 4) <= n)%nat ->
  let bs := decode_digits (digit_values x) in
  chunk_step (Some (done ++ replicate n 0%Z, length done)) (x ++ pad)
  = Some (done ++ bs ++ replicate (n - length bs) 0%Z, (length done + length bs)%nat)
  /\ (length bs + length pad = 3 * ((length x + length pad) / 4))%nat.
Proof.
  intros Hx Hpad Hlen Hn bs.
  destruct (padding_chars pad Hpad) as [_ Hle].
  assert (length bs + length pad = 3 * ((length x + length pad) / 4))%nat as Hbs.
  { unfold bs.
    assert (length (digit_values x) = length x) as Hv by apply length_fmap.
    destruct Hpad as [-> | [-> | ->]]; simpl length in *.
    - rewrite (decode_digits_length _ (length x / 4) 0) by lia. lia.
    - rewrite (decode_digits_length _ (length x / 4) 3) by lia. lia.
    - rewrite (decode_digits_length _ (length x / 4) 2) by lia. lia. }
  split; [|exact Hbs].
  unfold chunk_step. cbn [mbind option_bind].
  rewrite padEnd_aligned by (rewrite length_app; exact Hlen).
  rewrite (atob_valid x pad Hx Hpad Hlen). cbn [mbind option_bind].
  fold bs. rewrite set_at_zeros by lia. reflexivity.
Qed.

Section ChunkLoop.

(** The loop for any chunk size that is a positive multiple of four. *)
Variables (size q : nat).
Hypothesis size_groups : size = (4 * q)%nat.
Hypothesis size_positive : (0 < q)%nat.

Lemma chunk_loop fuel : forall x pad (done : list Z),
  digits x -> padding pad -> ((length x + length pad) mod 4 = 0)%nat ->
  (length x + length pad <= fuel)%nat ->
  foldl chunk_step
    (Some (done ++ replicate (3 * ((length x + length pad) / 4)) 0%Z, length done))
    (slices size fuel (x ++ pad))
  = Some (done ++ decode_digits (digit_values x) ++ replicate (length pad) 0%Z,
          (length done + length (decode_digits (digit_values x)))%nat).
Proof.
  induction fuel as [|fuel IH]; intros x pad done Hx Hpad Hlen Hfuel.
  - assert (x = []) as -> by (destruct x; [reflexivity | simpl in Hfuel; lia]).
    assert (pad = []) as -> by (destruct pad; [reflexivity | simpl in Hfuel; lia]).
    simpl. rewrite app_nil_r, Nat.add_0_r. reflexivity.
  - destruct (x ++ pad) as [|c s] eqn:Es.
    + apply app_eq_nil in Es as [-> ->]. simpl.
      rewrite app_nil_r, Nat.add_0_r. reflexivity.
    + rewrite slices_cons, <- Es. clear c s Es.
      destruct (padding_chars pad Hpad) as [_ Hle].
      destruct (decide (length x + length pad <= size)%nat) as [Hsmall|Hbig].
      * rewrite take_ge, drop_ge by (rewrite length_app; lia).
        rewrite slices_nil. cbn [foldl].
        destruct (chunk_step_valid done (3 * ((length x + length pad) / 4)) x pad
                    Hx Hpad Hlen (le_n _)) as [-> Hbs].
        f_equal. f_equal. f_equal. f_equal. f_equal. lia.
      * assert (size + 4 <= length x + length pad)%nat as Hmore by lia.
        rewrite take_app_le, drop_app_le by lia.
        cbn [foldl].
        pose proof (take_drop size x) as Hsplit.
        assert (length (take size x) = size) as Hl1
          by (rewrite length_take; lia).
        assert (length (drop size x) = (length x - size)%nat) as Hl2
          by apply length_drop.
        assert (digits (take size x)) as Hx1 by (apply Forall_take; exact Hx).
        assert (digits (drop size x)) as Hx2 by (apply Forall_drop; exact Hx).
        pose proof (chunk_step_valid done (3 * ((length x + length pad) / 4))
                      (take size x) [] Hx1 (or_introl eq_refl)) as Hstep.
        rewrite app_nil_r in Hstep. simpl length in Hstep.
        destruct Hstep as [-> Hb1]; [lia | lia |].
        set (b1 := decode_digits (digit_values (take size x))) in *.
        replace (3 * ((length x + length pad) / 4) - length b1)%nat
          with (3 * ((length (drop size x) + length pad) / 4))%nat by lia.
        rewrite (app_assoc done b1). rewrite <- (length_app done b1).
        rewrite (IH (drop size x) pad (done ++ b1)) by (assumption || lia).
        assert (decode_digits (digit_values x)
                = b1 ++ decode_digits (digit_values (drop size x))) as ->.
        { rewrite <- Hsplit at 1. unfold digit_values. rewrite fmap_app.
          apply (decode_digits_app _ q). rewrite length_fmap. lia. }
        rewrite !length_app, <- !app_assoc, Nat.add_assoc. reflexivity.
Qed.

End ChunkLoop.

(** ** Facts about the matcher *)

Lemma backtrack_some {R} (f : nat -> option R) lo : forall k r,
  backtrack k lo f = Some r -> exists j, (lo <= j <= k)%nat /\ f j = Some r.
Proof.
  induction k as [|k IH]; intros r H; simpl in H.
  - destruct (0 <? lo)%nat eqn:E; [discriminate|]. apply Nat.ltb_ge in E.
    destruct (f 0%nat) eqn:Ef; [|discriminate]. injection H as <-.
    exists 0%nat. split; [lia | exact Ef].
  - destruct (S k <? lo)%nat eqn:E; [discriminate|]. apply Nat.ltb_ge in E.
    destruct (f (S k)) eqn:Ef.
    + injection H as <-. exists (S k). split; [lia | exact Ef].
    + destruct (IH r H) as (j & Hj & Hf). exists j. split; [lia | exact Hf].
Qed.

Lemma backtrack_first {R} (f : nat -> option R) k lo r :
  (lo <= k)%nat -> f k = Some r -> backtrack k lo f = Some r.
Proof.
  intros Hle Hf. destruct k; simpl.
  - destruct (0 <? lo)%nat eqn:E; [apply Nat.ltb_lt in E; lia|]. rewrite Hf. reflexivity.
  - destruct (S k <? lo)%nat eqn:E; [apply Nat.ltb_lt in E; lia|]. rewrite Hf. reflexivity.
Qed.

Lemma backtrack_next {R} (f : nat -> option R) k lo :
  (lo <= S k)%nat -> f (S k) = None -> backtrack (S k) lo f = backtrack k lo f.
Proof.
  intros Hle Hf. simpl.
  destruct (S k <? lo)%nat eqn:E; [apply Nat.ltb_lt in E; lia|]. rewrite Hf. reflexivity.
Qed.

Lemma run_length_le p s : (run_length p s <= length s)%nat.
Proof. induction s as [|c s IH]; simpl; [lia|]. destruct (p c); simpl; lia. Qed.

Lemma run_length_take p s : forall j,
  (j <= run_length p s)%nat -> Forall (fun c => p c = true) (take j s).
Proof.
  induction s as [|c s IH]; intros j Hj; simpl in *.
  - rewrite take_nil. constructor.
  - destruct j; [constructor|]. destruct (p c) eqn:E; [|lia].
    simpl. constructor; [exact E|]. apply IH. lia.
Qed.

Lemma run_length_app p x rest :
  Forall (fun c => p c = true) x ->
  match rest with [] => True | c :: _ => p c = false end ->
  run_length p (x ++ rest) = length x.
Proof.
  intros Hx Hrest. induction Hx as [|c x Hc _ IH]; simpl.
  - destruct rest as [|c rest]; [reflexivity|]. simpl. rewrite Hrest. reflexivity.
  - rewrite Hc, IH. reflexivity.
Qed.

(** ** Valid base64 strings *)

Lemma pads_are_padding pad :
  Forall (fun c => is_char "=" c = true) pad -> (length pad <= 2)%nat -> padding pad.
Proof.
  intros Hall Hlen. unfold padding.
  destruct pad as [|a [|b [|c pad]]]; simpl in Hlen; try lia.
  - left. reflexivity.
  - right. left. inversion Hall as [|? ? Ha _]; subst.
    apply Ascii.eqb_eq in Ha. subst. reflexivity.
  - right. right. inversion Hall as [|? ? Ha Hall']; subst.
    inversion Hall' as [|? ? Hb _]; subst.
    apply Ascii.eqb_eq in Ha, Hb. subst. reflexivity.
Qed.

Lemma isValidBase64_spec s :
  isValidBase64 s = true
  <-> exists x pad, s = x ++ pad /\ digits x /\ padding pad
                    /\ ((length x + length pad) mod 4 = 0)%nat.
Proof.
  unfold isValidBase64, base64Regex. split.
  - destruct (match_items true _ s) as [r|] eqn:E; [|discriminate].
    intros Hlen. apply Nat.eqb_eq in Hlen.
    cbn [match_items star upto it_class it_min it_max it_capture] in E.
    apply backtrack_some in E as (k & Hk & E).
    destruct (backtrack _ 0 _) as [[caps used]|] eqn:E2 in E; [|discriminate]. clear E.
    apply backtrack_some in E2 as (k2 & Hk2 & E2).
    destruct (drop k2 (drop k s)) as [|c rest] eqn:Erest; [|discriminate]. clear E2.
    exists (take k s), (take k2 (drop k s)).
    assert (s = take k s ++ take k2 (drop k s)) as Hs.
    { rewrite <- (take_drop k s) at 1. f_equal.
      rewrite <- (take_drop k2 (drop k s)) at 1. rewrite Erest. apply app_nil_r. }
    split; [exact Hs|]. split; [|split].
    + apply run_length_take. lia.
    + apply pads_are_padding; [apply run_length_take; lia|].
      rewrite length_take. lia.
    + rewrite <- length_app, <- Hs. exact Hlen.
  - intros (x & pad & -> & Hx & Hpad & Hlen).
    destruct (padding_chars pad Hpad) as [_ Hle].
    assert (match_items true [star is_base64_char; upto 2 (is_char "=")] (x ++ pad)
            = Some ([], (length x + (length pad + 0))%nat)) as ->.
    2:{ rewrite length_app. apply Nat.eqb_eq. exact Hlen. }
    cbn [match_items star upto it_class it_min it_max it_capture].
    rewrite (run_length_app is_base64_char x pad Hx).
    2:{ destruct Hpad as [-> | [-> | ->]]; reflexivity. }
    apply backtrack_first; [lia|].
    rewrite drop_app_length.
    assert (Nat.min (run_length (is_char "=") pad) 2 = length pad) as ->.
    { destruct Hpad as [-> | [-> | ->]]; reflexivity. }
    rewrite (backtrack_first _ _ _ ([], (length pad + 0)%nat)); [reflexivity | lia |].
    rewrite drop_all. reflexivity.
Qed.

(** ** The two decoding strategies *)

Lemma pad_count_valid x pad :
  digits x -> padding pad -> pad_count (x ++ pad) = length pad.
Proof.
  intros Hx Hpad. unfold pad_count. rewrite filter_app, length_app.
  assert (filter (fun c => is_pad c = true) x = []) as ->.
  { induction Hx as [|c x Hc _ IH]; [reflexivity|].
    rewrite filter_cons_False; [exact IH|]. rewrite (digit_not_pad c Hc). discriminate. }
  destruct Hpad as [-> | [-> | ->]]; reflexivity.
Qed.

Lemma chunked_valid x pad :
  digits x -> padding pad -> ((length x + length pad) mod 4 = 0)%nat ->
  single_pass (x ++ pad) = Some (decode_digits (digit_values x))
  /\ base64ToUint8ArrayChunked (x ++ pad)
     = Some (decode_digits (digit_values x) ++ replicate (length pad) 0%Z).
Proof.
  intros Hx Hpad Hlen. split; [apply atob_valid; assumption|].
  unfold base64ToUint8ArrayChunked. rewrite length_app.
  replace ((length x + length pad) / 4 * 3)%nat
    with (3 * ((length x + length pad) / 4))%nat by lia.
  destruct chunkSize_groups as (q & Hq & Hpos).
  pose proof (chunk_loop chunkSize q Hq Hpos _ x pad [] Hx Hpad Hlen (le_n _)) as Hloop.
  cbn [app length] in Hloop. rewrite Hloop. reflexivity.
Qed.

Lemma dispatch_long x pad :
  digits x -> padding pad -> ((length x + length pad) mod 4 = 0)%nat ->
  (1000000 < Z.of_nat (length (x ++ pad)))%Z ->
  base64ToUint8Array (x ++ pad)
  = Some (decode_digits (digit_values x) ++ replicate (length pad) 0%Z).
Proof.
  intros Hx Hpad Hlen Hlong. unfold base64ToUint8Array.
  destruct (padding_chars pad Hpad) as [Hchars _].
  rewrite filter_keeps_all.
  2:{ apply Forall_app. split.
      - eapply Forall_impl; [exact Hx|]. intros c Hc. apply digit_not_space, Hc.
      - eapply Forall_impl; [exact Hchars|]. intros c [_ Hc]. exact Hc. }
  rewrite padEnd_aligned by (rewrite length_app; exact Hlen).
  destruct (Z.ltb_spec 1000000 (Z.of_nat (length (x ++ pad)))) as [_|Hle]; [|lia].
  rewrite (proj2 (chunked_valid x pad Hx Hpad Hlen)). reflexivity.
Qed.

(** C6 (failing inputs).  For every string [isValidBase64] accepts, the
    chunked conversion returns the bytes of the single-pass decode followed
    by one zero byte for each padding character; the same holds of
    [base64ToUint8Array] on the inputs of more than 1,000,000 characters,
    which it hands to the chunked conversion.  On ["QQ=="] the single pass
    gives [[65]] and the chunked conversion [[65; 0; 0]]. *)
Theorem chunked_conversion_keeps_padding_bytes :
  (forall s, isValidBase64 s = true ->
     exists bytes,
       single_pass s = Some bytes
       /\ base64ToUint8ArrayChunked s = Some (bytes ++ replicate (pad_count s) 0%Z))
  /\ (forall s, isValidBase64 s = true -> (1000000 < Z.of_nat (length s))%Z ->
        exists bytes,
          single_pass s = Some bytes
          /\ base64ToUint8Array s = Some (bytes ++ replicate (pad_count s) 0%Z))
  /\ single_pass (chars "QQ==") = Some [65%Z]
  /\ base64ToUint8ArrayChunked (chars "QQ==") = Some [65%Z; 0%Z; 0%Z].
Proof.
  split; [|split; [|split]].
  - intros s Hvalid. apply isValidBase64_spec in Hvalid as (x & pad & -> & Hx & Hpad & Hlen).
    exists (decode_digits (digit_values x)). rewrite pad_count_valid by assumption.
    apply chunked_valid; assumption.
  - intros s Hvalid Hlong.
    apply isValidBase64_spec in Hvalid as (x & pad & -> & Hx & Hpad & Hlen).
    exists (decode_digits (digit_values x)). rewrite pad_count_valid by assumption.
    split; [apply atob_valid; assumption | apply dispatch_long; assumption].
  - vm_compute. reflexivity.
  - vm_compute. reflexivity.
Qed.

Lemma long_padded_input_shape :
  long_padded_input
  = (replicate (Z.to_nat 1000000) "A"%char ++ chars "QQ") ++ chars "=="
  /\ digits (replicate (Z.to_nat 1000000) "A"%char ++ chars "QQ")
  /\ length long_padded_input = (4 * Z.to_nat 250001)%nat
  /\ Z.of_nat (length long_padded_input) = 1000004%Z.
Proof.
  assert (length long_padded_input = Z.to_nat 1000004) as Hlen.
  { unfold long_padded_input. rewrite length_app, length_replicate.
    change (length (chars "QQ==")) with (Z.to_nat 4).
    rewrite <- Z2Nat.inj_add by discriminate. reflexivity. }
  split; [|split; [|split]].
  - unfold long_padded_input. rewrite <- app_assoc. reflexivity.
  - apply Forall_app. split; [apply Forall_replicate; reflexivity|].
    repeat constructor.
  - rewrite Hlen. change 1000004%Z with (4 * 250001)%Z.
    rewrite Z2Nat.inj_mul by discriminate. reflexivity.
  - rewrite Hlen. apply Z2Nat.id. discriminate.
Qed.

(** The padded input of 1,000,004 characters. *)
Lemma chunked_conversion_keeps_padding_bytes_witness :
  isValidBase64 long_padded_input = true
  /\ (1000000 < Z.of_nat (length long_padded_input))%Z
  /\ pad_count long_padded_input = 2%nat
  /\ exists bytes,
       single_pass long_padded_input = Some bytes
       /\ base64ToUint8Array long_padded_input = Some (bytes ++ [0%Z; 0%Z]).
Proof.
  destruct long_padded_input_shape as (Hshape & Hdigits & Hlen & HlenZ).
  assert (isValidBase64 long_padded_input = true) as Hvalid.
  { apply isValidBase64_spec. eexists _, _. split; [exact Hshape|].
    split; [exact Hdigits|]. split; [right; right; reflexivity|].
    rewrite <- length_app, <- Hshape, Hlen, Nat.mul_comm. apply Nat.Div0.mod_mul. }
  assert (1000000 < Z.of_nat (length long_padded_input))%Z as Hlong
    by (rewrite HlenZ; reflexivity).
  assert (pad_count long_padded_input = 2%nat) as Hpads.
  { rewrite Hshape. rewrite pad_count_valid; [reflexivity | exact Hdigits |].
    right; right; reflexivity. }
  split; [exact Hvalid|]. split; [exact Hlong|]. split; [exact Hpads|].
  destruct (proj1 (proj2 chunked_conversion_keeps_padding_bytes)
              long_padded_input Hvalid Hlong) as (bytes & Hsingle & Hchunked).
  exists bytes. split; [exact Hsingle|]. rewrite Hchunked, Hpads. reflexivity.
Defined.


(* ===================================================================== *)
(** * Properties of the BibTeX parser and formatter *)
(* ===================================================================== *)

Import Regex Bib.

(** ** One item of a pattern at a time *)

Lemma match_one ae p c s its :
  match_items ae (one p :: its) (c :: s)
  = if p c
    then match match_items ae its s with
         | Some (caps, used) => Some (caps, S used)
         | None => None
         end
    else None.
Proof.
  cbn [match_items one it_class it_min it_max it_capture run_length].
  destruct (p c).
  - assert (Nat.min (S (run_length p s)) 1 = 1%nat) as -> by lia.
    cbn [backtrack Nat.ltb Nat.leb drop app Nat.add]. rewrite drop_0.
    destruct (match_items ae its s) as [[caps used]|]; reflexivity.
  - reflexivity.
Qed.

Lemma match_greedy ae p lo cap its x rest caps used :
  Forall (fun c => p c = true) x ->
  match rest with [] => True | c :: _ => p c = false end ->
  (lo <= length x)%nat ->
  match_items ae its rest = Some (caps, used) ->
  match_items ae (mkItem p lo None cap :: its) (x ++ rest)
  = Some ((if cap then [x] else []) ++ caps, (length x + used)%nat).
Proof.
  intros Hx Hrest Hlo Hits.
  cbn [match_items it_class it_min it_max it_capture].
  rewrite (run_length_app p x rest Hx Hrest).
  apply backtrack_first; [exact Hlo|].
  rewrite drop_app_length, take_app_length, Hits. reflexivity.
Qed.

Lemma match_greedy_back ae p lo cap its body c caps used :
  Forall (fun c => p c = true) (body ++ [c]) ->
  (lo <= length body)%nat ->
  match_items ae its [] = None ->
  match_items ae its [c] = Some (caps, used) ->
  match_items ae (mkItem p lo None cap :: its) (body ++ [c])
  = Some ((if cap then [body] else []) ++ caps, (length body + used)%nat).
Proof.
  intros Hall Hlo Hnil Hone.
  cbn [match_items it_class it_min it_max it_capture].
  rewrite <- (app_nil_r (body ++ [c])) at 1.
  rewrite (run_length_app p (body ++ [c]) [] Hall I).
  rewrite length_app. cbn [length]. rewrite Nat.add_1_r.
  rewrite backtrack_next.
  - apply backtrack_first; [exact Hlo|].
    rewrite drop_app_length, take_app_length, Hone. reflexivity.
  - lia.
  - rewrite drop_ge by (rewrite length_app; simpl; lia). rewrite Hnil. reflexivity.
Qed.

Lemma match_miss ae p lo mx cap its s :
  (1 <= lo)%nat ->
  match s with [] => True | c :: _ => p c = false end ->
  match_items ae (mkItem p lo mx cap :: its) s = None.
Proof.
  intros Hlo Hs. cbn [match_items it_class it_min it_max it_capture].
  assert (run_length p s = 0%nat) as ->.
  { destruct s as [|c s]; [reflexivity|]. simpl. rewrite Hs. reflexivity. }
  assert (match mx with Some m => Nat.min 0 m | None => 0%nat end = 0%nat) as ->
    by (destruct mx; reflexivity).
  cbn [backtrack]. destruct (Nat.ltb_spec 0 lo); [reflexivity | lia].
Qed.

(** ** Scanning *)

Lemma scan_skip items s : forall k, scan items k s = scan items 0 (drop k s).
Proof.
  induction s as [|c s IH]; intros k.
  - rewrite drop_nil. reflexivity.
  - destruct k; [reflexivity|]. cbn [scan drop]. apply IH.
Qed.

Lemma scan_miss items c s :
  match_items false items (c :: s) = None ->
  scan items 0 (c :: s) = scan items 0 s.
Proof. intros H. cbn [scan]. rewrite H. reflexivity. Qed.

Lemma scan_hit items c s caps used :
  match_items false items (c :: s) = Some (caps, S used) ->
  scan items 0 (c :: s) = caps :: scan items 0 (drop used s).
Proof.
  intros H. cbn [scan]. rewrite H. cbn [Nat.sub]. rewrite Nat.sub_0_r.
  rewrite scan_skip. reflexivity.
Qed.

(** ** A field line *)

Lemma match_field key value rest :
  is_key key -> is_value value ->
  match_items false fieldRegex
    (key ++ " "%char :: "="%char :: " "%char :: "{"%char :: value ++ "}"%char :: rest)
  = Some ([key; value], S (length key + (length value + 4))).
Proof.
  intros [Hk Hkey] [Hv Hvalue]. unfold fieldRegex.
  change (group (plus is_word)) with (mkItem is_word 1 None true).
  change (group (plus (not_char "}"))) with (mkItem (not_char "}") 1 None true).
  change (star is_space) with (mkItem is_space 0 None false).
  assert (0 < length key)%nat as Hlk by (destruct key; [contradiction | simpl; lia]).
  assert (0 < length value)%nat as Hlv by (destruct value; [contradiction | simpl; lia]).
  assert (match_items false [one (is_char "}")] ("}"%char :: rest) = Some ([], 1%nat)) as H7.
  { rewrite match_one. reflexivity. }
  assert (match_items false [mkItem (not_char "}") 1 None true; one (is_char "}")]
            (value ++ "}"%char :: rest)
          = Some ([value] ++ [], (length value + 1)%nat)) as H6.
  { apply match_greedy; [exact Hvalue | reflexivity | lia | exact H7]. }
  assert (match_items false
            [one (is_char "{"); mkItem (not_char "}") 1 None true; one (is_char "}")]
            ("{"%char :: value ++ "}"%char :: rest)
          = Some ([value], S (length value + 1))) as H5.
  { rewrite match_one, H6. reflexivity. }
  assert (match_items false
            [mkItem is_space 0 None false; one (is_char "{");
             mkItem (not_char "}") 1 None true; one (is_char "}")]
            ([" "%char] ++ "{"%char :: value ++ "}"%char :: rest)
          = Some ([] ++ [value], (1 + S (length value + 1))%nat)) as H4.
  { apply (match_greedy false is_space 0 false);
      [repeat constructor | reflexivity | simpl; lia | exact H5]. }
  assert (match_items false
            [one (is_char "="); mkItem is_space 0 None false; one (is_char "{");
             mkItem (not_char "}") 1 None true; one (is_char "}")]
            ("="%char :: " "%char :: "{"%char :: value ++ "}"%char :: rest)
          = Some ([value], S (1 + S (length value + 1)))) as H3.
  { rewrite match_one.
    change (" "%char :: "{"%char :: value ++ "}"%char :: rest)
      with ([" "%char] ++ "{"%char :: value ++ "}"%char :: rest).
    rewrite H4. reflexivity. }
  assert (match_items false
            [mkItem is_space 0 None false; one (is_char "=");
             mkItem is_space 0 None false; one (is_char "{");
             mkItem (not_char "}") 1 None true; one (is_char "}")]
            ([" "%char] ++ "="%char :: " "%char :: "{"%char :: value ++ "}"%char :: rest)
          = Some ([] ++ [value], (1 + S (1 + S (length value + 1)))%nat)) as H2.
  { apply (match_greedy false is_space 0 false);
      [repeat constructor | reflexivity | simpl; lia | exact H3]. }
  rewrite (match_greedy false is_word 1 true _ key
             (" "%char :: "="%char :: " "%char :: "{"%char :: value ++ "}"%char :: rest)
             ([] ++ [value]) (1 + S (1 + S (length value + 1)))%nat
             Hkey eq_refl Hlk H2).
  f_equal. f_equal. lia.
Qed.

Lemma scan_line key value rest :
  is_key key -> is_value value ->
  scan fieldRegex 0
    (" "%char :: " "%char :: key
     ++ " "%char :: "="%char :: " "%char :: "{"%char :: value
     ++ "}"%char :: ","%char :: "010"%char :: rest)
  = [key; value] :: scan fieldRegex 0 rest.
Proof.
  intros Hkey Hvalue.
  rewrite scan_miss by (apply match_miss; [simpl; lia | reflexivity]).
  rewrite scan_miss by (apply match_miss; [simpl; lia | reflexivity]).
  pose proof (match_field key value (","%char :: "010"%char :: rest) Hkey Hvalue) as Hm.
  destruct key as [|k key]; [destruct Hkey as [Hk _]; contradiction|].
  cbn [app] in *. rewrite (scan_hit _ _ _ _ _ Hm).
  replace (drop (length (k :: key) + (length value + 4)) _)
    with (","%char :: "010"%char :: rest).
  2:{ symmetry.
      change (key ++ " "%char :: "="%char :: " "%char :: "{"%char :: value
              ++ "}"%char :: ","%char :: "010"%char :: rest)
        with (key ++ [" "%char; "="%char; " "%char; "{"%char] ++ value
              ++ ["}"%char] ++ ","%char :: "010"%char :: rest).
      rewrite !app_assoc. apply drop_app_length'.
      rewrite !length_app. simpl. lia. }
  rewrite scan_miss by (apply match_miss; [simpl; lia | reflexivity]).
  rewrite scan_miss by (apply match_miss; [simpl; lia | reflexivity]).
  reflexivity.
Qed.

(** ** The text of the formatter *)

Lemma chars_app (a b : string) : chars (a +:+ b) = chars a ++ chars b.
Proof. induction a as [|c a IH]; simpl; [reflexivity | rewrite IH; reflexivity]. Qed.

Lemma line_chars k v :
  line (k, v)
  = " "%char :: " "%char :: chars k
    ++ " "%char :: "="%char :: " "%char :: "{"%char :: chars v
    ++ "}"%char :: ","%char :: ["010"%char].
Proof.
  unfold line, field_line. cbn [fst snd].
  change ("  " +:+ k +:+ " = {" +:+ v +:+ "}," +:+ nl)
    with (String " " (String " " (k +:+ " = {" +:+ v +:+ "}," +:+ nl))).
  cbn [chars list_ascii_of_string]. fold (chars (k +:+ " = {" +:+ v +:+ "}," +:+ nl)).
  rewrite chars_app. f_equal. f_equal. f_equal.
  change (" = {" +:+ v +:+ "}," +:+ nl)
    with (String " " (String "=" (String " " (String "{" (v +:+ "}," +:+ nl))))).
  cbn [chars list_ascii_of_string]. fold (chars (v +:+ "}," +:+ nl)).
  rewrite chars_app. reflexivity.
Qed.

Lemma scan_lines l :
  Forall (fun kv => is_key (chars (fst kv)) /\ is_value (chars (snd kv))) l ->
  scan fieldRegex 0 (lines l) = (fun kv => [chars (fst kv); chars (snd kv)]) <$> l.
Proof.
  induction 1 as [|[k v] l [Hk Hv] _ IH]; [reflexivity|].
  unfold lines. rewrite fmap_cons. cbn [concat]. fold (lines l).
  rewrite line_chars. cbn [fst snd] in *.
  cbn [app]. rewrite <- !app_assoc. cbn [app]. rewrite <- !app_assoc. cbn [app].
  rewrite (scan_line (chars k) (chars v) (lines l) Hk Hv), IH. reflexivity.
Qed.

Lemma lines_app l1 l2 : lines (l1 ++ l2) = lines l1 ++ lines l2.
Proof. unfold lines. rewrite fmap_app, concat_app. reflexivity. Qed.

Lemma lines_optional key o :
  chars (when_present o (field_line key)) = lines (optional_field key o).
Proof.
  unfold when_present, optional_field, lines, line.
  destruct (present o); cbn [fmap list_fmap concat fst snd]; [rewrite app_nil_r|];
    reflexivity.
Qed.

Lemma chars_generate paper :
  chars (generateBibTeX paper)
  = "@"%char :: chars (entry_type paper)
    ++ "{"%char :: chars (paper_id paper)
    ++ ","%char :: "010"%char :: lines (emitted paper) ++ ["}"%char].
Proof.
  unfold generateBibTeX. rewrite !chars_app, !lines_optional.
  unfold emitted. rewrite !lines_app.
  assert (chars (when_present (paper_arxiv paper)
                   (fun arxiv => field_line "eprint" arxiv
                                 +:+ field_line "archivePrefix" "arXiv"))
          = lines match present (paper_arxiv paper) with
                  | Some arxiv => [("eprint", arxiv); ("archivePrefix", "arXiv")]
                  | None => []
                  end) as ->.
  { unfold when_present. destruct (present (paper_arxiv paper)); [|reflexivity].
    rewrite chars_app. unfold lines, line.
    cbn [fmap list_fmap concat fst snd]. rewrite app_nil_r. reflexivity. }
  assert (forall a b c, lines [a; b; c] = line a ++ line b ++ line c) as ->.
  { intros a b c. unfold lines. cbn [fmap list_fmap concat].
    rewrite app_nil_r. reflexivity. }
  unfold line. cbn [fst snd]. rewrite <- !app_assoc. reflexivity.
Qed.

(** ** An entry *)

Lemma match_entry ty id body :
  is_key ty ->
  match id with c :: _ => is_space c = false | [] => False end ->
  Forall (fun c => not_char "," c = true) id ->
  body <> [] -> Forall (fun c => not_char "@" c = true) body ->
  match_items false entryRegex
    ("@"%char :: ty ++ "{"%char :: id ++ ","%char :: body ++ ["}"%char])
  = Some ([ty; id; body], S (length ty + S (length id + S (length body + 1)))).
Proof.
  intros [Ht Hty] Hhead Hid Hb Hbody. unfold entryRegex.
  change (group (plus is_word)) with (mkItem is_word 1 None true).
  change (group (plus (not_char ","))) with (mkItem (not_char ",") 1 None true).
  change (group (plus (not_char "@"))) with (mkItem (not_char "@") 1 None true).
  change (star is_space) with (mkItem is_space 0 None false).
  assert (0 < length ty)%nat as Hlt by (destruct ty; [contradiction | simpl; lia]).
  assert (0 < length id)%nat as Hli by (destruct id; [contradiction | simpl; lia]).
  assert (0 < length body)%nat as Hlb by (destruct body; [contradiction | simpl; lia]).
  assert (match_items false [mkItem (not_char "@") 1 None true; one (is_char "}")]
            (body ++ ["}"%char])
          = Some ([body] ++ [], (length body + 1)%nat)) as H8.
  { apply match_greedy_back.
    - apply Forall_app. split; [exact Hbody | repeat constructor].
    - lia.
    - apply match_miss; [simpl; lia | exact I].
    - rewrite match_one. reflexivity. }
  assert (match_items false
            [one (is_char ","); mkItem (not_char "@") 1 None true; one (is_char "}")]
            (","%char :: body ++ ["}"%char])
          = Some ([body], S (length body + 1))) as H7.
  { rewrite match_one, H8. reflexivity. }
  assert (match_items false
            [mkItem (not_char ",") 1 None true; one (is_char ",");
             mkItem (not_char "@") 1 None true; one (is_char "}")]
            (id ++ ","%char :: body ++ ["}"%char])
          = Some ([id] ++ [body], (length id + S (length body + 1))%nat)) as H6.
  { apply match_greedy; [exact Hid | reflexivity | lia | exact H7]. }
  assert (match_items false
            [mkItem is_space 0 None false;
             mkItem (not_char ",") 1 None true; one (is_char ",");
             mkItem (not_char "@") 1 None true; one (is_char "}")]
            ([] ++ id ++ ","%char :: body ++ ["}"%char])
          = Some ([] ++ [id; body], (0 + (length id + S (length body + 1)))%nat)) as H5.
  { apply (match_greedy false is_space 0 false); [constructor | | simpl; lia | exact H6].
    destruct id as [|c id]; [contradiction | exact Hhead]. }
  assert (match_items false
            [one (is_char "{"); mkItem is_space 0 None false;
             mkItem (not_char ",") 1 None true; one (is_char ",");
             mkItem (not_char "@") 1 None true; one (is_char "}")]
            ("{"%char :: id ++ ","%char :: body ++ ["}"%char])
          = Some ([id; body], S (length id + S (length body + 1)))) as H4.
  { rewrite match_one. cbn [app] in H5. rewrite H5. reflexivity. }
  assert (match_items false
            [mkItem is_space 0 None false;
             one (is_char "{"); mkItem is_space 0 None false;
             mkItem (not_char ",") 1 None true; one (is_char ",");
             mkItem (not_char "@") 1 None true; one (is_char "}")]
            ([] ++ "{"%char :: id ++ ","%char :: body ++ ["}"%char])
          = Some ([] ++ [id; body], (0 + S (length id + S (length body + 1)))%nat)) as H3.
  { apply (match_greedy false is_space 0 false);
      [constructor | reflexivity | simpl; lia | exact H4]. }
  cbn [app Nat.add] in H3.
  rewrite match_one. cbn [is_char Ascii.eqb Bool.eqb].
  rewrite (match_greedy false is_word 1 true _ ty
             ("{"%char :: id ++ ","%char :: body ++ ["}"%char]) _ _
             Hty eq_refl Hlt H3).
  reflexivity.
Qed.

Lemma scan_entry ty id body :
  is_key ty ->
  match id with c :: _ => is_space c = false | [] => False end ->
  Forall (fun c => not_char "," c = true) id ->
  body <> [] -> Forall (fun c => not_char "@" c = true) body ->
  exec_all entryRegex
    ("@"%char :: ty ++ "{"%char :: id ++ ","%char :: body ++ ["}"%char])
  = [[ty; id; body]].
Proof.
  intros Hty Hhead Hid Hb Hbody. unfold exec_all.
  rewrite (scan_hit _ _ _ _ _ (match_entry ty id body Hty Hhead Hid Hb Hbody)).
  rewrite drop_ge; [reflexivity|].
  rewrite length_app. cbn [length]. rewrite length_app. cbn [length].
  rewrite length_app. simpl. lia.
Qed.

(** ** Formatting, then parsing *)

Lemma emitted_keys paper :
  Forall (fun kv => is_key (chars (fst kv))) (emitted paper).
Proof.
  unfold emitted, optional_field.
  destruct (present (paper_journal paper)), (present (paper_doi paper)),
    (present (paper_arxiv paper)), (present (paper_url paper));
    repeat (constructor; [split; [discriminate | repeat constructor]|]);
    constructor.
Qed.

Lemma entry_type_key paper :
  is_key (chars (entry_type paper))
  /\ toLowerCase (chars (entry_type paper)) = chars (entry_type paper).
Proof.
  unfold entry_type. destruct (present (paper_journal paper));
    (split; [split; [discriminate | repeat constructor] | reflexivity]).
Qed.

Lemma word_is_not_at c : is_word c = true -> not_char "@" c = true.
Proof. ascii_cases c. Qed.

Lemma clean_value v :
  clean v ->
  is_value (chars v) /\ Forall (fun c => not_char "@" c = true) (chars v).
Proof.
  intros [Hne Hall]. split; [split; [exact Hne|]|];
    (eapply Forall_impl; [exact Hall|]); intros c [Hb Ha]; unfold not_char;
    apply negb_true_iff, Ascii.eqb_neq; assumption.
Qed.

Lemma lines_have_no_at l :
  Forall (fun kv => is_key (chars (fst kv)) /\ clean (snd kv)) l ->
  Forall (fun c => not_char "@" c = true) (lines l).
Proof.
  induction 1 as [|[k v] l [[_ Hk] Hv] _ IH]; [constructor|].
  unfold lines. rewrite fmap_cons. cbn [concat]. fold (lines l).
  rewrite line_chars. cbn [fst snd] in *.
  destruct (clean_value v Hv) as [_ Hv'].
  cbn [app]. repeat (apply Forall_cons; split; [reflexivity|]).
  rewrite <- app_assoc. apply Forall_app. split.
  - eapply Forall_impl; [exact Hk|]. intros c Hc. apply word_is_not_at, Hc.
  - cbn [app]. repeat (apply Forall_cons; split; [reflexivity|]).
    rewrite <- app_assoc. apply Forall_app. split; [exact Hv'|].
    cbn [app]. repeat (apply Forall_cons; split; [reflexivity|]). exact IH.
Qed.

Lemma foldl_add_field l : forall fields,
  foldl add_field fields ((fun kv => [chars (fst kv); chars (snd kv)]) <$> l)
  = foldl store_field fields l.
Proof.
  induction l as [|kv l IH]; intros fields; [reflexivity|].
  rewrite fmap_cons. cbn [foldl]. apply IH.
Qed.

Lemma str_chars (s : string) : str (chars s) = s.
Proof. apply string_of_list_ascii_of_string. Qed.

Lemma parse_generated paper :
  well_formed paper ->
  parseBibTeX (generateBibTeX paper) = {[ paper_id paper := parsed_as paper ]}.
Proof.
  intros [[Hhead Hid] Hvalues].
  pose proof (emitted_keys paper) as Hkeys.
  assert (Forall (fun kv => is_key (chars (fst kv)) /\ clean (snd kv)) (emitted paper))
    as Hboth.
  { apply Forall_forall. intros kv Hin. rewrite Forall_forall in Hkeys, Hvalues. auto. }
  destruct (entry_type_key paper) as [Hty Hlower].
  unfold parseBibTeX. rewrite chars_generate.
  change ("010"%char :: lines (emitted paper) ++ ["}"%char])
    with (("010"%char :: lines (emitted paper)) ++ ["}"%char]).
  rewrite scan_entry.
  - cbn [foldl add_entry]. rewrite Hlower, !str_chars. unfold parsed_as.
    unfold parse_fields, exec_all.
    rewrite scan_miss by (apply match_miss; [simpl; lia | reflexivity]).
    rewrite scan_lines.
    + rewrite foldl_add_field. apply insert_empty.
    + eapply Forall_impl; [exact Hboth|]. intros kv [Hk Hv].
      split; [exact Hk | apply clean_value, Hv].
  - exact Hty.
  - exact Hhead.
  - eapply Forall_impl; [exact Hid|]. intros c Hc. unfold not_char.
    apply negb_true_iff, Ascii.eqb_neq. exact Hc.
  - discriminate.
  - apply Forall_cons. split; [reflexivity|]. apply lines_have_no_at, Hboth.
Qed.

Lemma dom_foldl_store l : forall fields : gmap string string,
  dom (foldl store_field fields l)
  = dom fields ∪ list_to_set ((fun kv => str (toLowerCase (chars (fst kv)))) <$> l).
Proof.
  induction l as [|kv l IH]; intros fields.
  - cbn [foldl fmap list_fmap list_to_set]. rewrite union_empty_r_L. reflexivity.
  - rewrite fmap_cons. cbn [foldl list_to_set]. rewrite IH. unfold store_field.
    rewrite dom_insert_L.
    rewrite (union_comm_L {[str (toLowerCase (chars kv.1))]} (dom fields)).
    rewrite union_assoc_L. reflexivity.
Qed.

Lemma parsed_field_set paper :
  field_set (parsed_as paper)
  ⊆ {[ "author"; "title"; "year"; "journal"; "doi"; "eprint"; "archiveprefix"; "url" ]}.
Proof.
  unfold field_set, parsed_as.
  rewrite !dom_insert_L, dom_foldl_store, dom_empty_L.
  assert (exists keys,
             (fun kv => str (toLowerCase (chars (fst kv)))) <$> emitted paper = keys
             /\ Forall (fun k => k ∈ ["author"; "title"; "year"; "journal"; "doi";
                                      "eprint"; "archiveprefix"; "url"]) keys)
    as (keys & -> & Hkeys).
  { unfold emitted, optional_field.
    destruct (present (paper_journal paper)), (present (paper_doi paper)),
      (present (paper_arxiv paper)), (present (paper_url paper));
      (eexists; split; [reflexivity|]);
      repeat (constructor; [set_solver|]); constructor. }
  intros k Hk. apply elem_of_difference in Hk as [Hk Hn].
  rewrite !elem_of_union in Hk. destruct Hk as [Hk|[Hk|[Hk|Hk]]].
  - exfalso. apply Hn. set_solver.
  - exfalso. apply Hn. set_solver.
  - apply elem_of_empty in Hk. contradiction.
  - apply elem_of_list_to_set in Hk. rewrite Forall_forall in Hkeys.
    specialize (Hkeys k Hk). clear -Hkeys. set_unfold. tauto.
Qed.

(** X27.  Formatting, then parsing: for every paper whose id starts with
    a non-space character and has no comma, and whose written field
    values are not empty and contain neither a closing brace nor an at
    sign, parsing the text of [generateBibTeX] gives exactly one entry,
    filed under the id of the paper, with the entry type, the id and the
    written fields (keys in lower case, values trimmed).  The field names
    of such an entry lie among author, title, year, journal, doi, eprint,
    archiveprefix and url. *)
Theorem formatted_paper_parses_back :
  (forall paper,
      well_formed paper ->
      parseBibTeX (generateBibTeX paper) = {[ paper_id paper := parsed_as paper ]})
  /\ (forall paper,
        field_set (parsed_as paper)
        ⊆ {[ "author"; "title"; "year"; "journal"; "doi"; "eprint";
             "archiveprefix"; "url" ]}).
Proof. split; [exact parse_generated | exact parsed_field_set]. Qed.

Lemma not_char_true a c : not_char a c = true -> c <> a.
Proof. unfold not_char. intros H. apply Ascii.eqb_neq, negb_true_iff, H. Qed.

Lemma clean_b_sound v : clean_b v = true -> clean v.
Proof.
  unfold clean_b, clean. destruct (chars v) as [|c l]; [discriminate|].
  intros H. split; [discriminate|].
  apply Forall_forall. intros c' Hin.
  rewrite forallb_forall in H. specialize (H c' (proj1 (list_elem_of_In _ _) Hin)).
  apply andb_prop in H as [H1 H2]. split; apply not_char_true; assumption.
Qed.

Lemma well_formed_b_sound paper : well_formed_b paper = true -> well_formed paper.
Proof.
  unfold well_formed_b, well_formed, plain_id_b, plain_id.
  intros H. apply andb_prop in H as [Hid Hvalues]. split.
  - destruct (chars (paper_id paper)) as [|c l]; [discriminate|].
    apply andb_prop in Hid as [Hc Hall]. split; [apply negb_true_iff, Hc|].
    apply Forall_forall. intros c' Hin. rewrite forallb_forall in Hall.
    apply not_char_true, Hall, list_elem_of_In, Hin.
  - apply Forall_forall. intros kv Hin. rewrite forallb_forall in Hvalues.
    apply clean_b_sound, Hvalues, list_elem_of_In, Hin.
Qed.

Lemma deep_learning_well_formed : well_formed deep_learning.
Proof. apply well_formed_b_sound. vm_compute. reflexivity. Qed.

(** The paper [deep_learning]. *)
Lemma formatted_paper_parses_back_witness :
  well_formed deep_learning
  /\ parseBibTeX (generateBibTeX deep_learning)
     = {[ "deep-learning-nature" := parsed_as deep_learning ]}.
Proof.
  split; [exact deep_learning_well_formed|].
  exact (proj1 formatted_paper_parses_back deep_learning deep_learning_well_formed).
Defined.



(* ===================================================================== *)
(** * Further properties of the conversation store *)
(* ===================================================================== *)

Import ChatStore.

(** ** The sidebar lists *)

Section Sorting.

Context {A : Type} (before : A -> A -> bool).

Lemma insert_sorted_perm x l : insert_sorted before x l ≡ₚ x :: l.
Proof.
  induction l as [|y l IH]; simpl; [reflexivity|].
  destruct (before x y); [reflexivity|].
  rewrite IH. apply Permutation_swap.
Qed.

Lemma stable_sort_perm l : stable_sort before l ≡ₚ l.
Proof.
  induction l as [|x l IH]; simpl; [reflexivity|].
  unfold stable_sort in *. simpl. rewrite insert_sorted_perm, IH. reflexivity.
Qed.

(** Inserting [x] does not disturb the elements that satisfy [P], as long
    as [x] is put before every element of [P] it is ordered before. *)
Lemma filter_insert_sorted (P : A -> Prop) `{forall a, Decision (P a)} x l :
  (forall y, P x -> P y -> before x y = true) ->
  filter P (insert_sorted before x l) = filter P (x :: l).
Proof.
  intros Hxy. induction l as [|y l IH]; simpl; [reflexivity|].
  destruct (before x y) eqn:Hb; [reflexivity|].
  rewrite (filter_cons P y), IH, !filter_cons.
  destruct (decide (P x)) as [Hx|Hx], (decide (P y)) as [Hy|Hy];
    try reflexivity.
  rewrite (Hxy y Hx Hy) in Hb. discriminate.
Qed.

End Sorting.

Lemma insert_newest_first x l :
  newest_first l ->
  newest_first
    (insert_sorted (fun a b => (conv_updatedAt b <=? conv_updatedAt a)%Z) x l).
Proof.
  induction l as [|y l IH]; simpl; intros Hl.
  - split; [constructor|exact I].
  - destruct Hl as [Hy Hl].
    destruct (conv_updatedAt y <=? conv_updatedAt x)%Z eqn:Hb.
    + apply Z.leb_le in Hb. simpl. repeat split; try assumption.
      constructor; [exact Hb|].
      eapply Forall_impl; [exact Hy|]. simpl. intros b Hb'. lia.
    + apply Z.leb_gt in Hb. simpl. split; [|apply IH, Hl].
      rewrite insert_sorted_perm. constructor; [lia|exact Hy].
Qed.

Lemma sorted_newest_first l :
  newest_first
    (stable_sort (fun a b => (conv_updatedAt b <=? conv_updatedAt a)%Z) l).
Proof.
  induction l as [|x l IH]; [exact I|].
  unfold stable_sort in *. simpl. apply insert_newest_first, IH.
Qed.

Lemma sorted_keeps_ties (t : Z) l :
  filter (fun c => conv_updatedAt c = t)
    (stable_sort (fun a b => (conv_updatedAt b <=? conv_updatedAt a)%Z) l)
  = filter (fun c => conv_updatedAt c = t) l.
Proof.
  induction l as [|x l IH]; [reflexivity|].
  unfold stable_sort in *. simpl.
  rewrite filter_insert_sorted.
  - rewrite !filter_cons, IH. reflexivity.
  - intros y Hx Hy. apply Z.leb_le. lia.
Qed.

Lemma sortedConversations_perm_listed s :
  sortedConversations s ≡ₚ snd <$> listed s.
Proof. apply stable_sort_perm. Qed.

Lemma newest_first_filter (P : ChatConversation -> Prop)
    `{forall c, Decision (P c)} l :
  newest_first l -> newest_first (filter P l).
Proof.
  induction l as [|a l IH]; [intros; exact I|].
  intros [Ha Hl]. rewrite filter_cons.
  destruct (decide (P a)); [|apply IH, Hl].
  split; [|apply IH, Hl].
  apply Forall_forall. intros b Hb. apply list_elem_of_filter in Hb as [_ Hb].
  rewrite Forall_forall in Ha. apply Ha, Hb.
Qed.

(** X1.  [sortedConversations] is a rearrangement of the conversation array
    in which no conversation is followed by a more recently updated one, and
    conversations with the same [updatedAt] keep the order they have in the
    array. *)
Theorem sortedConversations_newest_first (s : Store) :
  sortedConversations s ≡ₚ snd <$> listed s
  /\ newest_first (sortedConversations s)
  /\ forall t,
       filter (fun c => conv_updatedAt c = t) (sortedConversations s)
       = filter (fun c => conv_updatedAt c = t) (snd <$> listed s).
Proof.
  unfold sortedConversations. split; [apply stable_sort_perm|].
  split; [apply sorted_newest_first|]. intros t. apply sorted_keeps_ties.
Qed.

Lemma bucket_push mode b conv :
  bucket mode (push_by_mode b conv)
  = bucket mode b ++ (if decide (conv_chatMode conv = mode) then [conv] else []).
Proof.
  unfold push_by_mode.
  destruct (conv_chatMode conv) as [[| |]|], mode as [[| |]|]; simpl;
    rewrite ?app_nil_r; reflexivity.
Qed.

Lemma bucket_foldl mode l : forall b,
  bucket mode (foldl push_by_mode b l)
  = bucket mode b ++ filter (fun conv => conv_chatMode conv = mode) l.
Proof.
  induction l as [|conv l IH]; intros b; simpl.
  - rewrite app_nil_r. reflexivity.
  - rewrite IH, bucket_push, filter_cons, <- app_assoc.
    destruct (decide (conv_chatMode conv = mode)); reflexivity.
Qed.

(** X2.  Every bucket of [conversationsByMode] holds the displayed
    conversations of its mode, in the order of the display list; so
    [currentModeConversations] lists, newest first, exactly the
    conversations of the array that are not temporary and whose frozen mode
    is the mode of the store (those without a mode when the store has
    none). *)
Theorem currentModeConversations_filters_display (s : Store) :
  (forall mode,
      bucket mode (conversationsByMode s)
      = filter (fun conv => conv_chatMode conv = mode) (displayConversations s))
  /\ currentModeConversations s
     = filter (fun conv => conv_chatMode conv = chatMode s) (displayConversations s)
  /\ (forall conv,
        conv ∈ currentModeConversations s
        <-> conv ∈ snd <$> listed s /\ conv_isTemporary conv = false
            /\ conv_chatMode conv = chatMode s)
  /\ newest_first (currentModeConversations s).
Proof.
  assert (Hb : forall mode,
      bucket mode (conversationsByMode s)
      = filter (fun conv => conv_chatMode conv = mode) (displayConversations s)).
  { intros mode. unfold conversationsByMode. rewrite bucket_foldl.
    destruct mode as [[| |]|]; reflexivity. }
  split; [exact Hb|]. split; [apply Hb|]. split.
  - intros conv. unfold currentModeConversations. rewrite Hb.
    unfold displayConversations.
    rewrite !list_elem_of_filter.
    pose proof (sortedConversations_perm_listed s) as Hp.
    rewrite Hp. tauto.
  - unfold currentModeConversations. rewrite Hb. unfold displayConversations.
    apply newest_first_filter, newest_first_filter.
    unfold sortedConversations. apply sorted_newest_first.
Qed.

(** After the session on the initial store, whose mode is normal, the one
    conversation is listed; it is not temporary. *)
Lemma currentModeConversations_filters_display_witness :
  exists w,
    acts session start = Some w
    /\ conv_id <$> currentModeConversations (store w) = ["chat-1000-aaaaaaaaa"]
    /\ forall conv, conv ∈ currentModeConversations (store w) ->
                    conv_isTemporary conv = false
                    /\ conv_chatMode conv = Some normal.
Proof.
  destruct (acts session start) as [w|] eqn:E; [|vm_compute in E; discriminate E].
  exists w. split; [reflexivity|].
  destruct (currentModeConversations_filters_display (store w)) as (_ & _ & H & _).
  split.
  - vm_compute in E. injection E as <-. reflexivity.
  - intros conv Hin. apply H in Hin as (_ & Htmp & Hmode).
    split; [exact Htmp|]. rewrite Hmode.
    vm_compute in E. injection E as <-. reflexivity.
Defined.

(** ** How the actions change the conversation array *)

Lemma listed_ext s s' :
  heap s' = heap s -> conversations s' = conversations s -> listed s' = listed s.
Proof. unfold listed. intros -> ->. reflexivity. Qed.

Lemma listed_alter (f : ChatConversation -> ChatConversation) r s s' :
  heap s' = alter f r (heap s) -> conversations s' = conversations s ->
  listed s'
  = (fun rc => (fst rc, if decide (fst rc = r) then f (snd rc) else snd rc))
      <$> listed s.
Proof.
  unfold listed. intros -> ->.
  induction (conversations s) as [|r0 l IH]; [reflexivity|].
  cbn [omap list_omap]. fold (@omap list _ nat (nat * ChatConversation)).
  rewrite IH. clear IH.
  destruct (decide (r = r0)) as [->|Hne].
  - rewrite list_lookup_alter_eq.
    destruct (heap s !! r0); simpl; [|reflexivity].
    rewrite decide_True by reflexivity. reflexivity.
  - rewrite list_lookup_alter_ne by exact Hne.
    destruct (heap s !! r0); simpl; [|reflexivity].
    rewrite decide_False by congruence. reflexivity.
Qed.

Lemma listed_ids_alter (f : ChatConversation -> ChatConversation) r s s' :
  heap s' = alter f r (heap s) -> conversations s' = conversations s ->
  (forall c, heap s !! r = Some c -> conv_id (f c) = conv_id c) ->
  listed_ids s' = listed_ids s.
Proof.
  intros Hh Hc Hf. unfold listed_ids. rewrite (listed_alter f r s s' Hh Hc).
  rewrite <- list_fmap_compose. apply list_fmap_ext.
  intros j [r0 c] Hin. simpl.
  destruct (decide (r0 = r)) as [->|]; [|reflexivity].
  apply Hf. apply listed_lookup. eapply list_elem_of_lookup_2, Hin.
Qed.

Lemma listed_ids_ext s s' :
  heap s' = heap s -> conversations s' = conversations s ->
  listed_ids s' = listed_ids s.
Proof. intros Hh Hc. unfold listed_ids. rewrite (listed_ext s s' Hh Hc). reflexivity. Qed.

Lemma find_is_Some i s :
  i ∈ listed_ids s <-> is_Some (find_conversation i s).
Proof.
  unfold listed_ids, find_conversation.
  induction (listed s) as [|rc l IH]; simpl.
  - split; [intros H; inversion H|intros [x Hx]; discriminate].
  - unfold has_id at 1. destruct (String.eqb (conv_id (snd rc)) i) eqn:Hid.
    + apply String.eqb_eq in Hid. split; [eauto|]. intros _. rewrite Hid. left.
    + apply String.eqb_neq in Hid. rewrite <- IH. rewrite elem_of_cons.
      split; [intros [->|H]; [congruence|exact H]|auto].
Qed.

Lemma find_has_id i s r c :
  find_conversation i s = Some (r, c) -> conv_id c = i /\ (r, c) ∈ listed s.
Proof.
  intros H. apply find_elem_of in H as [Hin Hid]. split; [|exact Hin].
  apply String.eqb_eq. exact Hid.
Qed.

Lemma current_is_listed_ext s s' :
  listed_ids s' = listed_ids s ->
  currentConversationId s' = currentConversationId s ->
  current_is_listed s -> current_is_listed s'.
Proof. unfold current_is_listed. intros -> ->. auto. Qed.

Lemma conversation_id_truthy e : Js.falsy_opt (Some (conversation_id e)) = false.
Proof. reflexivity. Qed.

Lemma create_lists_new title t e s :
  (length (heap s), new_conversation title t e s)
  ∈ listed (fst (createNewConversation title t e s)).
Proof.
  unfold createNewConversation, listed. cbn [fst heap conversations set_current set_conversations set_heap].
  apply list_elem_of_omap. exists (length (heap s)). split.
  - apply elem_of_app. right. left.
  - rewrite lookup_app_r by lia. rewrite Nat.sub_diag. reflexivity.
Qed.

Lemma create_current_is_listed title t e s :
  current_is_listed (fst (createNewConversation title t e s)).
Proof.
  unfold current_is_listed.
  replace (currentConversationId (fst (createNewConversation title t e s)))
    with (Some (conv_id (new_conversation title t e s))) by reflexivity.
  unfold listed_ids. apply list_elem_of_fmap.
  exists (length (heap s), new_conversation title t e s).
  split; [reflexivity|apply create_lists_new].
Qed.

Lemma update_current_ids f s :
  (forall c, conv_id (f c) = conv_id c) ->
  listed_ids (update_current f s) = listed_ids s
  /\ currentConversationId (update_current f s) = currentConversationId s.
Proof.
  intros Hf. unfold update_current.
  destruct (currentConversation s) as [[r c]|]; [|split; reflexivity].
  split; [|reflexivity].
  apply (listed_ids_alter f r); [reflexivity|reflexivity|auto].
Qed.

(** The shape of the store after the synchronous part of [sendMessage]. *)
Lemma start_shape content e s s1 k :
  sendMessage_start content e s = (s1, Some k) ->
  exists conversation,
    currentConversation (send_store e s) = Some (call_conversation k, conversation)
    /\ heap s1 = <[call_conversation k
                   := after_send content e (chatMode (send_store e s)) conversation]>
                   (heap (send_store e s))
    /\ conversations s1 = conversations (send_store e s)
    /\ currentConversationId s1 = currentConversationId (send_store e s)
    /\ chatMode s1 = chatMode s
    /\ selectedModelId s1 = selectedModelId s
    /\ selectedDomains s1 = selectedDomains s.
Proof.
  unfold sendMessage_start. fold (send_store e s).
  destruct (currentConversation (send_store e s)) as [[r conversation]|] eqn:Hcur;
    [|discriminate].
  intros H. injection H as <- <-. exists conversation. cbn.
  repeat split; unfold send_store; destruct (Js.falsy_opt _); reflexivity.
Qed.

Lemma start_none content e s s1 :
  sendMessage_start content e s = (s1, None) -> s1 = send_store e s.
Proof.
  unfold sendMessage_start. fold (send_store e s).
  destruct (currentConversation (send_store e s)) as [[r conversation]|];
    [discriminate|]. intros H. injection H as <-. reflexivity.
Qed.

Lemma after_send_id content e mode c : conv_id (after_send content e mode c) = conv_id c.
Proof. unfold after_send. simpl. destruct (_ =? _)%nat; reflexivity. Qed.

Lemma after_send_messages content e mode c :
  conv_messages (after_send content e mode c)
  = conv_messages c ++ [userMessage content e; placeholderMessage e].
Proof.
  unfold after_send. simpl. destruct (_ =? _)%nat; simpl;
    rewrite <- app_assoc; reflexivity.
Qed.

Lemma send_store_current_is_listed e s :
  current_is_listed s -> current_is_listed (send_store e s).
Proof.
  intros H. unfold send_store. destruct (Js.falsy_opt _); [|exact H].
  apply create_current_is_listed.
Qed.

Lemma start_current_is_listed content e s s1 ko :
  current_is_listed s -> sendMessage_start content e s = (s1, ko) ->
  current_is_listed s1.
Proof.
  intros Hs Hstart. apply (send_store_current_is_listed e) in Hs.
  destruct ko as [k|].
  - apply start_shape in Hstart as (conversation & Hcur & Hh & Hc & Hi & _).
    refine (current_is_listed_ext _ _ _ Hi Hs).
    rewrite list_insert_alter in Hh.
    apply (listed_ids_alter _ _ _ _ Hh Hc).
    intros c Hc'. apply currentConversation_lookup in Hcur.
    rewrite Hcur in Hc'. injection Hc' as <-. apply after_send_id.
  - apply start_none in Hstart as ->. exact Hs.
Qed.

Lemma resume_ids k o e s :
  listed_ids (sendMessage_resume k o e s) = listed_ids s
  /\ currentConversationId (sendMessage_resume k o e s) = currentConversationId s.
Proof.
  assert (Hcatch : forall err,
    listed_ids (catch_block k err s) = listed_ids s
    /\ currentConversationId (catch_block k err s) = currentConversationId s).
  { intros err. unfold catch_block.
    destruct (is_cancellation err); (split; [|reflexivity]);
      apply (listed_ids_alter
               (fun c => set_messages
                           (remove_placeholder (call_placeholderId k) (conv_messages c)) c)
               (call_conversation k)); reflexivity || auto. }
  destruct o as [[body|err]|err]; simpl; try apply Hcatch.
  - destruct (negb _); (split; [|reflexivity]).
    + apply listed_ids_ext; reflexivity.
    + apply (listed_ids_alter
               (fun c => set_updatedAt (re_updatedAt e)
                           (set_messages
                              (remove_placeholder (call_placeholderId k) (conv_messages c)
                               ++ [assistantMessage body e]) c))
               (call_conversation k)); reflexivity || auto.
  - destruct (negb _); [|apply Hcatch].
    split; [|reflexivity]. apply listed_ids_ext; reflexivity.
Qed.

Lemma select_current_is_listed i s :
  current_is_listed s -> current_is_listed (selectConversation i s).
Proof.
  intros Hs. unfold selectConversation.
  destruct (find_conversation i s) as [[r c]|] eqn:Hf; [|exact Hs].
  unfold current_is_listed. cbn.
  change (i ∈ listed_ids s). apply find_is_Some. rewrite Hf. eauto.
Qed.

Lemma elem_of_delete_other {A} (l : list A) : forall i x y,
  l !! i = Some y -> x ∈ l -> x <> y -> x ∈ delete i l.
Proof.
  induction l as [|a l IH]; intros i x y Hi Hx Hne; [inversion Hx|].
  destruct i as [|i]; simpl in *.
  - injection Hi as ->. apply elem_of_cons in Hx as [->|Hx]; [congruence|exact Hx].
  - apply elem_of_cons in Hx as [->|Hx]; [left|right; eapply IH; eauto].
Qed.

Lemma delete_current_is_listed i s :
  current_is_listed s -> current_is_listed (deleteConversation i s).
Proof.
  intros Hs. unfold deleteConversation.
  destruct (Js.findIndex (has_id i) (listed s)) as [index|] eqn:Hidx; [|exact Hs].
  apply findIndex_lookup in Hidx as (rc & Hrc & Hid).
  assert (Hl : listed (set_conversations (fst <$> delete index (listed s)) s)
               = delete index (listed s)).
  { apply listed_set_conversations. intros x. apply elem_of_delete. }
  unfold current_is_listed in *.
  destruct (currentConversationId s) as [cur|] eqn:Hcur.
  - destruct (String.eqb cur i) eqn:Hci.
    + cbn [currentConversationId set_current].
      unfold listed_ids.
      replace (listed (set_current _ _)) with (delete index (listed s))
        by (symmetry; exact Hl).
      destruct (delete index (listed s)) as [|rc' l']; [exact I|]. left.
    + replace (currentConversationId (set_conversations _ s)) with (Some cur)
        by (symmetry; exact Hcur).
      unfold listed_ids in *. rewrite Hl.
      apply list_elem_of_fmap in Hs as (x & -> & Hx).
      apply list_elem_of_fmap. exists x. split; [reflexivity|].
      apply (elem_of_delete_other _ _ _ rc Hrc Hx).
      intros ->. unfold has_id in Hid. rewrite Hid in Hci. discriminate.
  - replace (currentConversationId (set_conversations _ s)) with (@None string)
      by (symmetry; exact Hcur). exact I.
Qed.

Lemma fire_current_is_listed ev w w' :
  current_is_listed (store w) -> fire ev w = Some w' ->
  current_is_listed (store w').
Proof.
  intros Hw Hfire. destruct ev as [content e|i o e| |title t e|i|i|];
    unfold fire in Hfire.
  - destruct (sendMessage_start content e (store w)) as [s1 ko] eqn:Hstart.
    injection Hfire as <-. cbn [store].
    eapply start_current_is_listed; eauto.
  - destruct (inflight w !! i) as [k|]; [|discriminate].
    destruct (deliverable (store w) k o); [|discriminate].
    injection Hfire as <-. cbn [store].
    destruct (resume_ids k o e (store w)) as [H1 H2].
    exact (current_is_listed_ext _ _ H1 H2 Hw).
  - injection Hfire as <-. exact Hw.
  - injection Hfire as <-. apply create_current_is_listed.
  - injection Hfire as <-. apply select_current_is_listed, Hw.
  - injection Hfire as <-. apply delete_current_is_listed, Hw.
  - injection Hfire as <-. exact Hw.
Qed.

Lemma setSelectedModel_ids m now s :
  listed_ids (setSelectedModel m now s) = listed_ids s
  /\ currentConversationId (setSelectedModel m now s) = currentConversationId s.
Proof.
  unfold setSelectedModel.
  destruct (update_current_ids
              (fun c => set_updatedAt now (set_modelId m c))
              (set_selection m (selectedDomains s) s)) as [H1 H2]; [auto|].
  rewrite H1, H2. split; reflexivity.
Qed.

Lemma act_current_is_listed a w w' :
  current_is_listed (store w) -> act a w = Some w' ->
  current_is_listed (store w').
Proof.
  intros Hw Hact.
  destruct a as [ev|i title now|m now|ws docs now|ds now|mode models now];
    simpl in Hact; [eapply fire_current_is_listed; eauto| | | | |];
    injection Hact as <-; cbn [store on_store];
    refine (current_is_listed_ext _ _ _ _ Hw).
  - unfold updateConversationTitle.
    destruct (find_conversation i (store w)) as [[r c]|]; [|reflexivity].
    apply (listed_ids_alter (fun c => set_updatedAt now (set_title title c)) r);
      reflexivity || auto.
  - unfold updateConversationTitle.
    destruct (find_conversation i (store w)) as [[r c]|]; reflexivity.
  - apply setSelectedModel_ids.
  - apply setSelectedModel_ids.
  - apply update_current_ids. auto.
  - apply update_current_ids. auto.
  - unfold setSelectedDomains.
    destruct (update_current_ids
                (fun c => set_updatedAt now (set_domains ds c))
                (set_selection (selectedModelId (store w)) ds (store w)))
      as [H1 _]; [auto|]. rewrite H1. reflexivity.
  - unfold setSelectedDomains.
    destruct (update_current_ids
                (fun c => set_updatedAt now (set_domains ds c))
                (set_selection (selectedModelId (store w)) ds (store w)))
      as [_ H2]; [auto|]. rewrite H2. reflexivity.
  - unfold setChatMode. destruct mode as [[| |]|]; try reflexivity.
    destruct (filter _ models); [reflexivity|].
    destruct (setSelectedModel_ids
                (mi_id (default m (Js.find (fun m0 => String.eqb (mi_id m0) "sonar") (m :: l))))
                now (set_chatMode (Some internet) (store w))) as [H1 _].
    rewrite H1. reflexivity.
  - unfold setChatMode. destruct mode as [[| |]|]; try reflexivity.
    destruct (filter _ models); [reflexivity|].
    destruct (setSelectedModel_ids
                (mi_id (default m (Js.find (fun m0 => String.eqb (mi_id m0) "sonar") (m :: l))))
                now (set_chatMode (Some internet) (store w))) as [_ H2].
    rewrite H2. reflexivity.
Qed.

Lemma acts_current_is_listed l : forall w w',
  current_is_listed (store w) -> acts l w = Some w' ->
  current_is_listed (store w').
Proof.
  induction l as [|a l IH]; simpl; intros w w' Hw Hacts.
  - injection Hacts as <-. exact Hw.
  - destruct (act a w) as [w1|] eqn:Hact; [|discriminate].
    eapply IH; [|exact Hacts]. eapply act_current_is_listed; eauto.
Qed.

Lemma send_is_issued content e s :
  current_is_listed s ->
  exists s1 k, sendMessage_start content e s = (s1, Some k).
Proof.
  intros Hs. apply (send_store_current_is_listed e) in Hs.
  unfold sendMessage_start. fold (send_store e s).
  assert (Hcur : is_Some (currentConversation (send_store e s))).
  { unfold currentConversation.
    destruct (Js.falsy_opt (currentConversationId (send_store e s))) eqn:Hf.
    - unfold send_store in Hf.
      destruct (Js.falsy_opt (currentConversationId s)) eqn:Hf0.
      + discriminate Hf.
      + rewrite Hf0 in Hf. discriminate.
    - unfold current_is_listed in Hs.
      destruct (currentConversationId (send_store e s)) as [i|]; [|discriminate].
      apply find_is_Some, Hs. }
  destruct Hcur as [[r conversation] ->]. eauto.
Qed.

(** X3.  In every store that the actions of the store produce from a store
    whose current id is the id of a listed conversation (the initial store
    is one), the current id is again the id of a listed conversation; so
    [sendMessage] never takes its silent early [return]: it issues a
    request and the user message is in the conversation of that request. *)
Theorem sendMessage_is_never_dropped (l : list Action) (w0 w : World) :
  current_is_listed (store w0) -> acts l w0 = Some w ->
  current_is_listed (store w)
  /\ forall content e,
       exists s1 k,
         sendMessage_start content e (store w) = (s1, Some k)
         /\ userMessage content e ∈ messages_of (call_conversation k) s1.
Proof.
  intros Hw0 Hacts.
  pose proof (acts_current_is_listed l w0 w Hw0 Hacts) as Hw.
  split; [exact Hw|]. intros content e.
  destruct (send_is_issued content e (store w) Hw) as (s1 & k & Hstart).
  exists s1, k. split; [exact Hstart|].
  apply start_messages in Hstart as [_ Hm]. rewrite Hm.
  rewrite decide_True by reflexivity.
  apply elem_of_app. right. left.
Qed.

(** A session with a send, a change of model, a temporary conversation
    that is deleted again, and the reply. *)
Lemma sendMessage_is_never_dropped_witness :
  current_is_listed (store start)
  /\ exists w,
       acts session start = Some w
       /\ current_is_listed (store w)
       /\ exists s1 k,
            sendMessage_start "b" (send_env 4000 "ddddddddd") (store w) = (s1, Some k)
            /\ userMessage "b" (send_env 4000 "ddddddddd")
               ∈ messages_of (call_conversation k) s1.
Proof.
  split; [exact I|].
  destruct (acts session start) as [w|] eqn:E; [|vm_compute in E; discriminate E].
  exists w. split; [reflexivity|].
  destruct (sendMessage_is_never_dropped session start w I E) as [H1 H2].
  split; [exact H1|apply H2].
Defined.

(** ** The per-conversation selection *)

Lemma find_fmap i (g : nat * ChatConversation -> nat * ChatConversation) l :
  (forall rc, has_id i (g rc) = has_id i rc) ->
  Js.find (has_id i) (g <$> l) = g <$> Js.find (has_id i) l.
Proof.
  intros Hg. induction l as [|rc l IH]; [reflexivity|].
  simpl. rewrite Hg. destruct (has_id i rc); [reflexivity|exact IH].
Qed.

Lemma currentConversation_find s r c :
  currentConversation s = Some (r, c) ->
  currentConversationId s = Some (conv_id c)
  /\ find_conversation (conv_id c) s = Some (r, c).
Proof.
  unfold currentConversation. destruct (Js.falsy_opt _); [discriminate|].
  destruct (currentConversationId s) as [i|]; [|discriminate].
  intros H. destruct (find_has_id _ _ _ _ H) as [<- _]. split; [reflexivity|exact H].
Qed.

Lemma find_update i r f s r0 c :
  (forall c, conv_id (f c) = conv_id c) ->
  find_conversation i s = Some (r0, c) ->
  find_conversation i (update_conversation r f s)
  = Some (r0, if decide (r0 = r) then f c else c).
Proof.
  intros Hf Hfind. unfold find_conversation in *.
  rewrite (listed_alter f r s (update_conversation r f s)) by reflexivity.
  rewrite find_fmap, Hfind; [reflexivity|].
  intros [r1 c1]. unfold has_id. simpl. destruct (decide (r1 = r)); [|reflexivity].
  rewrite Hf. reflexivity.
Qed.

Lemma find_update_current f s r c :
  (forall c, conv_id (f c) = conv_id c) ->
  currentConversation s = Some (r, c) ->
  find_conversation (conv_id c) (update_current f s) = Some (r, f c).
Proof.
  intros Hf Hcur. unfold update_current. rewrite Hcur.
  destruct (currentConversation_find s r c Hcur) as [_ Hfind].
  rewrite (find_update _ r f s r c Hf Hfind).
  rewrite decide_True by reflexivity. reflexivity.
Qed.

Lemma find_select i j s :
  find_conversation i (selectConversation j s) = find_conversation i s.
Proof.
  unfold find_conversation. f_equal. apply listed_ext.
  - apply heap_select.
  - unfold selectConversation. destruct (find_conversation j s) as [[? ?]|]; reflexivity.
Qed.

(** X4.  The model and the domain filter chosen while a conversation is
    current are stored in the conversation and come back when the
    conversation is selected again, whatever conversation has been selected
    in between. *)
Theorem selection_is_restored_on_select (s : Store) r c :
  currentConversation s = Some (r, c) ->
  (forall modelId now j,
      selectedModelId
        (selectConversation (conv_id c)
           (selectConversation j (setSelectedModel modelId now s)))
      = modelId)
  /\ (forall domains now j,
        selectedDomains
          (selectConversation (conv_id c)
             (selectConversation j (setSelectedDomains domains now s)))
        = domains).
Proof.
  intros Hcur. split.
  - intros modelId now j. unfold selectConversation at 1.
    rewrite find_select. unfold setSelectedModel.
    rewrite (find_update_current
               (fun c => set_updatedAt now (set_modelId modelId c))
               (set_selection modelId (selectedDomains s) s) r c); auto.
  - intros domains now j. unfold selectConversation at 1.
    rewrite find_select. unfold setSelectedDomains.
    rewrite (find_update_current
               (fun c => set_updatedAt now (set_domains domains c))
               (set_selection (selectedModelId s) domains s) r c); auto.
Qed.

(** On the three conversations: the model chosen for the third one is
    back after a visit to the first. *)
Lemma selection_is_restored_on_select_witness :
  exists r c,
    currentConversation three_conversations = Some (r, c)
    /\ selectedModelId
         (selectConversation (conv_id c)
            (selectConversation "chat-1000-aaaaaaaaa"
               (setSelectedModel "sonar" 4000 three_conversations)))
       = "sonar".
Proof.
  destruct (currentConversation three_conversations) as [[r c]|] eqn:E;
    [|vm_compute in E; discriminate E].
  exists r, c. split; [reflexivity|].
  destruct (selection_is_restored_on_select three_conversations r c E) as [H _].
  apply H.
Defined.

(** ** The first message *)

Lemma length_append (a b : string) :
  String.length (a +:+ b) = (String.length a + String.length b)%nat.
Proof. induction a as [|x a IH]; simpl; [reflexivity|]. rewrite IH. reflexivity. Qed.

Lemma length_substring n : forall s : string,
  (String.length (substring 0 n s) <= n)%nat.
Proof.
  induction n as [|n IH]; intros [|x s]; simpl; try lia.
  specialize (IH s). lia.
Qed.

Lemma first_title_length content : (String.length (first_title content) <= 53)%nat.
Proof.
  unfold first_title. destruct (50 <? String.length content)%nat eqn:H.
  - rewrite length_append. pose proof (length_substring 50 content). simpl. lia.
  - apply Nat.ltb_ge in H. lia.
Qed.

Lemma after_send_first content e mode c :
  conv_messages c = [] ->
  conv_chatMode (after_send content e mode c) = mode
  /\ conv_chatModeLocked (after_send content e mode c) = true
  /\ conv_isTemporary (after_send content e mode c) = false
  /\ conv_title (after_send content e mode c) = first_title content.
Proof. unfold after_send. simpl. intros ->. simpl. repeat split. Qed.

Lemma after_send_later content e mode c :
  conv_messages c <> [] ->
  conv_chatMode (after_send content e mode c) = conv_chatMode c
  /\ conv_chatModeLocked (after_send content e mode c) = conv_chatModeLocked c
  /\ conv_isTemporary (after_send content e mode c) = conv_isTemporary c
  /\ conv_title (after_send content e mode c) = conv_title c.
Proof.
  intros Hne. unfold after_send.
  cbn [conv_messages set_updatedAt set_messages].
  destruct (length (conv_messages c ++ [userMessage content e]) =? 1)%nat eqn:E.
  - apply Nat.eqb_eq in E. rewrite length_app in E. simpl in E.
    destruct (conv_messages c); [congruence|simpl in E; lia].
  - simpl. repeat split.
Qed.

Lemma after_send_settled content e mode c :
  has_settled_message (after_send content e mode c).
Proof.
  unfold has_settled_message. rewrite after_send_messages.
  apply Exists_app. right. left. apply user_id_is_not_placeholder.
Qed.

Lemma send_store_chatMode e s : chatMode (send_store e s) = chatMode s.
Proof. unfold send_store. destruct (Js.falsy_opt _); reflexivity. Qed.

Lemma send_store_messages e s r :
  messages_of r (send_store e s) = messages_of r s.
Proof.
  unfold send_store. destruct (Js.falsy_opt _); [|reflexivity].
  apply messages_of_create.
Qed.

Lemma start_listed content e s s1 k :
  sendMessage_start content e s = (s1, Some k) ->
  exists c1,
    heap s1 !! call_conversation k = Some c1
    /\ (call_conversation k, c1) ∈ listed s1
    /\ exists conversation,
         currentConversation (send_store e s) = Some (call_conversation k, conversation)
         /\ c1 = after_send content e (chatMode s) conversation
         /\ conv_messages conversation = messages_of (call_conversation k) s.
Proof.
  intros Hstart.
  apply start_shape in Hstart as (conversation & Hcur & Hh & Hc & _).
  rewrite send_store_chatMode in Hh.
  pose proof (currentConversation_lookup _ _ _ Hcur) as Hlook.
  exists (after_send content e (chatMode s) conversation). split; [|split].
  - rewrite Hh. apply list_lookup_insert_eq. eapply lookup_lt_Some, Hlook.
  - rewrite list_insert_alter in Hh.
    rewrite (listed_alter _ _ _ _ Hh Hc).
    apply list_elem_of_fmap. exists (call_conversation k, conversation).
    simpl. rewrite decide_True by reflexivity. split; [reflexivity|].
    destruct (currentConversation_find _ _ _ Hcur) as [_ Hfind].
    apply (find_has_id _ _ _ _ Hfind).
  - exists conversation. split; [exact Hcur|]. split; [reflexivity|].
    rewrite <- (send_store_messages e s). unfold messages_of. rewrite Hlook.
    reflexivity.
Qed.

(** X5.  The first message sent in a conversation freezes it: the
    conversation takes the mode of the store and is locked, it is no longer
    temporary and therefore shows in the sidebar ([displayConversations]),
    and its title is the message, cut to fifty characters and an ellipsis
    when it is longer, hence never longer than 53 characters. *)
Theorem first_message_freezes_conversation content e s s1 k :
  sendMessage_start content e s = (s1, Some k) ->
  messages_of (call_conversation k) s = [] ->
  exists c1,
    heap s1 !! call_conversation k = Some c1
    /\ conv_chatMode c1 = chatMode s
    /\ conv_chatModeLocked c1 = true
    /\ conv_isTemporary c1 = false
    /\ conv_title c1 = first_title content
    /\ (String.length (conv_title c1) <= 53)%nat
    /\ c1 ∈ displayConversations s1.
Proof.
  intros Hstart Hempty.
  destruct (start_listed _ _ _ _ _ Hstart)
    as (c1 & Hlook & Hlisted & conversation & _ & -> & Hmsgs).
  rewrite Hempty in Hmsgs.
  destruct (after_send_first content e (chatMode s) conversation Hmsgs)
    as (Hmode & Hlock & Htmp & Htitle).
  eexists. split; [exact Hlook|]. repeat split; try assumption.
  - rewrite Htitle. apply first_title_length.
  - unfold displayConversations. apply list_elem_of_filter. split; [exact Htmp|].
    rewrite sortedConversations_perm_listed.
    apply list_elem_of_fmap. eexists. split; [|exact Hlisted]. reflexivity.
Qed.

(** A temporary conversation receives its first message. *)
Lemma first_message_freezes_conversation_witness :
  let s := fst (createNewConversation None true (create_env 1000 "aaaaaaaaa") initial) in
  exists s1 k,
    sendMessage_start "hello" (send_env 2000 "bbbbbbbbb") s = (s1, Some k)
    /\ temporary_conversations s <> []
    /\ exists c1,
         heap s1 !! call_conversation k = Some c1
         /\ conv_isTemporary c1 = false
         /\ c1 ∈ displayConversations s1.
Proof.
  intros s.
  destruct (sendMessage_start "hello" (send_env 2000 "bbbbbbbbb") s)
    as [s1 [k|]] eqn:E; [|vm_compute in E; discriminate E].
  exists s1, k. split; [reflexivity|]. split; [vm_compute; discriminate|].
  assert (Hempty : messages_of (call_conversation k) s = []).
  { vm_compute in E. injection E as <- <-. reflexivity. }
  destruct (first_message_freezes_conversation "hello" _ s s1 k E Hempty)
    as (c1 & H1 & _ & _ & H2 & _ & _ & H3).
  exists c1. auto.
Defined.

(** ** The frozen mode *)

Lemma keeps_frozen_refl c : has_settled_message c -> keeps_frozen c c.
Proof. intros H. repeat split. exact H. Qed.

Lemma keeps_frozen_trans c c' c'' :
  keeps_frozen c c' -> keeps_frozen c' c'' -> keeps_frozen c c''.
Proof.
  intros (H1 & H2 & H3 & H4 & _) (H1' & H2' & H3' & H4' & H5).
  repeat split; congruence || assumption.
Qed.

Lemma alter_keeps_frozen (f : ChatConversation -> ChatConversation) r0
    (h h' : list ChatConversation) r c :
  h' = alter f r0 h -> h !! r = Some c -> has_settled_message c ->
  (r = r0 -> keeps_frozen c (f c)) ->
  exists c', h' !! r = Some c' /\ keeps_frozen c c'.
Proof.
  intros -> Hr Hc Hf. destruct (decide (r = r0)) as [->|Hne].
  - exists (f c). rewrite list_lookup_alter_eq, Hr. split; [reflexivity|auto].
  - exists c. rewrite list_lookup_alter_ne by congruence.
    split; [exact Hr|apply keeps_frozen_refl, Hc].
Qed.

Lemma same_keeps_frozen (h h' : list ChatConversation) r c :
  h' = h -> h !! r = Some c -> has_settled_message c ->
  exists c', h' !! r = Some c' /\ keeps_frozen c c'.
Proof. intros -> Hr Hc. exists c. split; [exact Hr|apply keeps_frozen_refl, Hc]. Qed.

Lemma settled_after_remove pid msgs tail :
  is_placeholder_id pid = true ->
  Exists (fun m => is_placeholder_id (msg_id m) = false) msgs ->
  Exists (fun m => is_placeholder_id (msg_id m) = false)
         (remove_placeholder pid msgs ++ tail).
Proof.
  intros Hpid H. apply Exists_exists in H as (m & Hin & Hm).
  apply Exists_exists. exists m. split; [|exact Hm].
  apply elem_of_app. left. apply remove_placeholder_keeps; [exact Hin|].
  intros Heq. rewrite Heq, Hpid in Hm. discriminate.
Qed.

Lemma update_current_keeps_frozen f s r c :
  (forall c, has_settled_message c -> keeps_frozen c (f c)) ->
  heap s !! r = Some c -> has_settled_message c ->
  exists c', heap (update_current f s) !! r = Some c' /\ keeps_frozen c c'.
Proof.
  intros Hf Hr Hc. unfold update_current.
  destruct (currentConversation s) as [[r0 c0]|].
  - apply (alter_keeps_frozen f r0 (heap s)); auto.
  - apply (same_keeps_frozen (heap s)); auto.
Qed.

Lemma resume_keeps_frozen k o e s r c :
  is_placeholder_id (call_placeholderId k) = true ->
  heap s !! r = Some c -> has_settled_message c ->
  exists c', heap (sendMessage_resume k o e s) !! r = Some c' /\ keeps_frozen c c'.
Proof.
  intros Hpid Hr Hc.
  assert (Hcatch : forall err,
    exists c', heap (catch_block k err s) !! r = Some c' /\ keeps_frozen c c').
  { intros err.
    apply (alter_keeps_frozen
             (fun c => set_messages
                         (remove_placeholder (call_placeholderId k) (conv_messages c)) c)
             (call_conversation k) (heap s)); auto.
    - unfold catch_block. destruct (is_cancellation err); reflexivity.
    - intros _. repeat split. unfold has_settled_message. simpl.
      rewrite <- (app_nil_r (remove_placeholder _ _)).
      apply settled_after_remove; assumption. }
  destruct o as [[body|err]|err]; simpl; try apply Hcatch.
  - destruct (negb _).
    + apply (same_keeps_frozen (heap s)); auto.
    + apply (alter_keeps_frozen
               (fun c => set_updatedAt (re_updatedAt e)
                           (set_messages
                              (remove_placeholder (call_placeholderId k) (conv_messages c)
                               ++ [assistantMessage body e]) c))
               (call_conversation k) (heap s)); auto.
      intros _. repeat split. unfold has_settled_message. simpl.
      apply settled_after_remove; assumption.
  - destruct (negb _); [|apply Hcatch].
    apply (same_keeps_frozen (heap s)); auto.
Qed.

Lemma send_store_lookup e s r c :
  heap s !! r = Some c -> heap (send_store e s) !! r = Some c.
Proof.
  intros Hr. unfold send_store. destruct (Js.falsy_opt _); [|exact Hr].
  unfold createNewConversation. cbn. apply lookup_app_l_Some, Hr.
Qed.

Lemma start_keeps_frozen content e s s1 ko r c :
  sendMessage_start content e s = (s1, ko) ->
  heap s !! r = Some c -> has_settled_message c ->
  exists c', heap s1 !! r = Some c' /\ keeps_frozen c c'.
Proof.
  intros Hstart Hr Hc. apply (send_store_lookup e) in Hr.
  destruct ko as [k|].
  - apply start_shape in Hstart as (conversation & Hcur & Hh & _).
    rewrite list_insert_alter in Hh.
    apply (alter_keeps_frozen _ _ _ _ _ _ Hh Hr Hc).
    intros ->. apply currentConversation_lookup in Hcur.
    rewrite Hcur in Hr. injection Hr as ->.
    assert (Hne : conv_messages c <> []).
    { intros Hnil. unfold has_settled_message in Hc. rewrite Hnil in Hc.
      inversion Hc. }
    destruct (after_send_later content e (chatMode (send_store e s)) c Hne)
      as (H1 & H2 & H3 & _).
    repeat split; try assumption.
    + apply after_send_id.
    + apply after_send_settled.
  - apply start_none in Hstart as ->.
    apply (same_keeps_frozen (heap (send_store e s))); auto.
Qed.

Lemma fire_keeps_frozen ev w w' r c :
  calls_hold_placeholders (inflight w) -> fire ev w = Some w' ->
  heap (store w) !! r = Some c -> has_settled_message c ->
  exists c', heap (store w') !! r = Some c' /\ keeps_frozen c c'.
Proof.
  intros Hks Hfire Hr Hc.
  destruct ev as [content e|i o e| |title t e|i|i|]; unfold fire in Hfire.
  - destruct (sendMessage_start content e (store w)) as [s1 ko] eqn:Hstart.
    injection Hfire as <-. cbn [store]. eapply start_keeps_frozen; eauto.
  - destruct (inflight w !! i) as [k|] eqn:Hk; [|discriminate].
    destruct (deliverable (store w) k o); [|discriminate].
    injection Hfire as <-. cbn [store].
    apply resume_keeps_frozen; auto.
    unfold calls_hold_placeholders in Hks. rewrite Forall_forall in Hks.
    apply Hks. eapply list_elem_of_lookup_2, Hk.
  - injection Hfire as <-. apply (same_keeps_frozen (heap (store w))); auto.
  - injection Hfire as <-. exists c. split; [|apply keeps_frozen_refl, Hc].
    unfold createNewConversation. cbn. apply lookup_app_l_Some, Hr.
  - injection Hfire as <-.
    apply (same_keeps_frozen (heap (store w))); auto. apply heap_select.
  - injection Hfire as <-.
    apply (same_keeps_frozen (heap (store w))); auto. apply heap_delete.
  - injection Hfire as <-. apply (same_keeps_frozen (heap (store w))); auto.
Qed.

Lemma act_keeps_frozen a w w' r c :
  calls_hold_placeholders (inflight w) -> act a w = Some w' ->
  heap (store w) !! r = Some c -> has_settled_message c ->
  calls_hold_placeholders (inflight w')
  /\ exists c', heap (store w') !! r = Some c' /\ keeps_frozen c c'.
Proof.
  intros Hks Hact Hr Hc.
  destruct a as [ev|i title now|m now|ws docs now|ds now|mode models now];
    simpl in Hact.
  - split; [eapply fire_keeps_calls; eauto|eapply fire_keeps_frozen; eauto].
  - injection Hact as <-. split; [exact Hks|]. cbn [store on_store].
    unfold updateConversationTitle.
    destruct (find_conversation i (store w)) as [[r0 c0]|].
    + apply (alter_keeps_frozen
               (fun c => set_updatedAt now (set_title title c)) r0 (heap (store w)));
        auto.
      intros _. repeat split. exact Hc.
    + apply (same_keeps_frozen (heap (store w))); auto.
  - injection Hact as <-. split; [exact Hks|]. cbn [store on_store].
    apply update_current_keeps_frozen; auto. intros c0 Hc0. repeat split. exact Hc0.
  - injection Hact as <-. split; [exact Hks|]. cbn [store on_store].
    apply update_current_keeps_frozen; auto. intros c0 Hc0. repeat split. exact Hc0.
  - injection Hact as <-. split; [exact Hks|]. cbn [store on_store].
    apply update_current_keeps_frozen; auto. intros c0 Hc0. repeat split. exact Hc0.
  - injection Hact as <-. split; [exact Hks|]. cbn [store on_store].
    unfold setChatMode.
    assert (Hsame : exists c', heap (set_chatMode mode (store w)) !! r = Some c'
                               /\ keeps_frozen c c')
      by (apply (same_keeps_frozen (heap (store w))); auto).
    destruct mode as [[| |]|]; try exact Hsame.
    destruct (filter _ models); [exact Hsame|].
    apply update_current_keeps_frozen; auto. intros c0 Hc0. repeat split. exact Hc0.
Qed.

Lemma acts_keep_frozen l : forall w w' r c,
  calls_hold_placeholders (inflight w) -> acts l w = Some w' ->
  heap (store w) !! r = Some c -> has_settled_message c ->
  exists c', heap (store w') !! r = Some c' /\ keeps_frozen c c'.
Proof.
  induction l as [|a l IH]; simpl; intros w w' r c Hks Hacts Hr Hc.
  - injection Hacts as <-. exists c. split; [exact Hr|apply keeps_frozen_refl, Hc].
  - destruct (act a w) as [w1|] eqn:Hact; [|discriminate].
    destruct (act_keeps_frozen a w w1 r c Hks Hact Hr Hc) as (Hks1 & c1 & Hr1 & Hk1).
    destruct (IH w1 w' r c1 Hks1 Hacts Hr1 (proj2 (proj2 (proj2 (proj2 Hk1)))))
      as (c' & Hr' & Hk').
    exists c'. split; [exact Hr'|]. eapply keeps_frozen_trans; eauto.
Qed.

(** X6.  Once a conversation holds a message that is not a placeholder (its
    first user message, for one), no action of the store changes its frozen
    mode, its lock or its temporary flag again, whatever the mode of the
    store becomes: [setChatMode] changes the mode of the store only, and a
    later send finds the conversation non-empty. *)
Theorem frozen_mode_survives_every_action (l : list Action) (w0 w : World) r c :
  calls_hold_placeholders (inflight w0) ->
  heap (store w0) !! r = Some c -> has_settled_message c ->
  acts l w0 = Some w ->
  exists c',
    heap (store w) !! r = Some c'
    /\ conv_chatMode c' = conv_chatMode c
    /\ conv_chatModeLocked c' = conv_chatModeLocked c
    /\ conv_isTemporary c' = conv_isTemporary c
    /\ has_settled_message c'.
Proof.
  intros Hks Hr Hc Hacts.
  destruct (acts_keep_frozen l w0 w r c Hks Hacts Hr Hc)
    as (c' & Hr' & _ & H2 & H3 & H4 & H5).
  exists c'. auto.
Qed.

(** A message is sent in normal mode; the store is switched to internet
    mode and a second message is sent: the conversation stays a normal
    one. *)
Lemma frozen_mode_survives_every_action_witness :
  exists w0 c w,
    acts [Page (Send "a" (send_env 1000 "aaaaaaaaa"))] start = Some w0
    /\ heap (store w0) !! 0%nat = Some c
    /\ acts [SetMode (Some internet) [] 1500;
             Page (Send "b" (send_env 2000 "bbbbbbbbb"))] w0 = Some w
    /\ chatMode (store w) = Some internet
    /\ exists c', heap (store w) !! 0%nat = Some c'
                  /\ conv_chatMode c' = Some normal.
Proof.
  destruct (acts [Page (Send "a" (send_env 1000 "aaaaaaaaa"))] start)
    as [w0|] eqn:E0; [|vm_compute in E0; discriminate E0].
  destruct (heap (store w0) !! 0%nat) as [c|] eqn:Ec.
  2:{ vm_compute in E0. injection E0 as <-. vm_compute in Ec. discriminate Ec. }
  destruct (acts [SetMode (Some internet) [] 1500;
                  Page (Send "b" (send_env 2000 "bbbbbbbbb"))] w0)
    as [w|] eqn:E.
  2:{ vm_compute in E0. injection E0 as <-. vm_compute in E. discriminate E. }
  exists w0, c, w. split; [reflexivity|]. split; [exact Ec|]. split; [exact E|].
  assert (Hks : calls_hold_placeholders (inflight w0)).
  { vm_compute in E0. injection E0 as <-. repeat constructor. }
  assert (Hc : has_settled_message c /\ conv_chatMode c = Some normal).
  { vm_compute in E0. injection E0 as <-. vm_compute in Ec. injection Ec as <-.
    split; [left|]; reflexivity. }
  destruct (frozen_mode_survives_every_action _ w0 w 0%nat c Hks Ec (proj1 Hc) E)
    as (c' & Hr' & Hm & _).
  split.
  - vm_compute in E0. injection E0 as <-. vm_compute in E. injection E as <-.
    reflexivity.
  - exists c'. split; [exact Hr'|]. rewrite Hm. exact (proj2 Hc).
Defined.

(** ** The request *)

Lemma take_all_but_two {A} (l : list A) a b :
  take (length (l ++ [a; b]) - 2) (l ++ [a; b]) = l.
Proof.
  rewrite length_app. simpl.
  replace (length l + 2 - 2)%nat with (length l) by lia.
  apply take_app_length.
Qed.

(** X7.  What a send hands to the backend: the conversation history is the
    role and content of every message the conversation held before the
    call (the new user message and its placeholder are left out); the
    model, mode and domain filter are those of the store; and the request
    is registered: its id is active, its controller is the one queued for
    the conversation and is not aborted, the store is loading and carries
    no error. *)
Theorem sendMessage_registers_request content e s s1 k :
  sendMessage_start content e s = (s1, Some k) ->
  req_conversation_history (call_request k)
  = (fun m => (msg_role m, msg_content m)) <$> messages_of (call_conversation k) s
  /\ req_message (call_request k) = content
  /\ req_model_id (call_request k) = selectedModelId s
  /\ req_chat_mode (call_request k) = chatMode s
  /\ req_selected_domains (call_request k) = selectedDomains s
  /\ req_signal (call_request k) = call_controller k
  /\ call_requestId k ∈ activeRequests s1
  /\ aborted s1 (call_controller k) = false
  /\ (exists c, heap s1 !! call_conversation k = Some c
                /\ requestQueue s1 !! conv_id c = Some (call_controller k))
  /\ isLoading s1 = true /\ error s1 = None.
Proof.
  intros Hstart.
  destruct (start_listed _ _ _ _ _ Hstart)
    as (c1 & Hlook & _ & conversation & Hcur & Hc1 & Hmsgs).
  pose proof (send_store_chatMode e s) as Hmode.
  assert (Hsel : selectedModelId (send_store e s) = selectedModelId s
                 /\ selectedDomains (send_store e s) = selectedDomains s).
  { unfold send_store. destruct (Js.falsy_opt _); split; reflexivity. }
  destruct Hsel as [Hsm Hsd].
  unfold sendMessage_start in Hstart. fold (send_store e s) in Hstart.
  rewrite Hcur in Hstart. injection Hstart as <- <-.
  cbn [call_request call_conversation call_requestId call_controller
       req_conversation_history req_message req_model_id req_chat_mode
       req_selected_domains req_signal].
  split.
  { rewrite <- Hmsgs.
    transitivity
      ((fun m => (msg_role m, msg_content m))
         <$> take (length (conv_messages
                             (after_send content e (chatMode (send_store e s))
                                         conversation)) - 2)
                  (conv_messages
                     (after_send content e (chatMode (send_store e s)) conversation)));
      [reflexivity|].
    rewrite after_send_messages, take_all_but_two. reflexivity. }
  split; [reflexivity|]. split; [exact Hsm|]. split; [exact Hmode|].
  split; [exact Hsd|]. split; [reflexivity|].
  split; [cbn; set_solver|].
  split.
  { unfold aborted. cbn. rewrite lookup_app_r by lia.
    rewrite Nat.sub_diag. reflexivity. }
  split.
  { exists c1. split; [exact Hlook|]. rewrite Hc1, after_send_id. cbn.
    apply lookup_insert_eq. }
  split; reflexivity.
Qed.

(** The second of two overlapping sends carries the first user message and
    the placeholder of the first call as its history. *)
Lemma sendMessage_registers_request_witness :
  exists w s1 k,
    run [Send "a" (send_env 1000 "aaaaaaaaa")] start = Some w
    /\ sendMessage_start "b" (send_env 2000 "bbbbbbbbb") (store w) = (s1, Some k)
    /\ req_conversation_history (call_request k) = [(user, "a"); (assistant, "...")]
    /\ aborted s1 (call_controller k) = false.
Proof.
  destruct (run [Send "a" (send_env 1000 "aaaaaaaaa")] start) as [w|] eqn:E;
    [|vm_compute in E; discriminate E].
  destruct (sendMessage_start "b" (send_env 2000 "bbbbbbbbb") (store w))
    as [s1 [k|]] eqn:Es.
  2:{ vm_compute in E. injection E as <-. vm_compute in Es. discriminate Es. }
  exists w, s1, k. split; [reflexivity|]. split; [exact Es|].
  destruct (sendMessage_registers_request _ _ _ _ _ Es)
    as (Hh & _ & _ & _ & _ & _ & _ & Ha & _).
  split; [|exact Ha]. rewrite Hh.
  vm_compute in E. injection E as <-. vm_compute in Es. injection Es as <- <-.
  reflexivity.
Defined.

(** ** Cancelling *)

Lemma foldr_abort_keeps l : forall ctl c,
  default false (ctl !! c) = true ->
  default false (foldr abort ctl l !! c) = true.
Proof.
  induction l as [|c0 l IH]; intros ctl c H; simpl; [exact H|].
  unfold abort at 1. specialize (IH ctl c H).
  destruct (decide (c0 = c)) as [->|Hne].
  - destruct (foldr abort ctl l !! c) eqn:E; [|discriminate IH].
    rewrite list_lookup_insert_eq; [reflexivity|]. eapply lookup_lt_Some, E.
  - rewrite list_lookup_insert_ne by exact Hne. exact IH.
Qed.

Lemma foldr_abort_length l ctl : length (foldr abort ctl l) = length ctl.
Proof.
  induction l as [|c0 l IH]; simpl; [reflexivity|].
  unfold abort at 1. rewrite length_insert. exact IH.
Qed.

Lemma foldr_abort_aborts l : forall ctl c,
  c ∈ l -> (c < length ctl)%nat ->
  default false (foldr abort ctl l !! c) = true.
Proof.
  induction l as [|c0 l IH]; intros ctl c Hin Hlt; [inversion Hin|].
  simpl. unfold abort at 1.
  destruct (decide (c0 = c)) as [->|Hne].
  - rewrite list_lookup_insert_eq; [reflexivity|].
    rewrite foldr_abort_length. exact Hlt.
  - rewrite list_lookup_insert_ne by exact Hne. apply IH; [|exact Hlt].
    apply elem_of_cons in Hin as [->|Hin]; [congruence|exact Hin].
Qed.

Lemma sublist_remove_placeholder pid msgs :
  remove_placeholder pid msgs `sublist_of` msgs.
Proof.
  unfold remove_placeholder. destruct (Js.findIndex _ _); [|reflexivity].
  apply sublist_delete.
Qed.

(** X8.  [cancelActiveRequests] aborts every controller that the request
    queue names and un-aborts none, empties the queue and the set of active
    requests, clears the loading flag and touches no message; and whatever
    reaches a suspended call afterwards, a reply or a rejection, adds no
    message to any conversation. *)
Theorem cancelActiveRequests_stops_every_request (s : Store) :
  (forall cid c, requestQueue s !! cid = Some c ->
                 (c < length (controllers s))%nat ->
                 aborted (cancelActiveRequests s) c = true)
  /\ (forall c, aborted s c = true -> aborted (cancelActiveRequests s) c = true)
  /\ requestQueue (cancelActiveRequests s) = ∅
  /\ hasActiveRequests (cancelActiveRequests s) = false
  /\ isLoading (cancelActiveRequests s) = false
  /\ (forall r, messages_of r (cancelActiveRequests s) = messages_of r s)
  /\ (forall k o e r,
        messages_of r (sendMessage_resume k o e (cancelActiveRequests s))
        `sublist_of` messages_of r s).
Proof.
  split; [|split; [|split; [|split; [|split; [|split]]]]].
  - intros cid c Hq Hlt. unfold aborted, cancelActiveRequests. cbn.
    apply foldr_abort_aborts; [|exact Hlt].
    apply list_elem_of_fmap. exists (cid, c). split; [reflexivity|].
    apply elem_of_map_to_list. exact Hq.
  - intros c Hc. unfold aborted, cancelActiveRequests. cbn.
    apply foldr_abort_keeps. exact Hc.
  - reflexivity.
  - unfold hasActiveRequests, cancelActiveRequests. cbn. rewrite size_empty.
    reflexivity.
  - reflexivity.
  - intros r. reflexivity.
  - intros k o e r.
    assert (Hcatch : forall err,
      messages_of r (catch_block k err (cancelActiveRequests s))
      `sublist_of` messages_of r s).
    { intros err.
      replace (messages_of r (catch_block k err (cancelActiveRequests s)))
        with (messages_of r
                (update_conversation (call_conversation k)
                   (fun c => set_messages
                               (remove_placeholder (call_placeholderId k)
                                                   (conv_messages c)) c)
                   (cancelActiveRequests s)))
        by (unfold catch_block; destruct (is_cancellation err); reflexivity).
      rewrite messages_of_update.
      destruct (decide (r = call_conversation k)) as [->|]; [|reflexivity].
      unfold messages_of. cbn [heap cancelActiveRequests set_isLoading set_requests].
      destruct (heap s !! call_conversation k); [|reflexivity].
      apply sublist_remove_placeholder. }
    destruct o as [[body|err]|err]; simpl; try apply Hcatch.
    + rewrite bool_decide_eq_false_2 by set_solver. reflexivity.
    + rewrite bool_decide_eq_false_2 by set_solver. reflexivity.
Qed.

(** Two conversations with a request in flight each: both controllers are
    aborted. *)
Lemma cancelActiveRequests_stops_every_request_witness :
  exists w,
    run [Send "a" (send_env 1000 "aaaaaaaaa");
         Create None false (create_env 2000 "bbbbbbbbb");
         Send "b" (send_env 3000 "ccccccccc")] start = Some w
    /\ requestQueue (store w) !! "chat-1000-aaaaaaaaa" = Some 0%nat
    /\ requestQueue (store w) !! "chat-2000-bbbbbbbbb" = Some 1%nat
    /\ aborted (store w) 0 = false
    /\ aborted (cancelActiveRequests (store w)) 0 = true
    /\ aborted (cancelActiveRequests (store w)) 1 = true.
Proof.
  destruct (run [Send "a" (send_env 1000 "aaaaaaaaa");
                 Create None false (create_env 2000 "bbbbbbbbb");
                 Send "b" (send_env 3000 "ccccccccc")] start) as [w|] eqn:E;
    [|vm_compute in E; discriminate E].
  exists w. split; [reflexivity|].
  assert (H : requestQueue (store w) !! "chat-1000-aaaaaaaaa" = Some 0%nat
              /\ requestQueue (store w) !! "chat-2000-bbbbbbbbb" = Some 1%nat
              /\ aborted (store w) 0 = false
              /\ (0 < length (controllers (store w)))%nat
              /\ (1 < length (controllers (store w)))%nat).
  { vm_compute in E. injection E as <-. vm_compute. repeat split; lia. }
  destruct H as (H0 & H1 & Ha & L0 & L1).
  destruct (cancelActiveRequests_stops_every_request (store w)) as (Habort & _).
  repeat split; try assumption.
  - exact (Habort _ _ H0 L0).
  - exact (Habort _ _ H1 L1).
Defined.

(** ** Failures *)

Lemma or_else_nonempty o d : d <> "" -> Js.or_else o d <> "".
Proof.
  intros Hd. unfold Js.or_else. destruct o as [t|]; [|exact Hd].
  unfold Js.truthy. destruct (String.eqb t "") eqn:E; simpl; [exact Hd|].
  apply String.eqb_neq. exact E.
Qed.

Lemma error_text_nonempty err : error_text err <> "".
Proof. unfold error_text. apply or_else_nonempty, or_else_nonempty. discriminate. Qed.

(** X9.  A request that fails other than by cancellation or timeout, be it
    rejected or answered with [success: false] while still active, leaves a
    non-empty text in the error slot, clears the loading flag and removes
    the request id from the active set; the fall-back text is used when the
    failure carries no message. *)
Theorem failed_send_reports_an_error k env s :
  (forall err,
      is_cancellation err = false ->
      exists t, error (sendMessage_resume k (Rejected err) env s) = Some t
                /\ t <> "")
  /\ (forall err,
        call_requestId k ∈ activeRequests s ->
        exists t,
          error (sendMessage_resume k (Resolved (Failure err)) env s) = Some t
          /\ t <> "" /\ (err = None -> t = "Failed to send message"))
  /\ (forall o,
        isLoading (sendMessage_resume k o env s) = false
        /\ call_requestId k ∉ activeRequests (sendMessage_resume k o env s)).
Proof.
  split; [|split].
  - intros err Hc. exists (error_text err). split; [|apply error_text_nonempty].
    simpl. unfold catch_block. rewrite Hc. reflexivity.
  - intros err Hact. simpl. rewrite bool_decide_eq_true_2 by exact Hact. simpl.
    exists (error_text (new_Error (Js.or_else err "Failed to send message"))).
    split; [reflexivity|]. split; [apply error_text_nonempty|].
    intros ->. reflexivity.
  - intros o.
    assert (Hfin : forall s0,
      isLoading (finally_block k s0) = false
      /\ call_requestId k ∉ activeRequests (finally_block k s0)).
    { intros s0. split; [reflexivity|]. cbn.
      rewrite elem_of_difference, elem_of_singleton. tauto. }
    destruct o as [[body|err]|err]; simpl; unfold catch_block;
      repeat match goal with |- context [if ?b then _ else _] => destruct b end;
      apply Hfin.
Qed.

Lemma start_active content e s s1 k :
  sendMessage_start content e s = (s1, Some k) ->
  call_requestId k ∈ activeRequests s1.
Proof.
  unfold sendMessage_start.
  destruct (currentConversation _) as [[r c]|]; [|discriminate].
  intros H. injection H as <- <-. cbn. set_solver.
Qed.

(** A send on the initial store is answered with [success: false] and no
    message. *)
Lemma failed_send_reports_an_error_witness :
  exists s1 k,
    sendMessage_start "a" (send_env 1000 "aaaaaaaaa") initial = (s1, Some k)
    /\ call_requestId k ∈ activeRequests s1
    /\ error (sendMessage_resume k (Resolved (Failure None)) (mkResumeEnv 2000 2000) s1)
       = Some "Failed to send message"
    /\ exists t,
         error (sendMessage_resume k (Rejected (new_Error "Network Error"))
                                   (mkResumeEnv 2000 2000) s1) = Some t
         /\ t <> "".
Proof.
  destruct (sendMessage_start "a" (send_env 1000 "aaaaaaaaa") initial)
    as [s1 [k|]] eqn:E; [|vm_compute in E; discriminate E].
  exists s1, k. split; [reflexivity|].
  pose proof (start_active _ _ _ _ _ E) as Hact.
  split; [exact Hact|].
  destruct (failed_send_reports_an_error k (mkResumeEnv 2000 2000) s1)
    as (Hrej & Hfail & _).
  split.
  - destruct (Hfail None Hact) as (t & Ht & _ & Hd). rewrite Ht, (Hd eq_refl).
    reflexivity.
  - apply Hrej. reflexivity.
Defined.

(** ** The sidebar after a send *)

Lemma after_send_updatedAt content e mode c :
  conv_updatedAt (after_send content e mode c) = se_userUpdatedAt e.
Proof. unfold after_send. simpl. destruct (_ =? _)%nat; reflexivity. Qed.

(** X10.  When a message is sent at a time later than the last update of
    every other conversation, its conversation comes first in
    [sortedConversations]. *)
Theorem sent_conversation_moves_to_top content e s s1 k :
  sendMessage_start content e s = (s1, Some k) ->
  (forall r' c', (r', c') ∈ listed s1 -> r' <> call_conversation k ->
                 (conv_updatedAt c' < se_userUpdatedAt e)%Z) ->
  head (sortedConversations s1) = heap s1 !! call_conversation k.
Proof.
  intros Hstart Hothers.
  destruct (start_listed _ _ _ _ _ Hstart)
    as (c1 & Hlook & Hlisted & conversation & _ & Hc1 & _).
  assert (Hupd : conv_updatedAt c1 = se_userUpdatedAt e)
    by (rewrite Hc1; apply after_send_updatedAt).
  rewrite Hlook.
  pose proof (sortedConversations_perm_listed s1) as Hperm.
  pose proof (sorted_newest_first (snd <$> listed s1)) as Hsorted.
  fold (sortedConversations s1) in Hsorted.
  assert (Hin : c1 ∈ sortedConversations s1).
  { rewrite Hperm. apply list_elem_of_fmap. eexists. split; [|exact Hlisted].
    reflexivity. }
  destruct (sortedConversations s1) as [|h t]; [inversion Hin|].
  simpl. f_equal.
  assert (Hh : h ∈ snd <$> listed s1) by (rewrite <- Hperm; left).
  apply list_elem_of_fmap in Hh as ([r' c'] & -> & Hrc). simpl in *.
  destruct (decide (r' = call_conversation k)) as [->|Hne].
  - apply listed_lookup in Hrc. congruence.
  - specialize (Hothers r' c' Hrc Hne).
    destruct Hsorted as [Hle _]. rewrite Forall_forall in Hle.
    apply elem_of_cons in Hin as [->|Hin]; [reflexivity|].
    specialize (Hle c1 Hin). lia.
Qed.

(** On the three conversations, with the first one selected. *)
Lemma sent_conversation_moves_to_top_witness :
  let s := selectConversation "chat-1000-aaaaaaaaa" three_conversations in
  exists s1 k,
    sendMessage_start "a" (send_env 4000 "ddddddddd") s = (s1, Some k)
    /\ conv_id <$> head (sortedConversations s) = Some "chat-3000-ccccccccc"
    /\ conv_id <$> head (sortedConversations s1) = Some "chat-1000-aaaaaaaaa".
Proof.
  intros s.
  destruct (sendMessage_start "a" (send_env 4000 "ddddddddd") s)
    as [s1 [k|]] eqn:E; [|vm_compute in E; discriminate E].
  exists s1, k. split; [reflexivity|]. split; [reflexivity|].
  rewrite (sent_conversation_moves_to_top _ _ _ _ _ E).
  - vm_compute in E. injection E as <- <-. reflexivity.
  - intros r' c' Hin Hne.
    vm_compute in E. injection E as <- <-.
    vm_compute in Hin. cbn in Hne.
    repeat (apply elem_of_cons in Hin as [Hin|Hin];
            [injection Hin as -> ->; try congruence; reflexivity|]).
    inversion Hin.
Defined.

(** ** Creating and deleting *)

Lemma fst_listed s :
  Forall (fun r => (r < length (heap s))%nat) (conversations s) ->
  fst <$> listed s = conversations s.
Proof.
  unfold listed. induction (conversations s) as [|r l IH]; intros H; [reflexivity|].
  apply Forall_cons in H as [Hr Hl].
  cbn [omap list_omap]. fold (@omap list _ nat (nat * ChatConversation)).
  destruct (lookup_lt_is_Some_2 _ _ Hr) as [c Hc]. rewrite Hc.
  cbn [fmap option_fmap option_map]. rewrite fmap_cons, (IH Hl). reflexivity.
Qed.

Lemma findIndex_app_fresh {A} (p : A -> bool) (l : list A) x :
  Forall (fun y => p y = false) l -> p x = true ->
  Js.findIndex p (l ++ [x]) = Some (length l).
Proof.
  induction 1 as [|y l Hy Hl IH]; intros Hx; simpl.
  - rewrite Hx. reflexivity.
  - rewrite Hy, (IH Hx). reflexivity.
Qed.

Lemma delete_last {A} (l : list A) x : delete (length l) (l ++ [x]) = l.
Proof. induction l as [|y l IH]; simpl; [reflexivity|]. rewrite IH. reflexivity. Qed.

(** X24.  Creating a conversation and deleting it again, in a store whose
    array holds no dangling reference and no conversation with the new id,
    gives the conversation array back; but the current conversation is
    then the first of the array, not the one that was current before. *)
Theorem create_then_delete_restores_the_array title e (s : Store) :
  Forall (fun r => (r < length (heap s))%nat) (conversations s) ->
  conversation_id e ∉ listed_ids s ->
  let s1 := deleteConversation (conversation_id e)
              (fst (createNewConversation title false e s)) in
  listed s1 = listed s
  /\ currentConversationId s1
     = (fun rc => conv_id (snd rc)) <$> head (listed s).
Proof.
  intros Hrefs Hfresh s1.
  set (c := new_conversation title false e s).
  set (s0 := fst (createNewConversation title false e s)).
  assert (Hl0 : listed s0 = listed s ++ [(length (heap s), c)]).
  { unfold s0, createNewConversation. cbn [fst].
    rewrite <- (fst_listed s Hrefs) at 1.
    apply listed_after_push. intros r c'. apply listed_lookup. }
  assert (Hidx : Js.findIndex (has_id (conversation_id e)) (listed s0)
                 = Some (length (listed s))).
  { rewrite Hl0. apply findIndex_app_fresh.
    - apply Forall_forall. intros rc Hin. unfold has_id.
      apply String.eqb_neq. intros Heq. apply Hfresh. unfold listed_ids.
      apply list_elem_of_fmap. exists rc. auto.
    - unfold has_id. apply String.eqb_eq. reflexivity. }
  assert (Hrem : delete (length (listed s)) (listed s0) = listed s)
    by (rewrite Hl0; apply delete_last).
  assert (Hl1 : listed (set_conversations (fst <$> listed s) s0) = listed s).
  { apply listed_set_conversations. intros rc Hin. rewrite Hl0.
    apply elem_of_app. left. exact Hin. }
  unfold s1, deleteConversation. fold s0. rewrite Hidx, Hrem.
  replace (currentConversationId s0) with (Some (conversation_id e)) by reflexivity.
  rewrite String.eqb_refl. split.
  - exact Hl1.
  - cbn [currentConversationId set_current]. destruct (listed s); reflexivity.
Qed.

(** On the three conversations, of which the third is current: a fourth
    one is created and deleted, and the first one is current. *)
Lemma create_then_delete_restores_the_array_witness :
  let s1 := deleteConversation "chat-4000-ddddddddd"
              (fst (createNewConversation None false (create_env 4000 "ddddddddd")
                      three_conversations)) in
  currentConversationId three_conversations = Some "chat-3000-ccccccccc"
  /\ listed s1 = listed three_conversations
  /\ currentConversationId s1 = Some "chat-1000-aaaaaaaaa".
Proof.
  intros s1. split; [reflexivity|].
  destruct (create_then_delete_restores_the_array
              None (create_env 4000 "ddddddddd") three_conversations)
    as [Hl Hc].
  - vm_compute. repeat constructor.
  - vm_compute. intros H.
    repeat (apply elem_of_cons in H as [H|H]; [discriminate H|]). inversion H.
  - split; [exact Hl|]. etransitivity; [exact Hc|reflexivity].
Defined.


(* ===================================================================== *)
(** * Further properties of the chat pane *)
(* ===================================================================== *)

Import Regex ChatPane.

(** ** Validation and conversion of the inline bytes *)

(** X11.  [isValidBase64] accepts exactly the strings that consist of
    base64 digits followed by at most two padding characters and whose
    length is a multiple of four; in particular it accepts no string with
    white space or with a padding character before a digit. *)
Theorem isValidBase64_accepts_padded_digits (s : list ascii) :
  (isValidBase64 s = true
   <-> exists x pad, s = x ++ pad /\ digits x /\ padding pad
                     /\ ((length x + length pad) mod 4 = 0)%nat)
  /\ (isValidBase64 s = true ->
      Forall (fun c => is_base64_char c = true \/ c = "="%char) s
      /\ (length s mod 4 = 0)%nat /\ (pad_count s <= 2)%nat).
Proof.
  split; [apply isValidBase64_spec|].
  intros H. apply isValidBase64_spec in H as (x & pad & -> & Hx & Hpad & Hlen).
  split; [|split].
  - apply Forall_app. split.
    + eapply Forall_impl; [exact Hx|]. auto.
    + destruct Hpad as [-> | [-> | ->]];
        repeat (constructor; [right; reflexivity|]); constructor.
  - rewrite length_app. exact Hlen.
  - rewrite pad_count_valid by assumption.
    destruct Hpad as [-> | [-> | ->]]; simpl; lia.
Qed.

(** An accepted and a refused string of four characters. *)
Lemma isValidBase64_accepts_padded_digits_witness :
  isValidBase64 (chars "QQ==") = true
  /\ (exists x pad, chars "QQ==" = x ++ pad /\ digits x /\ padding pad
                    /\ ((length x + length pad) mod 4 = 0)%nat)
  /\ (pad_count (chars "QQ==") <= 2)%nat
  /\ isValidBase64 (chars "Q=Q=") = false.
Proof.
  assert (Hv : isValidBase64 (chars "QQ==") = true) by reflexivity.
  destruct (isValidBase64_accepts_padded_digits (chars "QQ==")) as [Hiff H].
  destruct (H Hv) as (_ & _ & Hp).
  split; [exact Hv|]. split; [apply Hiff, Hv|]. split; [exact Hp|reflexivity].
Defined.

Lemma convert_short x pad :
  digits x -> padding pad -> ((length x + length pad) mod 4 = 0)%nat ->
  (Z.of_nat (length (x ++ pad)) <= 1000000)%Z ->
  base64ToUint8Array (x ++ pad) = Some (decode_digits (digit_values x)).
Proof.
  intros Hx Hpad Hlen Hshort. unfold base64ToUint8Array.
  destruct (padding_chars pad Hpad) as [Hchars _].
  rewrite filter_keeps_all.
  2:{ apply Forall_app. split.
      - eapply Forall_impl; [exact Hx|]. intros c Hc. apply digit_not_space, Hc.
      - eapply Forall_impl; [exact Hchars|]. intros c [_ Hc]. exact Hc. }
  rewrite padEnd_aligned by (rewrite length_app; exact Hlen).
  destruct (Z.ltb_spec 1000000 (Z.of_nat (length (x ++ pad)))) as [Hlt|_]; [lia|].
  rewrite (proj1 (chunked_valid x pad Hx Hpad Hlen)). reflexivity.
Qed.

Lemma decoded_length x pad :
  digits x -> padding pad -> ((length x + length pad) mod 4 = 0)%nat ->
  (length (decode_digits (digit_values x)) + length pad
   = 3 * ((length x + length pad) / 4))%nat.
Proof.
  intros Hx Hpad Hlen.
  destruct (chunk_step_valid [] (3 * ((length x + length pad) / 4)) x pad
              Hx Hpad Hlen (le_n _)) as [_ H].
  exact H.
Qed.

(** X12.  Once [isValidBase64] has accepted the inline string, the
    conversion cannot fail: [base64ToUint8Array] returns a buffer, of
    three bytes for every four characters; for a string of at most
    1,000,000 characters the buffer is the one [atob] decodes, one byte
    shorter for each padding character.  So the inline path never throws
    its conversion error. *)
Theorem valid_base64_always_converts :
  (forall s, isValidBase64 s = true ->
     exists bytes,
       base64ToUint8Array s = Some bytes
       /\ (length bytes <= 3 * (length s / 4))%nat)
  /\ (forall s, isValidBase64 s = true ->
        (Z.of_nat (length s) <= 1000000)%Z ->
        exists bytes,
          atob s = Some bytes
          /\ base64ToUint8Array s = Some bytes
          /\ (length bytes + pad_count s = 3 * (length s / 4))%nat)
  /\ (forall sourceData fetched v,
        loadDocumentViaBase64 sourceData fetched v <> Throw ConversionFailed).
Proof.
  assert (Hconv : forall s, isValidBase64 s = true ->
     exists bytes,
       base64ToUint8Array s = Some bytes
       /\ (length bytes <= 3 * (length s / 4))%nat).
  { intros s H. apply isValidBase64_spec in H as (x & pad & -> & Hx & Hpad & Hlen).
    pose proof (decoded_length x pad Hx Hpad Hlen) as Hd.
    destruct (Z.ltb_spec 1000000 (Z.of_nat (length (x ++ pad)))) as [Hlong|Hshort].
    - rewrite (dispatch_long x pad Hx Hpad Hlen Hlong). eexists. split; [reflexivity|].
      rewrite !length_app, length_replicate. lia.
    - rewrite (convert_short x pad Hx Hpad Hlen Hshort). eexists.
      split; [reflexivity|]. rewrite length_app. lia. }
  split; [exact Hconv|]. split.
  - intros s H Hshort.
    apply isValidBase64_spec in H as (x & pad & -> & Hx & Hpad & Hlen).
    exists (decode_digits (digit_values x)). split; [|split].
    + apply atob_valid; assumption.
    + apply convert_short; assumption.
    + rewrite pad_count_valid by assumption. rewrite length_app.
      apply decoded_length; assumption.
  - intros sourceData fetched v. unfold loadDocumentViaBase64.
    destruct fetched as [response|]; [|discriminate].
    destruct (negb (vr_ok response)); [discriminate|].
    destruct (negb (opt_includes _ _)); [discriminate|].
    destruct (vr_json response) as [data|]; [|discriminate].
    destruct (vd_use_download data || _); [discriminate|].
    destruct (Js.falsy_opt _); [discriminate|].
    destruct (_ <? _)%Z; [discriminate|].
    destruct (isValidBase64 _) eqn:Hvalid; [|discriminate]. simpl.
    destruct (Hconv _ Hvalid) as (bytes & -> & _).
    unfold open_converted. destruct (_ || _); discriminate.
Qed.

(** The eight inline bytes [%PDF-1.4], sent with one padding character. *)
Lemma valid_base64_always_converts_witness :
  isValidBase64 (chars "JVBERi0xLjQ=") = true
  /\ (Z.of_nat (length (chars "JVBERi0xLjQ=")) <= 1000000)%Z
  /\ exists bytes,
       atob (chars "JVBERi0xLjQ=") = Some bytes
       /\ base64ToUint8Array (chars "JVBERi0xLjQ=") = Some bytes
       /\ (length bytes + 1 = 9)%nat.
Proof.
  assert (Hv : isValidBase64 (chars "JVBERi0xLjQ=") = true) by reflexivity.
  assert (Hs : (Z.of_nat (length (chars "JVBERi0xLjQ=")) <= 1000000)%Z)
    by (vm_compute; discriminate).
  split; [exact Hv|]. split; [exact Hs|].
  destruct valid_base64_always_converts as (_ & H & _).
  destruct (H _ Hv Hs) as (bytes & H1 & H2 & H3).
  exists bytes. split; [exact H1|]. split; [exact H2|]. exact H3.
Defined.

(** ** Grouping the search results by document *)

Lemma distinct_snoc `{EqDecision A} (l : list A) x :
  distinct (l ++ [x])
  = if decide (x ∈ distinct l) then distinct l else distinct l ++ [x].
Proof. unfold distinct. rewrite foldl_app. reflexivity. Qed.

Lemma distinct_spec `{EqDecision A} (l : list A) :
  NoDup (distinct l) /\ forall x, x ∈ distinct l <-> x ∈ l.
Proof.
  induction l as [|x l [IHn IHe]] using rev_ind.
  - split; [constructor|reflexivity].
  - rewrite distinct_snoc. destruct (decide (x ∈ distinct l)) as [Hin|Hnin].
    + split; [exact IHn|]. intros y. rewrite elem_of_app, list_elem_of_singleton, IHe.
      split; [auto|]. intros [H| ->]; [exact H|]. apply IHe, Hin.
    + split.
      * apply NoDup_app. split; [exact IHn|]. split; [|apply NoDup_singleton].
        intros y Hy Hy'. apply list_elem_of_singleton in Hy' as ->. auto.
      * intros y. rewrite !elem_of_app, IHe. reflexivity.
Qed.

Lemma documentMap_snoc results result :
  documentMap (results ++ [result])
  = map_push (doc_id (sr_document result)) result (documentMap results).
Proof. unfold documentMap. rewrite foldl_app. reflexivity. Qed.

(** Pushing into a map whose keys are distinct. *)
Lemma map_push_keys k result (g : string -> list SearchResult) keys :
  NoDup keys ->
  map_push k result ((fun i => (i, g i)) <$> keys)
  = if decide (k ∈ keys)
    then (fun i => (i, if decide (i = k) then g i ++ [result] else g i)) <$> keys
    else ((fun i => (i, g i)) <$> keys) ++ [(k, [result])].
Proof.
  induction keys as [|i keys IH]; intros Hnd; [reflexivity|].
  apply NoDup_cons in Hnd as [Hi Hnd]. rewrite !fmap_cons. cbn [map_push].
  destruct (String.eqb i k) eqn:Hik.
  - apply String.eqb_eq in Hik as ->.
    rewrite (decide_True (P := k ∈ k :: keys)) by left.
    rewrite (decide_True (P := k = k)) by reflexivity.
    f_equal. apply list_fmap_ext. intros j i Hj.
    rewrite decide_False; [reflexivity|].
    intros ->. apply Hi. eapply list_elem_of_lookup_2, Hj.
  - apply String.eqb_neq in Hik. rewrite (IH Hnd).
    rewrite (decide_False (P := i = k)) by exact Hik.
    destruct (decide (k ∈ keys)) as [Hin|Hnin].
    + rewrite decide_True by (right; exact Hin). reflexivity.
    + rewrite decide_False; [reflexivity|].
      intros H. apply elem_of_cons in H as [->|H]; [congruence|auto].
Qed.

Lemma filter_snoc {A} (P : A -> Prop) `{forall x, Decision (P x)} l x :
  filter P (l ++ [x]) = filter P l ++ (if decide (P x) then [x] else []).
Proof.
  rewrite filter_app. reflexivity.
Qed.

Lemma documentMap_groups (results : list SearchResult) :
  documentMap results
  = (fun i => (i, filter (fun r => doc_id (sr_document r) = i) results))
      <$> distinct (document_ids results).
Proof.
  induction results as [|result results IH] using rev_ind; [reflexivity|].
  rewrite documentMap_snoc, IH. clear IH.
  destruct (distinct_spec (document_ids results)) as [Hnd Helem].
  rewrite (map_push_keys _ _
             (fun i => filter (fun r => doc_id (sr_document r) = i) results) _ Hnd).
  replace (document_ids (results ++ [result]))
    with (document_ids results ++ [doc_id (sr_document result)])
    by (unfold document_ids; rewrite fmap_app; reflexivity).
  rewrite distinct_snoc.
  destruct (decide (doc_id (sr_document result) ∈ distinct (document_ids results)))
    as [Hin|Hnin].
  - apply list_fmap_ext. intros j i _. rewrite filter_snoc.
    destruct (decide (i = doc_id (sr_document result))) as [->|Hne].
    + rewrite decide_True by reflexivity. reflexivity.
    + rewrite decide_False by congruence. rewrite app_nil_r. reflexivity.
  - rewrite fmap_app. simpl. f_equal.
    + apply list_fmap_ext. intros j i Hj. rewrite filter_snoc.
      rewrite decide_False; [rewrite app_nil_r; reflexivity|].
      intros Heq. apply Hnin. rewrite Heq. eapply list_elem_of_lookup_2, Hj.
    + rewrite filter_snoc. rewrite decide_True by reflexivity.
      rewrite filter_none; [reflexivity|].
      intros r Hr Heq. apply Hnin, Helem.
      unfold document_ids. apply list_elem_of_fmap. exists r. auto.
Qed.

Lemma documentGroups_nonempty results :
  Forall (fun g => g <> []) (documentGroups results).
Proof.
  unfold documentGroups. rewrite documentMap_groups, <- list_fmap_compose.
  apply Forall_fmap, Forall_forall. intros i Hi. simpl.
  apply (proj2 (distinct_spec (document_ids results))) in Hi.
  apply list_elem_of_fmap in Hi as (r & -> & Hr).
  intros Hnil.
  assert (Hin : r ∈ filter (fun r0 => doc_id (sr_document r0) = doc_id (sr_document r))
                       results)
    by (apply list_elem_of_filter; auto).
  rewrite Hnil in Hin. inversion Hin.
Qed.

Lemma map_push_concat k r m :
  concat (snd <$> map_push k r m) ≡ₚ r :: concat (snd <$> m).
Proof.
  induction m as [|[k' g] m IH]; simpl; [reflexivity|].
  destruct (String.eqb k' k); simpl.
  - rewrite <- app_assoc. simpl. symmetry. apply Permutation_middle.
  - rewrite IH. symmetry. apply Permutation_middle.
Qed.

Lemma documentGroups_perm results : concat (documentGroups results) ≡ₚ results.
Proof.
  unfold documentGroups.
  induction results as [|r results IH] using rev_ind; [reflexivity|].
  rewrite documentMap_snoc, map_push_concat, IH.
  apply Permutation_cons_append.
Qed.

(** X13.  [documentMap] has one entry for every document id that occurs in
    the search results, in the order in which the ids are first seen; the
    entry of an id holds the results of that document, in their order.  So
    no group is empty, and the groups together hold every result once. *)
Theorem documentMap_groups_by_first_seen_id (results : list SearchResult) :
  documentMap results
  = (fun i => (i, filter (fun r => doc_id (sr_document r) = i) results))
      <$> distinct (document_ids results)
  /\ NoDup (fst <$> documentMap results)
  /\ Forall (fun g => g <> []) (documentGroups results)
  /\ concat (documentGroups results) ≡ₚ results.
Proof.
  pose proof (documentMap_groups results) as Hmap.
  destruct (distinct_spec (document_ids results)) as [Hnd Helem].
  split; [exact Hmap|]. split; [|split].
  - rewrite Hmap, <- list_fmap_compose. simpl.
    rewrite list_fmap_id. exact Hnd.
  - apply documentGroups_nonempty.
  - apply documentGroups_perm.
Qed.

(** ** Binding a click to a result *)

Lemma find_filter i results :
  Js.find (fun r => String.eqb (doc_id (sr_document r)) i) results
  = head (filter (fun r => doc_id (sr_document r) = i) results).
Proof.
  induction results as [|r results IH]; [reflexivity|].
  simpl. rewrite filter_cons.
  destruct (String.eqb (doc_id (sr_document r)) i) eqn:E.
  - apply String.eqb_eq in E. rewrite decide_True by exact E. reflexivity.
  - apply String.eqb_neq in E. rewrite decide_False by exact E. exact IH.
Qed.

Lemma at_index_lookup {A} (l : list A) (i : Z) :
  at_index l (i - 1)
  = if (i <? 1)%Z then None else l !! Z.to_nat (i - 1).
Proof.
  unfold at_index.
  destruct (Z.ltb_spec (i - 1) 0), (Z.ltb_spec i 1); try reflexivity; lia.
Qed.

(** X14.  A click on the marker of document [docIndex] is bound to the
    first message of the conversation that has search results; there the
    index counts, from one, the distinct document ids in the order in which
    they are first seen, and the click opens the first result of that
    document and highlights its text.  An index below one or beyond the
    number of documents does nothing. *)
Theorem document_link_binds_by_first_seen_id docIndex msgs net p m :
  Js.find has_search_results msgs = Some m ->
  match (if (docIndex <? 1)%Z then None
         else distinct (document_ids (default [] (msg_searchResults m)))
              !! Z.to_nat (docIndex - 1)) with
  | Some i =>
      exists sourceData,
        Js.find (fun r => String.eqb (doc_id (sr_document r)) i)
                (default [] (msg_searchResults m)) = Some sourceData
        /\ handleDocumentLinkClick docIndex (Some msgs) net p
           = ({| highlightText := sr_text sourceData;
                 highlightPage := page_or_1 (sr_page sourceData);
                 viewer := fst (loadDocumentForSource sourceData (net i) (viewer p)) |},
              snd (loadDocumentForSource sourceData (net i) (viewer p)))
  | None => handleDocumentLinkClick docIndex (Some msgs) net p = (p, None)
  end.
Proof.
  intros Hfind. unfold handleDocumentLinkClick. simpl. rewrite Hfind.
  rewrite at_index_lookup. destruct (docIndex <? 1)%Z; [reflexivity|].
  unfold documentGroups. rewrite documentMap_groups, <- list_fmap_compose.
  rewrite list_lookup_fmap.
  destruct (distinct _ !! _) as [i|] eqn:Hi; simpl; [|reflexivity].
  rewrite find_filter.
  destruct (filter _ _) as [|sourceData rest] eqn:Hf.
  - exfalso.
    apply list_elem_of_lookup_2 in Hi.
    apply (proj1 (proj2 (distinct_spec _) i)) in Hi.
    apply list_elem_of_fmap in Hi as (r & -> & Hr).
    assert (Hin : r ∈ filter (fun r0 => doc_id (sr_document r0) = doc_id (sr_document r))
                         (default [] (msg_searchResults m)))
      by (apply list_elem_of_filter; auto).
    rewrite Hf in Hin. inversion Hin.
  - exists sourceData. split; [reflexivity|].
    assert (Hid : doc_id (sr_document sourceData) = i).
    { assert (Hin : sourceData ∈ filter (fun r => doc_id (sr_document r) = i)
                                  (default [] (msg_searchResults m)))
        by (rewrite Hf; left).
      apply list_elem_of_filter in Hin as [Hin _]. exact Hin. }
    rewrite Hid. destruct (loadDocumentForSource _ _ _). reflexivity.
Qed.

(** Results of two documents: marker 2 opens the first result of the
    second document, marker 3 does nothing. *)
Lemma document_link_binds_by_first_seen_id_witness :
  let net := fun _ : string => serving "JVBERi0xLjQ=" [] in
  Js.find has_search_results [answer_with mixed_results]
  = Some (answer_with mixed_results)
  /\ highlightText
       (fst (handleDocumentLinkClick 2 (Some [answer_with mixed_results]) net closed_pane))
     = "masked language model"
  /\ handleDocumentLinkClick 3 (Some [answer_with mixed_results]) net closed_pane
     = (closed_pane, None).
Proof.
  intros net.
  assert (Hfind : Js.find has_search_results [answer_with mixed_results]
                  = Some (answer_with mixed_results)) by reflexivity.
  split; [exact Hfind|]. split.
  - pose proof (document_link_binds_by_first_seen_id 2 _ net closed_pane _ Hfind) as H.
    assert (Hi : (if (2 <? 1)%Z then None
                  else distinct (document_ids
                                   (default [] (msg_searchResults
                                                  (answer_with mixed_results))))
                       !! Z.to_nat (2 - 1)) = Some "doc-2") by reflexivity.
    rewrite Hi in H. destruct H as (sourceData & Hs & Heq). rewrite Heq.
    vm_compute in Hs. injection Hs as <-. reflexivity.
  - exact (document_link_binds_by_first_seen_id 3 _ net closed_pane _ Hfind).
Defined.

Lemma targetPage_positive p : (1 <= targetPage p)%Z.
Proof.
  unfold targetPage. destruct p as [n|]; [|lia].
  destruct (Z.ltb_spec 0 n); lia.
Qed.

(** X15.  The two handlers of the result and citation lists never highlight
    a page below one.  A click on citation [n] is bound to the first
    assistant message that has both citations and search results, and there
    to the [n]-th search result, counted from one in the order of the
    results (not of the documents): its text is highlighted, and its page
    when that is positive, page 1 otherwise.  A citation number below one
    or beyond the number of results does nothing. *)
Theorem citation_click_opens_a_valid_page :
  (forall result net p,
      (1 <= highlightPage (fst (handleSearchResultPdfOpen result net p)))%Z)
  /\ (forall citation messages net p,
        handleCitationPdfOpen citation messages net p = (p, None)
        \/ (1 <= highlightPage (fst (handleCitationPdfOpen citation messages net p)))%Z)
  /\ (forall citation msgs net p m searchResult,
        Js.find has_citations_and_results msgs = Some m ->
        (1 <= fc_index citation)%Z ->
        default [] (msg_searchResults m) !! Z.to_nat (fc_index citation - 1)
        = Some searchResult ->
        sr_text searchResult <> "" ->
        highlightText (fst (handleCitationPdfOpen citation (Some msgs) net p))
        = sr_text searchResult
        /\ highlightPage (fst (handleCitationPdfOpen citation (Some msgs) net p))
           = targetPage (sr_page searchResult))
  /\ (forall citation msgs net p m,
        Js.find has_citations_and_results msgs = Some m ->
        (fc_index citation < 1
         \/ Z.of_nat (length (default [] (msg_searchResults m))) < fc_index citation)%Z ->
        handleCitationPdfOpen citation (Some msgs) net p = (p, None)).
Proof.
  split; [|split; [|split]].
  - intros result net p. unfold handleSearchResultPdfOpen.
    destruct (loadDocumentForSource _ _ _). simpl. apply targetPage_positive.
  - intros citation messages net p. unfold handleCitationPdfOpen.
    destruct (messages ≫= Js.find has_citations_and_results) as [m|]; [|left; reflexivity].
    destruct (at_index _ _) as [searchResult|]; [|left; reflexivity].
    right. destruct (loadDocumentForSource _ _ _). simpl. apply targetPage_positive.
  - intros citation msgs net p m searchResult Hfind Hpos Hlook Htext.
    unfold handleCitationPdfOpen. simpl. rewrite Hfind, at_index_lookup.
    destruct (Z.ltb_spec (fc_index citation) 1); [lia|]. rewrite Hlook.
    destruct (loadDocumentForSource _ _ _). simpl. split; [|reflexivity].
    unfold Js.truthy. destruct (String.eqb (sr_text searchResult) "") eqn:E;
      [apply String.eqb_eq in E; congruence|reflexivity].
  - intros citation msgs net p m Hfind Hrange.
    unfold handleCitationPdfOpen. simpl. rewrite Hfind, at_index_lookup.
    destruct (Z.ltb_spec (fc_index citation) 1); [reflexivity|].
    rewrite lookup_ge_None_2; [reflexivity|]. lia.
Qed.

(** The third result, on page [-1], is opened at page 1; citation 4 does
    nothing. *)
Lemma citation_click_opens_a_valid_page_witness :
  let net := fun _ : string => serving "JVBERi0xLjQ=" [] in
  let msgs := [cited_answer mixed_results] in
  Js.find has_citations_and_results msgs = Some (cited_answer mixed_results)
  /\ highlightText (fst (handleCitationPdfOpen (citation_number 3) (Some msgs) net closed_pane))
     = "positional encoding"
  /\ highlightPage (fst (handleCitationPdfOpen (citation_number 3) (Some msgs) net closed_pane))
     = 1%Z
  /\ handleCitationPdfOpen (citation_number 4) (Some msgs) net closed_pane
     = (closed_pane, None).
Proof.
  intros net msgs.
  assert (Hfind : Js.find has_citations_and_results msgs
                  = Some (cited_answer mixed_results)) by reflexivity.
  destruct citation_click_opens_a_valid_page as (_ & _ & Hbind & Hout).
  split; [exact Hfind|].
  destruct (Hbind (citation_number 3) msgs net closed_pane _
                  (result_in paper "positional encoding" (Some (-1)%Z)) Hfind)
    as [Ht Hp]; [simpl; lia|reflexivity|discriminate|].
  split; [exact Ht|]. split; [rewrite Hp; reflexivity|].
  apply (Hout (citation_number 4) msgs net closed_pane _ Hfind).
  right. simpl. lia.
Defined.

(** ** The grouped list of sources *)

Lemma insert_ascending x l :
  ascending l -> x ∉ l ->
  ascending (ChatStore.insert_sorted (fun a b => (a <=? b)%Z) x l).
Proof.
  induction l as [|y l IH]; simpl; intros Hl Hx.
  - split; [constructor|exact I].
  - destruct Hl as [Hy Hl].
    assert (Hne : x <> y) by (intros ->; apply Hx; left).
    assert (Hx' : x ∉ l) by (intros H; apply Hx; right; exact H).
    destruct (Z.leb_spec x y) as [Hle|Hgt].
    + simpl. repeat split; try assumption.
      constructor; [lia|]. eapply Forall_impl; [exact Hy|]. simpl. intros b Hb. lia.
    + simpl. split; [|apply IH; assumption].
      rewrite insert_sorted_perm. constructor; [lia|exact Hy].
Qed.

Lemma sort_ascending l :
  NoDup l -> ascending (ChatStore.stable_sort (fun a b => (a <=? b)%Z) l).
Proof.
  induction l as [|x l IH]; intros Hnd; [exact I|].
  apply NoDup_cons in Hnd as [Hx Hnd].
  unfold ChatStore.stable_sort in *. simpl.
  apply insert_ascending; [apply IH, Hnd|].
  fold (ChatStore.stable_sort (fun a b => (a <=? b)%Z) l).
  rewrite stable_sort_perm. exact Hx.
Qed.

(** X16.  The page list shown for a group of results is strictly
    increasing, and it holds exactly the page numbers that the results of
    the group carry. *)
Theorem pages_of_are_ascending_and_distinct (results : list SearchResult) :
  ascending (pages_of results)
  /\ forall p, p ∈ pages_of results
               <-> exists r, r ∈ results /\ sr_page r = Some p.
Proof.
  unfold pages_of.
  destruct (distinct_spec (omap sr_page results)) as [Hnd Helem].
  split; [apply sort_ascending, Hnd|].
  intros p. rewrite stable_sort_perm, Helem, list_elem_of_omap. reflexivity.
Qed.

(** The pages of the results of two documents. *)
Lemma pages_of_are_ascending_and_distinct_witness :
  pages_of mixed_results = [(-1)%Z; 2%Z; 5%Z]
  /\ ascending (pages_of mixed_results)
  /\ 5%Z ∈ pages_of mixed_results.
Proof.
  destruct (pages_of_are_ascending_and_distinct mixed_results) as [Ha He].
  split; [reflexivity|]. split; [exact Ha|].
  apply He. exists (result_in paper "multi-head attention" (Some 5%Z)).
  split; [left|reflexivity].
Defined.

Lemma foldl_push_group (L : list (list SearchResult)) :
  Forall (fun g => g <> []) L ->
  forall acc n,
  exists new,
    foldl push_group (Some (acc, n)) L = Some (acc ++ new, (n + length L)%nat)
    /\ dg_results <$> new = L
    /\ dg_docIndex <$> new = seq n (length L)
    /\ Forall (fun g => Some (dg_document g) = sr_document <$> head (dg_results g)
                        /\ dg_pages g = pages_of (dg_results g)) new.
Proof.
  induction 1 as [|g L Hg HL IH]; intros acc n.
  - exists []. simpl. rewrite app_nil_r, Nat.add_0_r. repeat split. constructor.
  - destruct g as [|first rest]; [congruence|]. simpl.
    destruct (IH (acc ++ [{| dg_document := sr_document first;
                             dg_results := first :: rest;
                             dg_pages := pages_of (first :: rest);
                             dg_docIndex := n |}]) (S n))
      as (new & Hfold & Hres & Hidx & Hall).
    exists ({| dg_document := sr_document first;
               dg_results := first :: rest;
               dg_pages := pages_of (first :: rest);
               dg_docIndex := n |} :: new).
    split; [|split; [|split]].
    + rewrite Hfold, <- app_assoc. do 2 f_equal. lia.
    + rewrite fmap_cons, Hres. reflexivity.
    + rewrite fmap_cons, Hidx. reflexivity.
    + constructor; [split; reflexivity|exact Hall].
Qed.

Lemma groupedResults_shape results :
  exists groups,
    groupedResults (Some results) = Some groups
    /\ dg_results <$> groups = documentGroups results
    /\ dg_docIndex <$> groups = seq 1 (length groups)
    /\ Forall (fun g => Some (dg_document g) = sr_document <$> head (dg_results g)
                        /\ dg_pages g = pages_of (dg_results g)) groups.
Proof.
  destruct (foldl_push_group (documentGroups results)
              (documentGroups_nonempty results) [] 1%nat)
    as (groups & Hfold & Hres & Hidx & Hall).
  exists groups. unfold groupedResults. rewrite Hfold. simpl.
  repeat split; try assumption.
  rewrite Hidx. f_equal. rewrite <- Hres, length_fmap. reflexivity.
Qed.

(** X17.  [groupedResults] never fails on [results[0]]: it yields one group
    for every document of the results, in first-seen order and numbered
    from one; the document shown for a group is that of its first result,
    all results of a group belong to that document id, and the groups
    together hold every result once.  Without results there is no group. *)
Theorem groupedResults_numbers_the_documents (results : list SearchResult) :
  groupedResults None = Some []
  /\ exists groups,
       groupedResults (Some results) = Some groups
       /\ dg_results <$> groups = documentGroups results
       /\ (fun g => doc_id (dg_document g)) <$> groups
          = distinct (document_ids results)
       /\ dg_docIndex <$> groups = seq 1 (length groups)
       /\ Forall (fun g =>
                    Some (dg_document g) = sr_document <$> head (dg_results g)
                    /\ Forall (fun r => doc_id (sr_document r)
                                        = doc_id (dg_document g)) (dg_results g))
                 groups
       /\ concat (dg_results <$> groups) ≡ₚ results.
Proof.
  split; [reflexivity|].
  destruct (groupedResults_shape results) as (groups & Hg & Hres & Hidx & Hall).
  exists groups. split; [exact Hg|]. split; [exact Hres|].
  assert (Hgroup : Forall (fun g =>
            Some (dg_document g) = sr_document <$> head (dg_results g)
            /\ exists i, dg_results g
                         = filter (fun r => doc_id (sr_document r) = i) results)
          groups).
  { apply Forall_forall. intros g Hin. rewrite Forall_forall in Hall.
    split; [apply (Hall g Hin)|].
    assert (Hr : dg_results g ∈ documentGroups results)
      by (rewrite <- Hres; apply list_elem_of_fmap; eauto).
    unfold documentGroups in Hr. rewrite documentMap_groups in Hr.
    rewrite <- list_fmap_compose in Hr.
    apply list_elem_of_fmap in Hr as (i & Hi & _). eauto. }
  assert (Hids : Forall (fun g =>
            Some (dg_document g) = sr_document <$> head (dg_results g)
            /\ Forall (fun r => doc_id (sr_document r) = doc_id (dg_document g))
                      (dg_results g)) groups).
  { eapply Forall_impl; [exact Hgroup|]. simpl. intros g [Hdoc [i Hi]].
    split; [exact Hdoc|].
    destruct (dg_results g) as [|first rest] eqn:Hr; [constructor|].
    simpl in Hdoc. injection Hdoc as ->.
    assert (Hfirst : doc_id (sr_document first) = i).
    { assert (Hin : first ∈ filter (fun r => doc_id (sr_document r) = i) results)
        by (rewrite <- Hi; left).
      apply list_elem_of_filter in Hin as [Hin _]. exact Hin. }
    rewrite Hi. apply Forall_forall. intros r Hin.
    apply list_elem_of_filter in Hin as [Hin _]. congruence. }
  split; [|split; [exact Hidx|split; [exact Hids|]]].
  - (* the ids of the groups *)
    assert (Hmap : (fun g => head (dg_results g)) <$> groups
                   = (fun i => head (filter (fun r => doc_id (sr_document r) = i) results))
                       <$> distinct (document_ids results)).
    { rewrite (list_fmap_compose dg_results head), Hres.
      unfold documentGroups. rewrite documentMap_groups, <- !list_fmap_compose.
      reflexivity. }
    apply list_eq. intros n. rewrite !list_lookup_fmap.
    apply (f_equal (fun l => l !! n)) in Hmap. rewrite !list_lookup_fmap in Hmap.
    destruct (groups !! n) as [g|] eqn:Hgn,
             (distinct (document_ids results) !! n) as [i|] eqn:Hin;
      simpl in *; try discriminate; [|reflexivity].
    f_equal. injection Hmap as Hmap.
    rewrite Forall_forall in Hids.
    destruct (Hids g (list_elem_of_lookup_2 _ _ _ Hgn)) as [Hdoc _].
    rewrite Hmap in Hdoc.
    destruct (filter _ results) as [|first rest] eqn:Hf; [discriminate|].
    simpl in Hdoc. injection Hdoc as ->.
    assert (Hfirst : first ∈ filter (fun r => doc_id (sr_document r) = i) results)
      by (rewrite Hf; left).
    apply list_elem_of_filter in Hfirst as [Hfirst _]. exact Hfirst.
  - rewrite Hres. apply documentGroups_perm.
Qed.

Lemma find_by_docIndex (gs : list DocGroup) : forall a i,
  dg_docIndex <$> gs = seq a (length gs) -> (a <= i)%nat ->
  Js.find (fun g => (dg_docIndex g =? i)%nat) gs = gs !! (i - a)%nat.
Proof.
  induction gs as [|g gs IH]; intros a i Hidx Hle; [reflexivity|].
  simpl in Hidx. injection Hidx as Hg Hidx. simpl.
  destruct (Nat.eqb_spec (dg_docIndex g) i) as [Heq|Hne].
  - replace (i - a)%nat with 0%nat by lia. reflexivity.
  - rewrite (IH (S a) i Hidx) by lia.
    replace (i - a)%nat with (S (i - S a)) by lia. reflexivity.
Qed.

Lemma earlier_results_sum (gs : list DocGroup) :
  dg_docIndex <$> gs = seq 1 (length gs) ->
  forall fuel i, (1 <= i)%nat ->
  earlier_results gs i fuel
  = length (concat (dg_results <$> take fuel (drop (i - 1) gs))).
Proof.
  intros Hidx. induction fuel as [|fuel IH]; intros i Hi; [reflexivity|].
  simpl. rewrite (find_by_docIndex gs 1 i Hidx Hi), (IH (S i)) by lia.
  replace (S i - 1)%nat with (S (i - 1)) by lia.
  destruct (gs !! (i - 1)%nat) as [g|] eqn:Hg.
  - rewrite (drop_S gs g (i - 1) Hg). simpl. rewrite length_app. reflexivity.
  - apply lookup_ge_None in Hg. rewrite !drop_ge by lia. destruct fuel; reflexivity.
Qed.

Lemma concat_lookup {A} (L : list (list A)) : forall n g j r,
  L !! n = Some g -> g !! j = Some r ->
  concat L !! (length (concat (take n L)) + j)%nat = Some r.
Proof.
  induction L as [|x L IH]; intros n g j r Hn Hj; [discriminate|].
  destruct n as [|n]; simpl in *.
  - injection Hn as ->. apply lookup_app_l_Some. exact Hj.
  - rewrite length_app, <- Nat.add_assoc, lookup_app_r by lia.
    replace (length x + (length (concat (take n L)) + j) - length x)%nat
      with (length (concat (take n L)) + j)%nat by lia.
    eapply IH; eauto.
Qed.

(** X18.  The global index that [getGlobalIndex] gives to result
    [resultIndex] of the group numbered [docIndex] is, counted from one,
    the position of that result in the list of all results read group by
    group; so the global indices of a grouped list run through
    [1 .. results.length] without gaps or repetitions. *)
Theorem getGlobalIndex_enumerates_grouped_results results groups n g j r :
  groupedResults (Some results) = Some groups ->
  groups !! n = Some g -> dg_results g !! j = Some r ->
  dg_docIndex g = S n
  /\ getGlobalIndex groups (dg_docIndex g) j
     = S (length (concat (dg_results <$> take n groups)) + j)
  /\ concat (dg_results <$> groups) !! (getGlobalIndex groups (dg_docIndex g) j - 1)%nat
     = Some r
  /\ (1 <= getGlobalIndex groups (dg_docIndex g) j <= length results)%nat.
Proof.
  intros Hgroups Hn Hj.
  destruct (groupedResults_shape results) as (groups' & Hg & Hres & Hidx & _).
  rewrite Hgroups in Hg. injection Hg as <-.
  assert (Hdoc : dg_docIndex g = S n).
  { apply (f_equal (fun l => l !! n)) in Hidx.
    rewrite list_lookup_fmap, Hn in Hidx. simpl in Hidx.
    rewrite lookup_seq_lt in Hidx by (eapply lookup_lt_Some, Hn).
    injection Hidx as ->. reflexivity. }
  assert (Hglobal : getGlobalIndex groups (dg_docIndex g) j
                    = S (length (concat (dg_results <$> take n groups)) + j)).
  { unfold getGlobalIndex. rewrite Hdoc.
    rewrite (earlier_results_sum groups Hidx) by lia.
    simpl. rewrite Nat.sub_0_r, drop_0. lia. }
  assert (Hlook : concat (dg_results <$> groups)
                    !! (getGlobalIndex groups (dg_docIndex g) j - 1)%nat = Some r).
  { rewrite Hglobal. simpl. rewrite Nat.sub_0_r, fmap_take.
    apply (concat_lookup _ n (dg_results g)); [|exact Hj].
    rewrite list_lookup_fmap, Hn. reflexivity. }
  split; [exact Hdoc|]. split; [exact Hglobal|]. split; [exact Hlook|].
  split; [lia|].
  apply lookup_lt_Some in Hlook.
  rewrite Hres, (Permutation_length (documentGroups_perm results)) in Hlook. lia.
Qed.

(** In the results of two documents, the second result of the first
    document has global index 2 and the only result of the second document
    has global index 3. *)
Lemma getGlobalIndex_enumerates_grouped_results_witness :
  exists groups g1 g2,
    groupedResults (Some mixed_results) = Some groups
    /\ groups !! 0%nat = Some g1 /\ groups !! 1%nat = Some g2
    /\ dg_results g1 !! 1%nat = Some (result_in paper "positional encoding" (Some (-1)%Z))
    /\ getGlobalIndex groups (dg_docIndex g1) 1 = 2%nat
    /\ concat (dg_results <$> groups) !! 1%nat
       = Some (result_in paper "positional encoding" (Some (-1)%Z))
    /\ dg_pages g1 = [(-1)%Z; 5%Z].
Proof.
  destruct (groupedResults (Some mixed_results)) as [groups|] eqn:E;
    [|vm_compute in E; discriminate E].
  destruct (groups !! 0%nat) as [g1|] eqn:E1.
  2:{ vm_compute in E. injection E as <-. discriminate E1. }
  destruct (groups !! 1%nat) as [g2|] eqn:E2.
  2:{ vm_compute in E. injection E as <-. discriminate E2. }
  assert (Hr : dg_results g1 !! 1%nat
               = Some (result_in paper "positional encoding" (Some (-1)%Z))
               /\ dg_pages g1 = [(-1)%Z; 5%Z]).
  { vm_compute in E. injection E as <-. vm_compute in E1. injection E1 as <-.
    split; reflexivity. }
  exists groups, g1, g2. split; [reflexivity|]. split; [exact E1|]. split; [exact E2|].
  split; [apply Hr|].
  destruct (getGlobalIndex_enumerates_grouped_results
              mixed_results groups 0 g1 1 _ E E1 (proj1 Hr))
    as (_ & Hglobal & Hlook & _).
  rewrite Hglobal in Hlook. simpl in Hlook.
  split; [rewrite Hglobal; reflexivity|]. split; [exact Hlook|apply Hr].
Defined.

(** ** The viewer *)

Lemma inline_ok sourceData fetched v v' :
  loadDocumentViaBase64 sourceData fetched v = Ok v' ->
  exists bytes mimetype,
    v' = openPdf (pdfDocument sourceData bytes mimetype) v
    /\ isPdfHeader bytes = true.
Proof.
  unfold loadDocumentViaBase64.
  destruct fetched as [response|]; [|discriminate].
  destruct (negb (vr_ok response)); [discriminate|].
  destruct (negb (opt_includes _ _)); [discriminate|].
  destruct (vr_json response) as [data|]; [|discriminate].
  destruct (vd_use_download data || _); [discriminate|].
  destruct (Js.falsy_opt _); [discriminate|].
  destruct (_ <? _)%Z; [discriminate|].
  destruct (negb (isValidBase64 _)); [discriminate|].
  destruct (base64ToUint8Array _) as [bytes|]; [|discriminate].
  unfold open_converted. rewrite header_guard.
  destruct (isPdfHeader bytes) eqn:Hh; [|discriminate].
  intros H. injection H as <-. eauto.
Qed.

Lemma download_result sourceData fetched v :
  (exists bytes,
      loadDocumentViaDownload sourceData fetched v
      = Ok (openPdf (pdfDocument sourceData bytes "application/pdf") v)
      /\ isPdfHeader bytes = true)
  \/ loadDocumentViaDownload sourceData fetched v = Throw FetchRejected
  \/ (exists status statusText,
        loadDocumentViaDownload sourceData fetched v
        = Throw (FailedToDownload status statusText))
  \/ loadDocumentViaDownload sourceData fetched v = Throw DownloadedNotAValidPdf.
Proof.
  unfold loadDocumentViaDownload.
  destruct fetched as [response|]; [|auto].
  destruct (negb (dr_ok response)); [eauto 6|].
  destruct (dr_bytes response) as [bytes|]; [|auto].
  rewrite header_guard. destruct (isPdfHeader bytes) eqn:Hh; simpl; eauto 6.
Qed.

(** X25.  After [loadDocumentForSource]: when no alert was raised, the
    viewer is loaded with a document that carries the id and file name of
    the clicked source and bytes with the PDF header; when an alert was
    raised, the viewer is as before and the alert shows an error of the
    download path, never one of the inline path.  [handleClosePdfViewer]
    unloads the viewer and clears the highlight. *)
Theorem viewer_is_loaded_exactly_on_success :
  (forall sourceData net v v',
      loadDocumentForSource sourceData net v = (v', None) ->
      isPdfLoaded v' = true
      /\ exists document,
           currentPdf v' = Some document
           /\ pdf_id document = doc_id (sr_document sourceData)
           /\ pdf_filename document = doc_filename (sr_document sourceData)
           /\ isPdfHeader (pdf_base64Data document) = true)
  /\ (forall sourceData net v v' error,
        loadDocumentForSource sourceData net v = (v', Some error) ->
        v' = v
        /\ (error = FetchRejected
            \/ (exists status statusText, error = FailedToDownload status statusText)
            \/ error = DownloadedNotAValidPdf))
  /\ (forall p,
        isPdfLoaded (viewer (handleClosePdfViewer p)) = false
        /\ highlightText (handleClosePdfViewer p) = ""
        /\ highlightPage (handleClosePdfViewer p) = 0%Z).
Proof.
  split; [|split].
  - intros sourceData net v v'. unfold loadDocumentForSource.
    destruct (loadDocumentViaBase64 _ _ _) as [v1|e1] eqn:H1.
    + intros H. injection H as <-.
      apply inline_ok in H1 as (bytes & mimetype & -> & Hh).
      split; [reflexivity|]. eexists. split; [reflexivity|]. auto.
    + destruct (download_result sourceData (served_download net) v)
        as [(bytes & -> & Hh) | [-> | [(st & tx & ->) | ->]]]; try discriminate.
      intros H. injection H as <-.
      split; [reflexivity|]. eexists. split; [reflexivity|]. auto.
  - intros sourceData net v v' error. unfold loadDocumentForSource.
    destruct (loadDocumentViaBase64 _ _ _) as [v1|e1]; [discriminate|].
    destruct (download_result sourceData (served_download net) v)
      as [(bytes & -> & Hh) | [-> | [(st & tx & ->) | ->]]]; try discriminate;
      intros H; injection H as <- <-; eauto 6.
  - intros p. repeat split.
Qed.

(** The inline bytes [%PDF-1.4] load the viewer; an HTML page served on
    both paths leaves it closed and is reported as a download error. *)
Lemma viewer_is_loaded_exactly_on_success_witness :
  exists v' document,
    loadDocumentForSource (result_on_page (Some 3%Z)) (serving "JVBERi0xLjQ=" [])
                          (viewer closed_pane) = (v', None)
    /\ isPdfLoaded v' = true
    /\ currentPdf v' = Some document
    /\ pdf_id document = "doc-1"
    /\ loadDocumentForSource (result_on_page (Some 3%Z))
         (serving "PGh0bWw+" [60; 104; 116; 109; 108; 62]%Z) (viewer closed_pane)
       = (viewer closed_pane, Some DownloadedNotAValidPdf).
Proof.
  destruct viewer_is_loaded_exactly_on_success as (Hok & Herr & _).
  destruct (loadDocumentForSource (result_on_page (Some 3%Z))
              (serving "JVBERi0xLjQ=" []) (viewer closed_pane)) as [v' [e|]] eqn:E;
    [vm_compute in E; discriminate E|].
  destruct (Hok _ _ _ _ E) as (Hloaded & document & Hcur & Hid & _).
  exists v', document. split; [reflexivity|]. split; [exact Hloaded|].
  split; [exact Hcur|]. split; [exact Hid|].
  destruct (loadDocumentForSource (result_on_page (Some 3%Z))
              (serving "PGh0bWw+" [60; 104; 116; 109; 108; 62]%Z)
              (viewer closed_pane)) as [v2 [e|]] eqn:E2;
    [|vm_compute in E2; discriminate E2].
  destruct (Herr _ _ _ _ _ E2) as [-> _].
  vm_compute in E2. injection E2 as <-. reflexivity.
Defined.

(** ** The collapsed text of a result *)

Lemma string_prefix_refl (s : string) : String.prefix s s = true.
Proof.
  induction s as [|a s IH]; [reflexivity|]. simpl.
  destruct (ascii_dec a a); [exact IH|congruence].
Qed.

Lemma string_prefix_substring n : forall s : string,
  String.prefix (substring 0 n s) s = true.
Proof.
  induction n as [|n IH]; intros [|a s]; simpl; try reflexivity.
  destruct (ascii_dec a a); [apply IH|congruence].
Qed.

(** X26.  The text shown for a result is always a prefix of its text; while
    the result is collapsed it is at most 100 characters long, and a text
    of at most 100 characters is shown in full. *)
Theorem truncated_text_is_a_short_prefix (expanded : bool) (result : SearchResult) :
  String.prefix (getTruncatedText expanded result) (sr_text result) = true
  /\ (expanded = false ->
      (String.length (getTruncatedText expanded result) <= 100)%nat)
  /\ ((String.length (sr_text result) <= 100)%nat ->
      getTruncatedText expanded result = sr_text result).
Proof.
  unfold getTruncatedText, TEXT_TRUNCATE_LENGTH.
  destruct expanded; [repeat split; [apply string_prefix_refl|discriminate]|].
  destruct (Nat.ltb_spec 100 (String.length (sr_text result))) as [Hlong|Hshort].
  - split; [apply string_prefix_substring|]. split; [|lia].
    intros _. apply length_substring.
  - split; [apply string_prefix_refl|]. split; [intros _; exact Hshort|reflexivity].
Qed.

(** A short text is shown in full. *)
Lemma truncated_text_is_a_short_prefix_witness :
  (String.length (sr_text (result_on_page None)) <= 100)%nat
  /\ getTruncatedText false (result_on_page None) = "scaled dot-product attention"
  /\ (String.length (getTruncatedText false (result_on_page None)) <= 100)%nat.
Proof.
  assert (H : (String.length (sr_text (result_on_page None)) <= 100)%nat)
    by (vm_compute; lia).
  destruct (truncated_text_is_a_short_prefix false (result_on_page None))
    as (_ & Hlen & Hfull).
  split; [exact H|]. split; [rewrite (Hfull H); reflexivity|apply Hlen; reflexivity].
Defined.

(** ** The page at which a clicked document opens *)


Section ViewerPage.

Variable props : PdfViewer.Props.

Variable target : Z.

Hypothesis target_page :
  target = match PdfViewer.positive_page (PdfViewer.highlightPage props) with
           | Some n => n
           | None => 1%Z
           end.





End ViewerPage.






(* ===================================================================== *)
(** * Further properties of the BibTeX parser and the citation styles *)
(* ===================================================================== *)

Import Regex Bib.

(** ** What the parser files *)

Lemma scan_elem items : forall s skip m,
  m ∈ scan items skip s ->
  exists s' used, match_items false items s' = Some (m, used).
Proof.
  induction s as [|c s IH]; intros skip m Hm; cbn [scan] in Hm; [inversion Hm|].
  destruct skip as [|k]; [|eapply IH; eauto].
  destruct (match_items false items (c :: s)) as [[caps used]|] eqn:E.
  - apply elem_of_cons in Hm as [->|Hm]; [eauto|eapply IH; eauto].
  - eapply IH; eauto.
Qed.

Lemma match_captures_fit ae items : forall s caps used,
  match_items ae items s = Some (caps, used) -> captures_fit items caps.
Proof.
  induction items as [|it rest IH]; intros s caps used H.
  - simpl in H. destruct ae; [destruct s|]; try discriminate;
      injection H as <- _; reflexivity.
  - cbn [match_items] in H. apply backtrack_some in H as (j & [Hlo Hhi] & Hj).
    destruct (match_items ae rest (drop j s)) as [[caps' used']|] eqn:E;
      [|discriminate].
    injection Hj as <- _. apply IH in E. cbn [captures_fit].
    assert (Hrun : (j <= run_length (it_class it) s)%nat)
      by (destruct (it_max it); lia).
    destruct (it_capture it); simpl; [|exact E].
    split; [|split; [|exact E]].
    + apply run_length_take, Hrun.
    + rewrite length_take. pose proof (run_length_le (it_class it) s). lia.
Qed.

Lemma lower_word c :
  is_word c = true -> is_word (lower_char c) = true /\ is_upper (lower_char c) = false.
Proof.
  destruct c as [[|] [|] [|] [|] [|] [|] [|] [|]]; vm_compute; intros H;
    try discriminate H; split; reflexivity.
Qed.

Lemma chars_str l : chars (str l) = l.
Proof. apply list_ascii_of_string_of_list_ascii. Qed.

Lemma str_nonempty l : l <> [] -> str l <> "".
Proof. destruct l; [congruence|discriminate]. Qed.

Lemma add_entry_filed entries m :
  captures_fit entryRegex m ->
  (forall k e, entries !! k = Some e -> filed_under k e) ->
  forall k e, add_entry entries m !! k = Some e -> filed_under k e.
Proof.
  intros Hm Hinv k e. simpl in Hm.
  destruct m as [|type [|id [|content [|? ?]]]]; try tauto;
    try (destruct Hm as (_ & _ & _ & _ & _ & _ & Hm); discriminate Hm).
  destruct Hm as (Htype & Htlen & Hid & Hilen & _).
  unfold add_entry. destruct (decide (k = str id)) as [->|Hne].
  - rewrite lookup_insert_eq. intros H. injection H as <-.
    split; [|split; [|split]].
    + rewrite lookup_insert_ne by discriminate. apply lookup_insert_eq.
    + apply str_nonempty. destruct id; [simpl in Hilen; lia|discriminate].
    + rewrite chars_str. eapply Forall_impl; [exact Hid|].
      intros c Hc. apply not_char_true, Hc.
    + exists (str (toLowerCase type)). split; [apply lookup_insert_eq|]. split.
      * apply str_nonempty. destruct type; [simpl in Htlen; lia|discriminate].
      * rewrite chars_str. unfold toLowerCase. apply Forall_fmap.
        eapply Forall_impl; [exact Htype|]. intros c Hc. apply lower_word, Hc.
  - rewrite lookup_insert_ne by congruence. apply Hinv.
Qed.

Lemma foldl_add_entry_filed l :
  Forall (captures_fit entryRegex) l ->
  forall entries,
    (forall k e, entries !! k = Some e -> filed_under k e) ->
    forall k e, foldl add_entry entries l !! k = Some e -> filed_under k e.
Proof.
  induction 1 as [|m l Hm Hl IH]; intros entries Hinv; [exact Hinv|].
  simpl. apply IH. apply add_entry_filed; assumption.
Qed.

Lemma parsed_filed bibtex k e :
  parseBibTeX bibtex !! k = Some e -> filed_under k e.
Proof.
  unfold parseBibTeX. apply foldl_add_entry_filed.
  - apply Forall_forall. intros m Hm. unfold exec_all in Hm.
    apply scan_elem in Hm as (s' & used & Hm).
    eapply match_captures_fit, Hm.
  - intros k' e' H. rewrite lookup_empty in H. discriminate.
Qed.

Lemma scan_without_at s : forall skip,
  Forall (fun c => c <> "@"%char) s -> scan entryRegex skip s = [].
Proof.
  induction s as [|c s IH]; intros skip Hs; [reflexivity|].
  apply Forall_cons in Hs as [Hc Hs]. destruct skip as [|k]; [|apply IH, Hs].
  rewrite scan_miss; [apply IH, Hs|].
  apply match_miss; [simpl; lia|].
  unfold is_char. apply Ascii.eqb_neq. exact Hc.
Qed.

(** X19.  Every entry that [parseBibTeX] returns is filed under its own
    id: the entry found under a key has that key as its [id] field (a
    field named [id] in the record is overridden), the key is not empty
    and holds no comma, and the entry has a [type], a non-empty word
    without capital letters.  A text without an at sign has no entries. *)
Theorem parsed_entries_are_filed_under_their_id (bibtex : string) :
  (forall k e, parseBibTeX bibtex !! k = Some e -> filed_under k e)
  /\ (Forall (fun c => c <> "@"%char) (chars bibtex) -> parseBibTeX bibtex = ∅).
Proof.
  split; [apply parsed_filed|].
  intros H. unfold parseBibTeX, exec_all. rewrite scan_without_at by exact H.
  reflexivity.
Qed.

(** The record of the documentation site: its [DOI] field is filed in
    lower case beside the [id] and the [type]. *)
Lemma parsed_entries_are_filed_under_their_id_witness :
  exists e,
    parseBibTeX crypto_record !! "cryptography" = Some e
    /\ filed_under "cryptography" e
    /\ parseBibTeX "no entries here" = ∅.
Proof.
  destruct (parseBibTeX crypto_record !! "cryptography") as [e|] eqn:E;
    [|vm_compute in E; discriminate E].
  exists e. split; [reflexivity|].
  destruct (parsed_entries_are_filed_under_their_id crypto_record) as [H _].
  destruct (parsed_entries_are_filed_under_their_id "no entries here") as [_ H'].
  split; [apply H, E|]. apply H'.
  repeat (constructor; [discriminate|]). constructor.
Defined.

(** ** Splitting and joining the author list *)

Lemma split_at_nonempty sep : forall s skip cur, split_at sep skip cur s <> [].
Proof.
  induction s as [|c s IH]; intros skip cur; simpl; [discriminate|].
  destruct skip; [|apply IH]. destruct (Js.starts_with sep (c :: s)); [discriminate|apply IH].
Qed.

Lemma join_cons sep x rest :
  rest <> [] -> join sep (x :: rest) = x ++ sep ++ join sep rest.
Proof. destruct rest; [congruence|reflexivity]. Qed.

Lemma starts_with_split p : forall s,
  Js.starts_with p s = true -> s = p ++ drop (length p) s.
Proof.
  induction p as [|a p IH]; intros s H; [reflexivity|].
  destruct s as [|b s]; [discriminate|]. simpl in H.
  apply andb_prop in H as [Hab H]. apply Ascii.eqb_eq in Hab as ->.
  simpl. f_equal. apply IH, H.
Qed.

Lemma join_split_at sep :
  sep <> [] ->
  forall s skip cur, (skip <= length s)%nat ->
    join sep (split_at sep skip cur s) = cur ++ drop skip s.
Proof.
  intros Hsep. induction s as [|c s IH]; intros skip cur Hle.
  - simpl in Hle. replace skip with 0%nat by lia. simpl.
    rewrite app_nil_r. reflexivity.
  - destruct skip as [|k]; cbn [split_at].
    + destruct (Js.starts_with sep (c :: s)) eqn:Hstart.
      * rewrite join_cons by apply split_at_nonempty.
        pose proof (starts_with_split sep (c :: s) Hstart) as Hs.
        destruct sep as [|a sep]; [congruence|].
        simpl in Hs. injection Hs as -> Hs.
        assert (Hlen : (length sep <= length s)%nat).
        { pose proof (f_equal length Hs) as Hl. rewrite length_app in Hl. lia. }
        rewrite IH by (simpl; lia). simpl. rewrite Nat.sub_0_r.
        rewrite <- Hs. reflexivity.
      * rewrite IH by lia. rewrite drop_0, <- app_assoc. reflexivity.
    + rewrite IH by (simpl in Hle; lia). reflexivity.
Qed.

Lemma join_split sep s : sep <> [] -> join sep (split sep s) = s.
Proof. intros Hsep. unfold split. rewrite join_split_at by (auto; lia). reflexivity. Qed.

(** X20.  Splitting a string at a non-empty separator and joining the
    pieces with the same separator gives the string back.  Hence the APA
    citation of a paper with at most seven authors starts with the author
    string of the paper as it is. *)
Theorem apa_keeps_short_author_lists :
  (forall sep s, sep <> [] -> join sep (split sep s) = s)
  /\ (forall paper,
        (length (authors_of paper) <= 7)%nat ->
        generateAPA paper
        = paper_authors paper +:+ " (" +:+ Js.num_to_string (paper_year paper)
          +:+ "). " +:+ paper_title paper +:+ ". "
          +:+ when_present (paper_journal paper) (fun journal => journal +:+ ". ")
          +:+ match present (paper_doi paper) with
              | Some doi => "https://doi.org/" +:+ doi
              | None => when_present (paper_url paper) (fun url => url)
              end).
Proof.
  split; [intros sep s; apply join_split|].
  intros paper Hlen. unfold generateAPA.
  destruct (Nat.ltb_spec 7 (length (authors_of paper))); [lia|].
  unfold authors_of. rewrite join_split by discriminate.
  rewrite str_chars. reflexivity.
Qed.

(** The paper with three authors; of the eight authors of the other
    paper, the seventh is left out. *)
Lemma apa_keeps_short_author_lists_witness :
  (length (authors_of deep_learning) <= 7)%nat
  /\ generateAPA deep_learning
     = "Yann LeCun, Yoshua Bengio, Geoffrey Hinton (2015). Deep Learning. Nature. "
       +:+ "https://www.nature.com/articles/nature14539"
  /\ generateAPA attention
     = "Ashish Vaswani, Noam Shazeer, Niki Parmar, Jakob Uszkoreit, Llion Jones, "
       +:+ "Aidan N. Gomez, ... Illia Polosukhin (2017). Attention Is All You Need. "
       +:+ "https://arxiv.org/abs/1706.03762".
Proof.
  assert (H : (length (authors_of deep_learning) <= 7)%nat) by (vm_compute; lia).
  split; [exact H|].
  destruct apa_keeps_short_author_lists as [_ Hapa].
  split; [rewrite (Hapa deep_learning H); reflexivity|reflexivity].
Defined.

Lemma split_at_single sep :
  forall s cur, occurs sep s = false -> split_at sep 0 cur s = [cur ++ s].
Proof.
  induction s as [|c s IH]; intros cur H.
  - simpl. rewrite app_nil_r. reflexivity.
  - cbn [occurs] in H. apply orb_false_iff in H as [Hstart H].
    cbn [split_at]. rewrite Hstart, (IH _ H), <- app_assoc. reflexivity.
Qed.

Lemma split_at_first sep : sep <> [] -> forall s cur p,
  Js.starts_with sep (drop p s) = true ->
  (p <= length s)%nat ->
  (forall q, (q < p)%nat -> Js.starts_with sep (drop q s) = false) ->
  exists rest, rest <> [] /\ split_at sep 0 cur s = (cur ++ take p s) :: rest.
Proof.
  intros Hsep. induction s as [|c s IH]; intros cur p Hp Hle Hq.
  - simpl in Hle. replace p with 0%nat in * by lia. simpl in *.
    destruct sep; [congruence|discriminate].
  - destruct p as [|p].
    + rewrite drop_0 in Hp. cbn [split_at]. rewrite Hp. simpl. rewrite app_nil_r.
      eexists. split; [|reflexivity]. apply split_at_nonempty.
    + pose proof (Hq 0%nat ltac:(lia)) as H0. rewrite drop_0 in H0.
      cbn [split_at]. rewrite H0.
      destruct (IH (cur ++ [c]) p) as (rest & Hrest & Hsplit).
      * exact Hp.
      * simpl in Hle. lia.
      * intros q Hlt. apply (Hq (S q)). lia.
      * exists rest. split; [exact Hrest|]. rewrite Hsplit, <- app_assoc. reflexivity.
Qed.

Lemma str_app a b : str (a ++ b) = str a +:+ str b.
Proof. induction a as [|x a IH]; simpl; [reflexivity|]. rewrite IH. reflexivity. Qed.

(** X21.  The author line that the MLA and Chicago styles share: when the
    author string holds no [", "], it is printed as it is; otherwise the
    line is the text before the first [", "], followed by [", et al."]. *)
Theorem first_author_is_the_text_before_the_first_comma (paper : Paper) :
  (occurs (chars ", ") (chars (paper_authors paper)) = false ->
   first_author_et_al paper = paper_authors paper)
  /\ (forall p,
        Js.starts_with (chars ", ") (drop p (chars (paper_authors paper))) = true ->
        (forall q, (q < p)%nat ->
           Js.starts_with (chars ", ") (drop q (chars (paper_authors paper))) = false) ->
        first_author_et_al paper
        = str (take p (chars (paper_authors paper))) +:+ ", et al.").
Proof.
  split.
  - intros H. unfold first_author_et_al, authors_of, split.
    rewrite (split_at_single _ _ [] H). simpl. apply str_chars.
  - intros p Hp Hq.
    assert (Hle : (p <= length (chars (paper_authors paper)))%nat).
    { destruct (Nat.le_gt_cases p (length (chars (paper_authors paper)))) as [H|H];
        [exact H|].
      rewrite drop_ge in Hp by lia. discriminate. }
    destruct (split_at_first (chars ", ") ltac:(discriminate) _ [] p Hp Hle Hq)
      as (rest & Hrest & Hsplit).
    unfold first_author_et_al, authors_of, split. rewrite Hsplit.
    destruct rest as [|x rest]; [congruence|]. reflexivity.
Qed.

(** The paper with three authors, and a paper by a single author. *)
Lemma first_author_is_the_text_before_the_first_comma_witness :
  first_author_et_al deep_learning = "Yann LeCun, et al."
  /\ first_author_et_al
       {| paper_id := "turing1950"; paper_title := "Computing Machinery and Intelligence";
          paper_authors := "Alan Turing"; paper_year := 1950;
          paper_journal := Some "Mind"; paper_abstract := ""; paper_category := "";
          paper_url := None; paper_doi := None; paper_arxiv := None;
          paper_pdf := None; paper_citations := None |}
     = "Alan Turing".
Proof.
  split.
  - destruct (first_author_is_the_text_before_the_first_comma deep_learning)
      as [_ H].
    rewrite (H 10%nat); [reflexivity|reflexivity|].
    intros q Hq. do 10 (destruct q as [|q]; [reflexivity|]). lia.
  - match goal with |- first_author_et_al ?paper = _ =>
      destruct (first_author_is_the_text_before_the_first_comma paper) as [H _]
    end.
    rewrite H; reflexivity.
Defined.

(** ** The in-text citation label *)

Lemma split_char_pieces (c : ascii) : forall s cur,
  c ∉ cur -> Forall (fun piece => c ∉ piece) (split_at [c] 0 cur s).
Proof.
  induction s as [|x s IH]; intros cur Hcur.
  - constructor; [exact Hcur|constructor].
  - cbn [split_at Js.starts_with length Nat.sub].
    destruct (Ascii.eqb c x) eqn:E; simpl.
    + constructor; [exact Hcur|]. apply IH. intros H. inversion H.
    + apply IH. apply Ascii.eqb_neq in E. intros H.
      apply elem_of_app in H as [H|H]; [auto|].
      apply list_elem_of_singleton in H. congruence.
Qed.

(** X22.  The label of an in-text citation: [formatAuthorDisplay] either
    returns the author field as it is, or a single word without a space
    followed by [" et al."]; an author field that holds neither [" and "]
    nor [", "] (one author) is returned as it is. *)
Theorem formatAuthorDisplay_is_one_word_et_al :
  (forall authorString,
      formatAuthorDisplay authorString = authorString
      \/ exists w, formatAuthorDisplay authorString = str w +:+ " et al."
                   /\ " "%char ∉ w)
  /\ (forall authorString,
        occurs (chars " and ") (chars authorString) = false ->
        occurs (chars ", ") (chars authorString) = false ->
        formatAuthorDisplay authorString = authorString).
Proof.
  split.
  - intros authorString. unfold formatAuthorDisplay.
    destruct (_ <=? 2)%nat; [left; reflexivity|]. right.
    set (first := trim _).
    pose proof (split_char_pieces " "%char first [] ltac:(intros H; inversion H))
      as Hpieces.
    change (split_at [" "%char] 0 [] first) with (split (chars " ") first) in Hpieces.
    destruct (last (split (chars " ") first)) as [w|] eqn:Hlast.
    + exists w. split; [reflexivity|].
      rewrite Forall_forall in Hpieces. apply Hpieces.
      eapply last_Some_elem_of, Hlast.
    + apply last_None in Hlast. exfalso. revert Hlast. apply split_at_nonempty.
  - intros authorString Hand Hcomma. unfold formatAuthorDisplay, split.
    rewrite (split_at_single _ _ [] Hand). simpl join.
    rewrite (split_at_single _ _ [] Hcomma). reflexivity.
Qed.

(** One author, and the eight authors of the documentation record. *)
Lemma formatAuthorDisplay_is_one_word_et_al_witness :
  formatAuthorDisplay "Ada Lovelace" = "Ada Lovelace"
  /\ formatAuthorDisplay
       "Ashish Vaswani and Noam Shazeer and Niki Parmar and Jakob Uszkoreit"
     = "Vaswani et al.".
Proof.
  destruct formatAuthorDisplay_is_one_word_et_al as [_ H].
  split; [apply H; reflexivity|reflexivity].
Defined.

(** ** The list of cited references *)

Lemma cite_known (references : gmap string (gmap string string)) prev i c :
  references !! i = Some c -> c !! "id" = Some i ->
  cite references prev i = if cited i prev then prev else prev ++ [c].
Proof.
  intros Hc Hid. unfold cite, addCitation. rewrite Hc.
  destruct (cited i prev); [reflexivity|]. do 2 f_equal.
  apply map_eq. intros j. rewrite lookup_union.
  destruct (decide (j = "id")) as [->|Hne].
  - rewrite Hid, lookup_singleton_eq. reflexivity.
  - rewrite lookup_singleton_ne by congruence. destruct (c !! j); reflexivity.
Qed.

Lemma cited_known (references : gmap string (gmap string string)) i l :
  (forall k e, references !! k = Some e -> e !! "id" = Some k) ->
  cited i (omap (fun j => references !! j) l) = true
  <-> i ∈ l /\ is_Some (references !! i).
Proof.
  intros Hinv. unfold cited. rewrite existsb_exists. split.
  - intros (item & Hin & Hid). apply list_elem_of_In in Hin.
    apply list_elem_of_omap in Hin as (j & Hj & Hitem).
    apply bool_decide_eq_true in Hid. rewrite (Hinv _ _ Hitem) in Hid.
    injection Hid as ->. eauto.
  - intros [Hi [c Hc]]. exists c. split.
    + apply list_elem_of_In, list_elem_of_omap. eauto.
    + apply bool_decide_eq_true. apply (Hinv _ _ Hc).
Qed.

Lemma foldl_cite (references : gmap string (gmap string string)) ids :
  (forall k e, references !! k = Some e -> e !! "id" = Some k) ->
  foldl (cite references) [] ids
  = omap (fun i => references !! i) (ChatPane.distinct ids).
Proof.
  intros Hinv. induction ids as [|i ids IH] using rev_ind; [reflexivity|].
  rewrite foldl_app. simpl. rewrite IH, distinct_snoc. clear IH.
  destruct (distinct_spec ids) as [_ Helem].
  destruct (references !! i) as [c|] eqn:Hc.
  - rewrite (cite_known _ _ _ c Hc (Hinv _ _ Hc)).
    destruct (cited i _) eqn:Hcited.
    + apply (cited_known _ _ _ Hinv) in Hcited as [Hin _].
      rewrite decide_True by exact Hin. reflexivity.
    + rewrite decide_False.
      * rewrite omap_app. simpl. rewrite Hc. reflexivity.
      * intros Hin. assert (cited i (omap (fun j => references !! j)
                                         (ChatPane.distinct ids)) = true)
          by (apply (cited_known _ _ _ Hinv); eauto).
        congruence.
  - unfold cite. rewrite Hc.
    destruct (decide (i ∈ ChatPane.distinct ids)); [reflexivity|].
    rewrite omap_app. simpl. rewrite Hc, app_nil_r. reflexivity.
Qed.

(** X23.  The reference list of a page: citing ids one after the other,
    against the references parsed from a BibTeX text, leaves the parsed
    entries of the distinct known ids, in the order in which they are
    first cited; an id cited again, or an id without an entry, adds
    nothing, so no reference is listed twice. *)
Theorem cited_references_are_listed_once (bibtex : string) (ids : list string) :
  foldl (cite (parseBibTeX bibtex)) [] ids
  = omap (fun i => parseBibTeX bibtex !! i) (ChatPane.distinct ids)
  /\ NoDup ((fun item => item !! "id") <$> foldl (cite (parseBibTeX bibtex)) [] ids).
Proof.
  assert (Hinv : forall k e, parseBibTeX bibtex !! k = Some e -> e !! "id" = Some k)
    by (intros k e H; apply (parsed_filed bibtex k e H)).
  pose proof (foldl_cite _ ids Hinv) as Hfold.
  split; [exact Hfold|]. rewrite Hfold. clear Hfold.
  destruct (distinct_spec ids) as [Hnd _].
  induction Hnd as [|i l Hi Hnd IH]; [constructor|].
  simpl. destruct (parseBibTeX bibtex !! i) as [c|] eqn:Hc; [|exact IH].
  simpl. constructor; [|exact IH].
  rewrite (Hinv _ _ Hc). intros Hin.
  apply list_elem_of_fmap in Hin as (item & Hid & Hin).
  apply list_elem_of_omap in Hin as (j & Hj & Hitem).
  rewrite (Hinv _ _ Hitem) in Hid. injection Hid as ->. auto.
Qed.


(* ===================================================================== *)
(** * Parsing a record, formatting its fields, and parsing again *)
(* ===================================================================== *)

Import Regex Bib.

(** ** The order in which the matcher tries *)










(** ** What the parser files *)





(** ** The values of the fields *)






(** ** The text of the formatter, read again *)















(** ** The paper made of a parsed entry *)













(** ** The fields of the formatted text *)




(** ** Parsing, formatting, parsing *)




(** Outside that reach the set of field names changes: the formatter
    writes a year for a record that has none, and an [archivePrefix] next
    to every [eprint]; it leaves out a journal that is blank. *)
Lemma records_beyond_the_formatter :
  let parsed x k := default ∅ (parseBibTeX x !! k) in
  let reparsed x k :=
    default ∅ (parseBibTeX (generateBibTeX (paper_of_entry (parsed x k))) !! k) in
  (("year" ∉ field_set (parsed undated_record "notes"))
   /\ "year" ∈ field_set (reparsed undated_record "notes"))
  /\ (("archiveprefix" ∉ field_set (parsed preprint_record "vaswani2017"))
      /\ "archiveprefix" ∈ field_set (reparsed preprint_record "vaswani2017"))
  /\ ("journal" ∈ field_set (parsed blank_journal_record "draft")
      /\ "journal" ∉ field_set (reparsed blank_journal_record "draft")).
Proof.
  intros parsed reparsed. repeat split;
    first [ apply (bool_decide_eq_false_1 _); vm_compute; reflexivity
          | apply (bool_decide_unpack _); vm_compute; exact I ].
Qed.
